(** * IsoDisplay: display synchronisation and playback engine

    A shallow embedding of the [DisplayPlayer] React component
    (components/player/DisplayPlayer.tsx) and of the polling routine of the
    display page (app/display/[url]/page.tsx), with the properties of the
    reconciler, the playback scheduler and the polling page proved about
    the embedded code.

    Conventions of the embedding.
    - The numbers of a playlist (order, durations) and timestamps are
      integers of [Z]; playlists arrive as JSON, which has neither NaN nor
      infinities, so [!==] on them is disequality.  An index is a [Number]:
      the value of a [seek] command is any JSON number, and the guard of the
      player lets every number from 0 up to the item count through, integer
      or not.
    - [null] and [undefined] are both [None].
    - A closure created during a render sees the React state of that render:
      every handler takes the captured [View] as an argument and the
      [setState] calls it makes are collected in the next view.  References
      ([useRef]) and the world outside the component are in [Env] and are
      updated at once.
    - Reading [playlist.items.length] or [playlist.items[i]] when [items] is
      undefined raises a TypeError; handlers return [Result]. *)

From Stdlib Require Import ZArith String List Bool Lia Eqdep_dec.
Import ListNotations.
Local Open Scope Z_scope.

(** ** Numbers

    The player computes with an index only by adding or subtracting an
    integer, by taking the remainder by the item count and by comparing it
    with integers.  A number is therefore kept as an integer or as an
    integer plus a fraction strictly between 0 and 1, and these operations
    leave the fraction alone.  Arithmetic is exact: the rounding of doubles
    and the sign of zero are outside the model. *)

(** [numerator / denominator], in lowest terms and below 1. *)
Record Fraction : Type := {
  numerator : positive;
  denominator : positive;
  proper : ((numerator <? denominator)%positive
            && (Pos.gcd numerator denominator =? 1)%positive) = true
}.

Inductive Number : Type :=
| Int (z : Z)                       (* the integer z *)
| Frac (z : Z) (f : Fraction).      (* z + f, no integer *)

(** [Math.floor(n)] *)
Definition whole (n : Number) : Z :=
  match n with
  | Int z => z
  | Frac z _ => z
  end.

(** [n + k] for an integer [k] *)
Definition plus (n : Number) (k : Z) : Number :=
  match n with
  | Int z => Int (z + k)
  | Frac z f => Frac (z + k) f
  end.

(** [n % m] for an integer [m] other than 0: the remainder has the sign of
    [n].  For a negative [z + f] it is [-((-z - 1) % m) - 1 + f]. *)
Definition remainder (n : Number) (m : Z) : Number :=
  match n with
  | Int z => Int (Z.rem z m)
  | Frac z f =>
      if 0 <=? z then Frac (Z.rem z m) f
      else Frac (- Z.rem (- z - 1) m - 1) f
  end.

(** [n === 0] *)
Definition isZero (n : Number) : bool :=
  match n with
  | Int z => z =? 0
  | Frac _ _ => false
  end.

Definition Fraction_eq_dec (a b : Fraction) : {a = b} + {a <> b}.
Proof.
  destruct (Pos.eq_dec (numerator a) (numerator b)) as [E1|N1];
    [|right; congruence].
  destruct (Pos.eq_dec (denominator a) (denominator b)) as [E2|N2];
    [|right; congruence].
  left. destruct a as [na da pa], b as [nb db pb]. cbn in E1, E2. subst nb db.
  f_equal. apply (UIP_dec Bool.bool_dec).
Defined.

Definition Number_eq_dec (a b : Number) : {a = b} + {a <> b}.
Proof.
  decide equality; try apply Z.eq_dec; apply Fraction_eq_dec.
Defined.

Arguments Fraction_eq_dec : simpl never.
Arguments Number_eq_dec : simpl never.

(** ** Data model *)

(** Modelled from the spec: types/playlist.ts is not among the sources.
    Section 3 gives an item its identity, a content reference, a content
    type, a dwell duration in seconds, a transition kind and a transition
    duration; [order] and [content.fileUrl] are read by the player. *)
Record PlaylistItem : Type := {
  item_id : string;
  contentId : string;
  order : Z;
  duration : Z;                  (* seconds *)
  transition : string;
  transitionDuration : Z;
  contentType : string;
  fileUrl : option string        (* item.content?.fileUrl *)
}.

(** Modelled from the spec: a playlist is its identity and the ordered
    sequence of its items (section 3); the player allows for a payload
    without [items]. *)
Record Playlist : Type := {
  playlist_id : string;
  items : option (list PlaylistItem)   (* a payload may lack the item list *)
}.

Inductive ConnectionStatus : Type :=
  connecting | connected | disconnected | error.

Inductive PlayState : Type := playing | paused.

(** What the component sends to its collaborators, in the order sent. *)
Inductive Output : Type :=
| TrackView (displayId playlistId content : string)
            (viewDuration expectedDuration : Z) (completed skipped : bool)
| StatusUpdate (status : PlayState) (index : Number)
| PreloadContent (urls : list string)
| CleanupMemory
| ConnectionStatusChange (status : ConnectionStatus).

(** The React state of one render. *)
Record View : Type := {
  playlist : Playlist;
  currentIndex : Number;
  isPlaying : bool;
  currentItem : option PlaylistItem;
  nextItem : option PlaylistItem;
  connectionStatus : ConnectionStatus
}.

(** A timeout pending in the JavaScript runtime: its handle, its delay in
    milliseconds and the render whose [moveToNextItem] it will call. *)
Record Timer : Type := {
  timerId : nat;
  delay : Z;
  closure : View
}.

(** References of the component and the world around it. *)
Record Env : Type := {
  timerRef : option nat;          (* timerRef.current *)
  viewStartTime : Z;              (* viewStartTimeRef.current *)
  hasInitialized : bool;          (* hasInitialized.current *)
  cache : option Playlist;        (* playlistCache slot of display.id *)
  timers : list Timer;            (* timeouts pending in the runtime *)
  nextTimerId : nat;              (* next handle setTimeout returns *)
  log : list Output
}.

(** A handler in progress: the state the next render will see, and the
    environment. *)
Record Run : Type := {
  next : View;
  env : Env
}.

Inductive Result (A : Type) : Type :=
| Ok (a : A)
| TypeError.
Arguments Ok {A} a.
Arguments TypeError {A}.

Definition bind {A B : Type} (m : Result A) (k : A -> Result B) : Result B :=
  match m with
  | Ok a => k a
  | TypeError => TypeError
  end.

Notation "'let*' x ':=' m 'in' k" := (bind m (fun x => k))
  (at level 10, x name, m at level 100, k at level 200).

(** *** State setters and references *)

Definition setPlaylist (p : Playlist) (r : Run) : Run :=
  {| next := {| playlist := p; currentIndex := currentIndex (next r);
                isPlaying := isPlaying (next r); currentItem := currentItem (next r);
                nextItem := nextItem (next r);
                connectionStatus := connectionStatus (next r) |};
     env := env r |}.

Definition setCurrentIndex (i : Number) (r : Run) : Run :=
  {| next := {| playlist := playlist (next r); currentIndex := i;
                isPlaying := isPlaying (next r); currentItem := currentItem (next r);
                nextItem := nextItem (next r);
                connectionStatus := connectionStatus (next r) |};
     env := env r |}.

Definition setIsPlaying (b : bool) (r : Run) : Run :=
  {| next := {| playlist := playlist (next r); currentIndex := currentIndex (next r);
                isPlaying := b; currentItem := currentItem (next r);
                nextItem := nextItem (next r);
                connectionStatus := connectionStatus (next r) |};
     env := env r |}.

Definition setCurrentItem (it : option PlaylistItem) (r : Run) : Run :=
  {| next := {| playlist := playlist (next r); currentIndex := currentIndex (next r);
                isPlaying := isPlaying (next r); currentItem := it;
                nextItem := nextItem (next r);
                connectionStatus := connectionStatus (next r) |};
     env := env r |}.

Definition setNextItem (it : option PlaylistItem) (r : Run) : Run :=
  {| next := {| playlist := playlist (next r); currentIndex := currentIndex (next r);
                isPlaying := isPlaying (next r); currentItem := currentItem (next r);
                nextItem := it;
                connectionStatus := connectionStatus (next r) |};
     env := env r |}.

Definition setConnectionStatus (c : ConnectionStatus) (r : Run) : Run :=
  {| next := {| playlist := playlist (next r); currentIndex := currentIndex (next r);
                isPlaying := isPlaying (next r); currentItem := currentItem (next r);
                nextItem := nextItem (next r);
                connectionStatus := c |};
     env := env r |}.

Definition withEnv (f : Env -> Env) (r : Run) : Run :=
  {| next := next r; env := f (env r) |}.

Definition emit (o : Output) (e : Env) : Env :=
  {| timerRef := timerRef e; viewStartTime := viewStartTime e;
     hasInitialized := hasInitialized e; cache := cache e;
     timers := timers e; nextTimerId := nextTimerId e;
     log := log e ++ [o] |}.

Definition setViewStartTime (now : Z) (e : Env) : Env :=
  {| timerRef := timerRef e; viewStartTime := now;
     hasInitialized := hasInitialized e; cache := cache e;
     timers := timers e; nextTimerId := nextTimerId e;
     log := log e |}.

Definition setHasInitialized (b : bool) (e : Env) : Env :=
  {| timerRef := timerRef e; viewStartTime := viewStartTime e;
     hasInitialized := b; cache := cache e;
     timers := timers e; nextTimerId := nextTimerId e;
     log := log e |}.

(** Modelled from the spec: lib/services/playlist-cache is not part of the
    sources at hand.  Section 4.4 gives it one slot per display with
    overwrite semantics; [cachePlaylist] fills the slot of this display. *)
Definition cachePlaylist (p : Playlist) (e : Env) : Env :=
  {| timerRef := timerRef e; viewStartTime := viewStartTime e;
     hasInitialized := hasInitialized e; cache := Some p;
     timers := timers e; nextTimerId := nextTimerId e;
     log := log e |}.

(** Modelled from the spec: [getCachedPlaylist] reads the slot of this
    display, empty until something was cached (section 4.4). *)
Definition getCachedPlaylist (e : Env) : option Playlist := cache e.

(** [clearTimeout(id)] drops the timeout from the runtime. *)
Definition cancel (t : nat) (l : list Timer) : list Timer :=
  filter (fun tm => negb (Nat.eqb (timerId tm) t)) l.

(** [if (timerRef.current) { clearTimeout(timerRef.current);
     timerRef.current = undefined; }] *)
Definition clearTimer (e : Env) : Env :=
  match timerRef e with
  | Some t =>
      {| timerRef := None; viewStartTime := viewStartTime e;
         hasInitialized := hasInitialized e; cache := cache e;
         timers := cancel t (timers e); nextTimerId := nextTimerId e;
         log := log e |}
  | None => e
  end.

(** [timerRef.current = setTimeout(() => moveToNextItem(), ms)], the
    callback being the one of render [v]. *)
Definition armTimer (ms : Z) (v : View) (e : Env) : Env :=
  {| timerRef := Some (nextTimerId e); viewStartTime := viewStartTime e;
     hasInitialized := hasInitialized e; cache := cache e;
     timers := timers e ++ [{| timerId := nextTimerId e; delay := ms; closure := v |}];
     nextTimerId := S (nextTimerId e);
     log := log e |}.

(** ** The reconciler *)

(** [x.items || []] *)
Definition itemsOrEmpty (p : Playlist) : list PlaylistItem :=
  match items p with
  | Some l => l
  | None => []
  end.

(** The test inside the loop of [playlistsEqual] (lines 93-100). *)
Definition itemDiffers (a b : PlaylistItem) : bool :=
  negb (item_id a =? item_id b)%string
  || negb (contentId a =? contentId b)%string
  || negb (order a =? order b)%Z
  || negb (duration a =? duration b)%Z
  || negb (transition a =? transition b)%string
  || negb (transitionDuration a =? transitionDuration b)%Z.

(** The loop of [playlistsEqual], entered with two arrays of one length;
    [itemsA[i]] and [itemsB[i]] are the heads at step [i]. *)
Fixpoint itemsLoop (itemsA itemsB : list PlaylistItem) : bool :=
  match itemsA, itemsB with
  | itemA :: restA, itemB :: restB =>
      if itemDiffers itemA itemB then false else itemsLoop restA restB
  | _, _ => true
  end.

Definition playlistsEqual (a b : option Playlist) : bool :=
  match a, b with
  | Some a, Some b =>
      if negb (playlist_id a =? playlist_id b)%string then false
      else
        let itemsA := itemsOrEmpty a in
        let itemsB := itemsOrEmpty b in
        if negb (Nat.eqb (length itemsA) (length itemsB)) then false
        else itemsLoop itemsA itemsB
  | _, _ => false
  end.

(** [{ ...nextPlaylist, items: nextPlaylist.items || [] }] *)
Definition normalize (nextPlaylist : Playlist) : Playlist :=
  {| playlist_id := playlist_id nextPlaylist;
     items := Some (itemsOrEmpty nextPlaylist) |}.

(** The guard of line 121: the candidate is dropped. *)
Definition unchanged (force : bool) (v : View) (e : Env) (normalizedPlaylist : Playlist) : bool :=
  negb force && hasInitialized e && playlistsEqual (Some normalizedPlaylist) (Some (playlist v)).

(** [Boolean(url)] for an optional string. *)
Definition truthy (u : option string) : option string :=
  match u with
  | Some EmptyString => None
  | other => other
  end.

Fixpoint compact (l : list (option string)) : list string :=
  match l with
  | [] => []
  | u :: rest =>
      match truthy u with
      | Some s => s :: compact rest
      | None => compact rest
      end
  end.

(** [items.slice(0, 3).map(...).filter(Boolean)] of [applyPlaylist]. *)
Definition applyPreloadUrls (l : list PlaylistItem) : list string :=
  compact (map (fun item => if (contentType item =? "youtube")%string then None
                            else fileUrl item)
               (firstn 3 l)).

(** The body of [applyPlaylist] below the guard (lines 125-154). *)
Definition install (now : Z) (normalizedPlaylist : Playlist) (r : Run) : Run :=
  let r := setPlaylist normalizedPlaylist r in
  let r := withEnv clearTimer r in
  let firstItem := nth_error (itemsOrEmpty normalizedPlaylist) 0 in
  let secondItem := nth_error (itemsOrEmpty normalizedPlaylist) 1 in
  let r := setCurrentIndex (Int 0) r in
  let r := setCurrentItem firstItem r in
  let r := setNextItem secondItem r in
  let r := withEnv (setViewStartTime now) r in
  let r := withEnv (cachePlaylist normalizedPlaylist) r in
  let preloadUrls := applyPreloadUrls (itemsOrEmpty normalizedPlaylist) in
  let r := if Nat.ltb 0 (length preloadUrls)
           then withEnv (emit (PreloadContent preloadUrls)) r else r in
  withEnv (setHasInitialized true) r.

Definition applyPlaylist (now : Z) (v : View)
    (nextPlaylist : option Playlist) (force : bool) (r : Run) : Run :=
  match nextPlaylist with
  | None => r
  | Some nextPlaylist =>
      let normalizedPlaylist := normalize nextPlaylist in
      if unchanged force v (env r) normalizedPlaylist then r
      else install now normalizedPlaylist r
  end.

(** ** The playback scheduler *)

(** [playlist.items], read for its length or one of its elements. *)
Definition heldItems (v : View) : Result (list PlaylistItem) :=
  match items (playlist v) with
  | Some l => Ok l
  | None => TypeError
  end.

(** [items[i]] for an integer [i]: undefined outside the array. *)
Definition itemAt (l : list PlaylistItem) (i : Z) : option PlaylistItem :=
  if i <? 0 then None else nth_error l (Z.to_nat i).

(** [items[n]] for a number [n]: an array has no element at a position
    that is no integer. *)
Definition itemOf (l : list PlaylistItem) (n : Number) : option PlaylistItem :=
  match n with
  | Int z => itemAt l z
  | Frac _ _ => None
  end.

Definition len (l : list PlaylistItem) : Z := Z.of_nat (length l).

Definition playState (b : bool) : PlayState := if b then playing else paused.

Definition sendStatusUpdate (s : PlayState) (i : Number) (r : Run) : Run :=
  withEnv (emit (StatusUpdate s i)) r.

(** Modelled from the spec: types/websocket.ts is not among the sources.
    Section 6 names the message kinds; the payload fields are those the
    message effect reads.  An emergency stop is addressed to all displays
    or to a list of display ids. *)
Inductive StopTarget : Type :=
| AllDisplays                       (* displayIds === 'all' *)
| DisplayIds (ids : list string).

Inductive Message : Type :=
| playlist_update (displayIds : list string) (newPlaylist : option Playlist)
| display_control (target : string) (action : string)
                  (value : option Number)      (* the number of the payload, if any *)
| emergency_stop (displayIds : StopTarget)
| other_message.

Definition includes (ids : list string) (x : string) : bool :=
  existsb (String.eqb x) ids.

Section Handlers.

(** [display.id] *)
Variable displayId : string.

(** [trackView]: up to its first [await] the routine runs at once, so the
    POST is issued in the order of the calls.  [Math.round(x)] is
    [floor (x + 1/2)]. *)
Definition trackView (now : Z) (v : View) (completed skipped : bool) (r : Run) : Run :=
  match currentItem v with
  | None => r
  | Some item =>
      let viewDuration := (now - viewStartTime (env r) + 500) / 1000 in
      withEnv (emit (TrackView displayId (playlist_id (playlist v)) (contentId item)
                               viewDuration (duration item) completed skipped)) r
  end.

Definition moveToNextItem (now : Z) (v : View) (r : Run) : Result Run :=
  let* l := heldItems v in
  if len l =? 0 then Ok r
  else if len l =? 1 then Ok (withEnv (setViewStartTime now) r)
  else
    let r := trackView now v true false r in
    let nextIndex := remainder (plus (currentIndex v) 1) (len l) in
    let r := withEnv (emit CleanupMemory) r in
    let r := setCurrentIndex nextIndex r in
    let r := setCurrentItem (itemOf l nextIndex) r in
    let r := withEnv (setViewStartTime now) r in
    let followingIndex := remainder (plus nextIndex 1) (len l) in
    let r := setNextItem (itemOf l followingIndex) r in
    let preloadUrls :=
      compact (map (fun i => match itemOf l (remainder (plus nextIndex i) (len l)) with
                             | Some item => fileUrl item
                             | None => None
                             end) [1; 2]) in
    let r := withEnv (emit (PreloadContent preloadUrls)) r in
    Ok (sendStatusUpdate (playState (isPlaying v)) nextIndex r).

(** The [previous] branch, shared by the remote command and the left arrow
    key. *)
Definition moveToPreviousItem (now : Z) (v : View) (r : Run) : Result Run :=
  let r := trackView now v false true r in
  let* l := heldItems v in
  let prevIndex := if isZero (currentIndex v) then Int (len l - 1)
                   else plus (currentIndex v) (-1) in
  let r := setCurrentIndex prevIndex r in
  let r := setCurrentItem (itemOf l prevIndex) r in
  let r := withEnv (setViewStartTime now) r in
  Ok (sendStatusUpdate (playState (isPlaying v)) prevIndex r).

Definition handleRemoteControl (now : Z) (v : View)
    (action : string) (value : option Number) (r : Run) : Result Run :=
  if (action =? "play")%string then
    Ok (sendStatusUpdate playing (currentIndex v) (setIsPlaying true r))
  else if (action =? "pause")%string then
    Ok (sendStatusUpdate paused (currentIndex v) (setIsPlaying false r))
  else if (action =? "stop")%string then
    let r := setIsPlaying false r in
    let r := setCurrentIndex (Int 0) r in
    let* l := heldItems v in
    let r := setCurrentItem (itemAt l 0) r in
    Ok (sendStatusUpdate paused (Int 0) r)
  else if (action =? "restart")%string then
    let r := setCurrentIndex (Int 0) r in
    let* l := heldItems v in
    let r := setCurrentItem (itemAt l 0) r in
    let r := setIsPlaying true r in
    Ok (sendStatusUpdate playing (Int 0) r)
  else if (action =? "next")%string then
    let r := trackView now v false true r in
    moveToNextItem now v r
  else if (action =? "previous")%string then
    moveToPreviousItem now v r
  else if (action =? "seek")%string then
    match value with
    | None => Ok r                                  (* typeof value !== 'number' *)
    | Some value =>
        (* [z + f >= 0] is [z >= 0], and [z + f < n] is [z < n] *)
        if whole value <? 0 then Ok r
        else
          let* l := heldItems v in
          if whole value <? len l then
            let r := setCurrentIndex value r in
            let r := setCurrentItem (itemOf l value) r in
            Ok (sendStatusUpdate (playState (isPlaying v)) value r)
          else Ok r
    end
  else Ok r.

(** The effect on [lastMessage] (lines 183-210). *)
Definition messageEffect (now : Z) (v : View) (lastMessage : option Message)
    (r : Run) : Result Run :=
  match lastMessage with
  | None => Ok r
  | Some (playlist_update displayIds newPlaylist) =>
      if includes displayIds displayId
      then Ok (applyPlaylist now v newPlaylist false r)
      else Ok r
  | Some (display_control target action value) =>
      if (target =? displayId)%string
      then handleRemoteControl now v action value r
      else Ok r
  | Some (emergency_stop displayIds) =>
      if match displayIds with
         | AllDisplays => true
         | DisplayIds ids => includes ids displayId
         end
      then Ok (sendStatusUpdate paused (currentIndex v) (setIsPlaying false r))
      else Ok r
  | Some other_message => Ok r
  end.

(** The effect on the [playlist] prop (lines 157-166). *)
Definition initialPlaylistEffect (now : Z) (v : View) (initialPlaylist : Playlist)
    (r : Run) : Run :=
  if negb (hasInitialized (env r)) then
    applyPlaylist now v (Some initialPlaylist) true r
  else if negb (playlistsEqual (Some initialPlaylist) (Some (playlist v))) then
    applyPlaylist now v (Some initialPlaylist) false r
  else r.

(** The effect on the channel status (lines 169-180). *)
Definition connectionEffect (v : View) (wsStatus : ConnectionStatus) (r : Run) : Run :=
  let r := setConnectionStatus wsStatus r in
  let r := withEnv (emit (ConnectionStatusChange wsStatus)) r in
  match wsStatus with
  | disconnected | error =>
      match getCachedPlaylist (env r) with
      | Some cachedPlaylist =>
          if negb (playlist_id cachedPlaylist =? playlist_id (playlist v))%string
          then setPlaylist cachedPlaylist r
          else r
      | None => r
      end
  | _ => r
  end.

(** The playback timer effect (lines 333-360).  The cleanup of its last
    run and the head of its body both clear [timerRef]. *)
Definition playbackTimerEffect (v : View) (e : Env) : Result Env :=
  let e := clearTimer e in
  match isPlaying v, currentItem v with
  | true, Some item =>
      let* l := heldItems v in
      if len l <=? 1 then Ok e
      else Ok (armTimer (duration item * 1000) v e)
  | _, _ => Ok e
  end.

(** The keys that touch the playback state (lines 377-396); F11 and Escape
    only drive the fullscreen hook. *)
Definition handleKeyPress (now : Z) (v : View) (key : string) (r : Run) : Result Run :=
  if (key =? " ")%string then
    let newState := negb (isPlaying (next r)) in
    let r := sendStatusUpdate (playState newState) (currentIndex v) r in
    Ok (setIsPlaying newState r)
  else if (key =? "ArrowRight")%string then
    let r := trackView now v false true r in
    moveToNextItem now v r
  else if (key =? "ArrowLeft")%string then
    moveToPreviousItem now v r
  else Ok r.

End Handlers.

(** ** The component as a machine

    One step is a handler, run on the render it was created in, followed by
    the render of the state it left and by the playback timer effect when
    one of its dependencies changed.  The effects on the playlist prop, on
    the channel status and on the last message take part as events of their
    own: when a render changes one of their dependencies ([playlist] for
    the prop effect, [playlist.id] for the status effect, [currentIndex]
    and [applyPlaylist] for the message effect), the run they are due is
    the event [InitialEffect], [SocketStatus] or [SocketMessage] given
    again.  A step is therefore one run of one handler, not everything a
    command sets off, and it does not show the moment between a handler and
    the render that follows, in which the timeout of the old render is
    still pending: what is said about that moment is said on the handlers
    and on [commit] themselves. *)

Record Player : Type := {
  initialPlaylist : Playlist;     (* the playlist prop *)
  view : View;
  world : Env
}.

Inductive Event : Type :=
| PlaylistProp (p : Playlist)         (* the page passes a playlist *)
| InitialEffect                       (* the prop effect runs again *)
| SocketStatus (wsStatus : ConnectionStatus)
| SocketMessage (lastMessage : option Message)
| TimerFired (t : nat)                (* the runtime delivers timeout t *)
| KeyDown (key : string)
| MediaEnded                          (* onEnded of a video renderer *)
| CacheCleared.                       (* the page removes the cached playlist *)

(** What the dependency array of the timer effect,
    [[currentItem, isPlaying, moveToNextItem, playlist.items.length]],
    depends on: [moveToNextItem] is rebuilt when [currentIndex],
    [playlist.items], [isPlaying] or [trackView] change, and [trackView]
    when [currentItem] or [playlist.id] change.  [sendStatusUpdate] and
    [optimizer] come from hooks that keep them across renders, and
    [display.id] is fixed.  Objects are compared by their value. *)
Definition Deps : Type :=
  (option PlaylistItem * bool * Number * option (list PlaylistItem) * string)%type.

Definition timerDeps (v : View) : Deps :=
  (currentItem v, isPlaying v, currentIndex v, items (playlist v),
   playlist_id (playlist v)).

Definition PlaylistItem_eq_dec (a b : PlaylistItem) : {a = b} + {a <> b}.
Proof.
  decide equality; try apply string_dec; try apply Z.eq_dec.
  decide equality; apply string_dec.
Defined.

Definition Deps_eq_dec (a b : Deps) : {a = b} + {a <> b}.
Proof.
  repeat decide equality; try apply string_dec; try apply Z.eq_dec;
    apply Fraction_eq_dec.
Defined.

Arguments PlaylistItem_eq_dec : simpl never.
Arguments Deps_eq_dec : simpl never.

Definition clearCache (e : Env) : Env :=
  {| timerRef := timerRef e; viewStartTime := viewStartTime e;
     hasInitialized := hasInitialized e; cache := None;
     timers := timers e; nextTimerId := nextTimerId e;
     log := log e |}.

(** The runtime takes a timeout off its queue when it delivers it. *)
Definition deliver (t : nat) (e : Env) : Env :=
  {| timerRef := timerRef e; viewStartTime := viewStartTime e;
     hasInitialized := hasInitialized e; cache := cache e;
     timers := cancel t (timers e); nextTimerId := nextTimerId e;
     log := log e |}.

Definition pending (t : nat) (e : Env) : option Timer :=
  find (fun tm => Nat.eqb (timerId tm) t) (timers e).

Section Machine.

Variable displayId : string.

(** Render the state a handler left and run the timer effect, cleanup
    first, if its dependencies changed.  Rendering evaluates
    [playlist.items.length].  The other effects are not run here. *)
Definition commit (prop : Playlist) (v : View) (r : Run) : Result Player :=
  let* _ := heldItems (next r) in
  let* e := if Deps_eq_dec (timerDeps v) (timerDeps (next r))
            then Ok (env r)
            else playbackTimerEffect (next r) (env r) in
  Ok {| initialPlaylist := prop; view := next r; world := e |}.

Definition step (now : Z) (ev : Event) (p : Player) : Result Player :=
  let v := view p in
  let r := {| next := v; env := world p |} in
  match ev with
  | PlaylistProp q =>
      commit q v (initialPlaylistEffect now v q r)
  | InitialEffect =>
      commit (initialPlaylist p) v (initialPlaylistEffect now v (initialPlaylist p) r)
  | SocketStatus wsStatus =>
      commit (initialPlaylist p) v (connectionEffect v wsStatus r)
  | SocketMessage lastMessage =>
      let* r := messageEffect displayId now v lastMessage r in
      commit (initialPlaylist p) v r
  | TimerFired t =>
      (* the runtime only delivers a timeout that is still in its queue *)
      match pending t (world p) with
      | Some tm =>
          let* r := moveToNextItem displayId now (closure tm) (withEnv (deliver t) r) in
          commit (initialPlaylist p) v r
      | None => Ok p
      end
  | KeyDown key =>
      let* r := handleKeyPress displayId now v key r in
      commit (initialPlaylist p) v r
  | MediaEnded =>
      let* r := moveToNextItem displayId now v r in
      commit (initialPlaylist p) v r
  | CacheCleared =>
      Ok {| initialPlaylist := initialPlaylist p; view := v;
            world := clearCache (world p) |}
  end.

(** The first render and the effects of the mount, in source order: the
    prop effect, the status effect, the message effect (no message yet) and
    the timer effect; then the render of the state they set. *)
Definition mount (now : Z) (prop : Playlist) (wsStatus : ConnectionStatus)
    (stored : option Playlist) : Result Player :=
  let v0 := {| playlist := prop; currentIndex := Int 0; isPlaying := true;
               currentItem := nth_error (itemsOrEmpty prop) 0;
               nextItem := nth_error (itemsOrEmpty prop) 1;
               connectionStatus := connecting |} in
  let e0 := {| timerRef := None; viewStartTime := now; hasInitialized := false;
               cache := stored; timers := []; nextTimerId := 1; log := [] |} in
  let* _ := heldItems v0 in
  let r := initialPlaylistEffect now v0 prop {| next := v0; env := e0 |} in
  let r := connectionEffect v0 wsStatus r in
  let* e := playbackTimerEffect v0 (env r) in
  commit prop v0 {| next := next r; env := e |}.

Fixpoint run (evs : list (Z * Event)) (p : Player) : Result Player :=
  match evs with
  | [] => Ok p
  | (now, ev) :: rest => let* p' := step now ev p in run rest p'
  end.

Inductive reachable : Player -> Prop :=
| reach_mount : forall now prop wsStatus stored p,
    mount now prop wsStatus stored = Ok p -> reachable p
| reach_step : forall now ev p p',
    reachable p -> step now ev p = Ok p' -> reachable p'.

End Machine.

(** ** The display page (app/display/[url]/page.tsx) *)

(** The state and the polling routine of [DisplayViewerPage]. *)
Module Page.

(** The JSON of [/api/display/<url>], as far as [fetchDisplay] reads it. *)
Record Display : Type := {
  display_id : string;
  assignedPlaylist : option Playlist
}.

Record State : Type := {
  display : option Display;
  playlist : option Playlist;
  loading : bool;
  error : option string
}.

Inductive Response : Type :=
| Failed                       (* fetch rejected or response.ok is false *)
| Json (data : Display).

Inductive Effect : Type :=
| RemoveItem (key : string)    (* localStorage.removeItem(key) *)
| Reload (afterMs : Z).        (* setTimeout(() => window.location.reload(), ms) *)

(** [p?.items?.length] *)
Definition itemsLength (p : Playlist) : option nat :=
  option_map (@length PlaylistItem) (items p).

Definition option_nat_eqb (a b : option nat) : bool :=
  match a, b with
  | Some x, Some y => Nat.eqb x y
  | None, None => true
  | _, _ => false
  end.

(** Lines 88-92. *)
Definition playlistChanged (held : option Playlist) (data : Display) : bool :=
  match assignedPlaylist data, held with
  | Some fetched, Some held =>
      negb (playlist_id held =? playlist_id fetched)%string
      || negb (option_nat_eqb (itemsLength held) (itemsLength fetched))
  | _, _ => false
  end.

Definition cacheKey (d : option Display) : string :=
  ("isodisplay_playlist_" ++
   match d with
   | Some d => display_id d
   | None => "undefined"
   end)%string.

Definition fetchDisplay (isPolling : bool) (response : Response) (s : State)
    : State * list Effect :=
  match response with
  | Failed =>
      ({| display := display s; playlist := playlist s; loading := false;
          error := Some "Failed to load display"%string |}, [])
  | Json data =>
      if isPolling && playlistChanged (playlist s) data then
        (s, [RemoveItem (cacheKey (display s)); Reload 100])
      else
        ({| display := Some data; playlist := assignedPlaylist data;
            loading := false; error := None |}, [])
  end.

End Page.

(** ** Vocabulary of the properties *)

(** The fields of an item that the reconciler compares. *)
Definition itemKey (item : PlaylistItem) : string * string * Z * Z * string * Z :=
  (item_id item, contentId item, order item, duration item, transition item,
   transitionDuration item).

(** The structure of a playlist: its id and the keys of its items in order. *)
Definition playlistKey (p : Playlist) : string * list (string * string * Z * Z * string * Z) :=
  (playlist_id p, map itemKey (itemsOrEmpty p)).

(** Playlist id, item count or some item at one position differ. *)
Definition StructurallyDifferent (a b : Playlist) : Prop :=
  playlist_id a <> playlist_id b
  \/ length (itemsOrEmpty a) <> length (itemsOrEmpty b)
  \/ exists i x y, nth_error (itemsOrEmpty a) i = Some x
                   /\ nth_error (itemsOrEmpty b) i = Some y
                   /\ itemKey x <> itemKey y.

(** The handle [t] is behind every handle the runtime holds or will give. *)
Definition Retired (t : nat) (e : Env) : Prop :=
  (t < nextTimerId e)%nat /\ Forall (fun tm => (t < timerId tm)%nat) (timers e).

(** The timer discipline: the reference and the queue of the runtime name
    the same single timeout, the last one created, made by the current
    render; and a timeout is pending exactly when the player plays a
    playlist of several items and has a current item. *)
Definition TimerInv (v : View) (l : list PlaylistItem) (e : Env) : Prop :=
  match timerRef e with
  | None =>
      timers e = []
      /\ (isPlaying v = false \/ currentItem v = None \/ len l <= 1)
  | Some t =>
      nextTimerId e = S t
      /\ isPlaying v = true /\ currentItem v <> None /\ 1 < len l
      /\ exists tm, timers e = [tm] /\ timerId tm = t
                    /\ timerDeps (closure tm) = timerDeps v
  end.

(** An index that is an integer is a position of the list, unless the list
    is empty. *)
Definition InRange (l : list PlaylistItem) (n : Number) : Prop :=
  forall z, n = Int z -> l <> [] -> 0 <= z < len l.

Definition Inv (p : Player) : Prop :=
  exists l,
    items (playlist (view p)) = Some l
    /\ currentItem (view p) = itemOf l (currentIndex (view p))
    /\ InRange l (currentIndex (view p))
    /\ hasInitialized (world p) = true
    /\ (cache (world p) = None \/ cache (world p) = Some (playlist (view p)))
    /\ TimerInv (view p) l (world p).

(** A handler that leaves the timer, the initialisation flag and the cache
    alone; it may log and reset the view start time. *)
Definition EnvKept (e e' : Env) : Prop :=
  timerRef e' = timerRef e /\ timers e' = timers e
  /\ nextTimerId e' = nextTimerId e
  /\ hasInitialized e' = hasInitialized e /\ cache e' = cache e.

(** From [e] to [e'] handles only grow: a timeout of [e'] was already
    pending in [e] or carries a handle [e] had not given out. *)
Definition Grows (e e' : Env) : Prop :=
  (nextTimerId e <= nextTimerId e')%nat
  /\ forall tm, In tm (timers e') ->
                In tm (timers e) \/ (nextTimerId e <= timerId tm)%nat.

(** The runtime holds at most the timeout the reference names. *)
Definition Sole (e : Env) : Prop :=
  match timerRef e with
  | None => timers e = []
  | Some t =>
      nextTimerId e = S t
      /\ (timers e = [] \/ exists tm, timers e = [tm] /\ timerId tm = t)
  end.

(** What a playback handler may do to a run over the item list [l]: keep
    the playlist and the play state aside, and either keep index and
    current item or set them to a position of [l] and the item there. *)
Definition Moved (l : list PlaylistItem) (r r' : Run) : Prop :=
  EnvKept (env r) (env r')
  /\ playlist (next r') = playlist (next r)
  /\ ((currentIndex (next r') = currentIndex (next r)
       /\ currentItem (next r') = currentItem (next r))
      \/ (currentItem (next r') = itemOf l (currentIndex (next r'))
          /\ InRange l (currentIndex (next r')))).

(** ** Sample data *)

Definition sampleItem (name : string) (position seconds : Z) : PlaylistItem :=
  {| item_id := name; contentId := ("content-" ++ name)%string;
     order := position; duration := seconds; transition := "fade";
     transitionDuration := 1; contentType := "image";
     fileUrl := Some ("/uploads/" ++ name ++ ".png")%string |}.

Definition lobby : Playlist :=
  {| playlist_id := "lobby";
     items := Some [sampleItem "a" 0 5; sampleItem "b" 1 5; sampleItem "c" 2 5] |}.

Definition poster : Playlist :=
  {| playlist_id := "poster"; items := Some [sampleItem "a" 0 5] |}.

(** [lobby] with the file of its first item replaced: same structure. *)
Definition lobbyRefreshed : Playlist :=
  {| playlist_id := "lobby";
     items := Some [{| item_id := "a"; contentId := "content-a"; order := 0;
                       duration := 5; transition := "fade"; transitionDuration := 1;
                       contentType := "image";
                       fileUrl := Some "/uploads/a-v2.png"%string |};
                    sampleItem "b" 1 5; sampleItem "c" 2 5] |}.

Definition blank : Player :=
  {| initialPlaylist := lobby;
     view := {| playlist := lobby; currentIndex := Int 0; isPlaying := false;
                currentItem := None; nextItem := None;
                connectionStatus := connecting |};
     world := {| timerRef := None; viewStartTime := 0; hasInitialized := false;
                 cache := None; timers := []; nextTimerId := 1; log := [] |} |}.

Definition orBlank (r : Result Player) : Player :=
  match r with
  | Ok p => p
  | TypeError => blank
  end.

(** The player of display "d1" just after it mounted with [lobby]. *)
Definition lobbyPlayer : Player := orBlank (mount 1000 lobby connecting None).


Definition runOf (p : Player) : Run := {| next := view p; env := world p |}.

(** The page of display "d1" showing [lobby]. *)
Definition lobbyPage : Page.State :=
  {| Page.display :=
       Some {| Page.display_id := "d1";
               Page.assignedPlaylist := Some lobby |};
     Page.playlist := Some lobby;
     Page.loading := false;
     Page.error := None |}.


(** [lobby] cut to its first two items. *)
Definition lobbyShort : Playlist :=
  {| playlist_id := "lobby"; items := Some [sampleItem "a" 0 5; sampleItem "b" 1 5] |}.

(** ** The display page, continued: socket callbacks and the screen *)

Module PageView.

(** A playlist field of a socket payload: missing, [null] or a playlist. *)
Inductive Assigned : Type :=
| Absent
| Null
| Given (p : Playlist).

Definition assignedOption (a : Assigned) : option Playlist :=
  match a with
  | Given p => Some p
  | _ => None
  end.

(** The display object of a socket payload, as far as the page reads it. *)
Record DisplayUpdate : Type := {
  update_id : string;
  update_playlist : Assigned;          (* updatedDisplay.assignedPlaylist *)
  refresh : bool
}.

Definition asDisplay (u : DisplayUpdate) : Page.Display :=
  {| Page.display_id := update_id u;
     Page.assignedPlaylist := assignedOption (update_playlist u) |}.

Definition nonEmpty (s : string) : bool :=
  match s with
  | EmptyString => false
  | _ => true
  end.

(** [if (display?.id) localStorage.removeItem(`isodisplay_playlist_${display.id}`)] *)
Definition removeCached (s : Page.State) : list Page.Effect :=
  match Page.display s with
  | Some d =>
      if nonEmpty (Page.display_id d)
      then [Page.RemoveItem ("isodisplay_playlist_" ++ Page.display_id d)%string]
      else []
  | None => []
  end.

(** [onPlaylistUpdate] (lines 151-166); the zero-delay timeout only calls
    setters, so it is taken together with the callback. *)
Definition onPlaylistUpdate (updatedPlaylist : Assigned) (s : Page.State)
    : Page.State * list Page.Effect :=
  (match updatedPlaylist with
   | Absent => s
   | _ => {| Page.display := Page.display s;
             Page.playlist := assignedOption updatedPlaylist;
             Page.loading := false;
             Page.error := None |}
   end,
   removeCached s).

(** [onDisplayUpdate] (lines 167-201). *)
Definition onDisplayUpdate (updatedDisplay : option DisplayUpdate) (s : Page.State)
    : Page.State * list Page.Effect :=
  ({| Page.display := option_map asDisplay updatedDisplay;
      Page.playlist :=
        match updatedDisplay with
        | Some u => assignedOption (update_playlist u)
        | None => None
        end;
      Page.loading := false;
      Page.error :=
        match updatedDisplay with
        | Some u =>
            match update_playlist u with
            | Given _ => None
            | Null => None
            | Absent => Page.error s
            end
        | None => Some "Display not found"%string
        end |},
   removeCached s).

(** [onInitialData] (lines 208-220). *)
Definition onInitialData (display : option DisplayUpdate) (playlist : Assigned)
    (s : Page.State) : Page.State :=
  let s1 :=
    match display with
    | Some u => {| Page.display := Some (asDisplay u); Page.playlist := Page.playlist s;
                   Page.loading := false; Page.error := Page.error s |}
    | None => s
    end in
  match playlist with
  | Absent => s1
  | _ => {| Page.display := Page.display s1;
            Page.playlist := assignedOption playlist;
            Page.loading := Page.loading s1;
            Page.error := None |}
  end.

(** What the page returns (lines 241-299). *)
Inductive Screen : Type :=
| LoadingScreen
| NetworkError (message : string)
| NoContent
| PlayerScreen (key : string) (display : Page.Display) (playlist : Playlist).

(** [`player-${display.id}-${playlist?.id || 'no-playlist'}`] *)
Definition playerKey (displayId playlistId : string) : string :=
  ("player-" ++ displayId ++ "-"
   ++ (if nonEmpty playlistId then playlistId else "no-playlist"))%string.

Definition screen (s : Page.State) : Screen :=
  if Page.loading s then LoadingScreen
  else
    match truthy (Page.error s) with
    | Some message => NetworkError message
    | None =>
        match Page.playlist s, Page.display s with
        | Some playlist, Some display =>
            PlayerScreen (playerKey (Page.display_id display) (playlist_id playlist))
                         display playlist
        | _, _ => NoContent
        end
    end.

End PageView.

(** ** Clock settings of the page (lines 15-53) *)

Module Clock.

(** A value of unknown type ([settings: any]); an object is the list of its
    own properties. *)
#[warnings="-register-all"]
Inductive JsValue : Type :=
| JsUndefined
| JsNull
| JsBool (b : bool)
| JsNumber (n : Z)
| JsString (s : string)
| JsObject (fields : list (string * JsValue)).

Fixpoint lookup (fields : list (string * JsValue)) (key : string) : JsValue :=
  match fields with
  | [] => JsUndefined
  | (k, v) :: rest => if (k =? key)%string then v else lookup rest key
  end.

(** [value.key] for a value that is an object. *)
Definition get (value : JsValue) (key : string) : JsValue :=
  match value with
  | JsObject fields => lookup fields key
  | _ => JsUndefined
  end.

Definition truthyValue (v : JsValue) : bool :=
  match v with
  | JsUndefined | JsNull => false
  | JsBool b => b
  | JsNumber n => negb (n =? 0)
  | JsString s => PageView.nonEmpty s
  | JsObject _ => true
  end.

(** [a || b] *)
Definition orElse (a b : JsValue) : JsValue := if truthyValue a then a else b.

(** [typeof v === 'number' ? v : d] *)
Definition numberOr (v : JsValue) (d : Z) : Z :=
  match v with
  | JsNumber n => n
  | _ => d
  end.

Definition isTrue (v : JsValue) : bool :=
  match v with
  | JsBool true => true
  | _ => false
  end.

Definition isFalse (v : JsValue) : bool :=
  match v with
  | JsBool false => true
  | _ => false
  end.

Record ClockConfig : Type := {
  enabled : bool;
  position : JsValue;
  size : JsValue;
  format : JsValue;
  showSeconds : bool;
  showDate : bool;
  opacity : Z;
  color : JsValue;
  backgroundColor : JsValue;
  fontFamily : JsValue;
  offsetX : Z;
  offsetY : Z
}.

Definition DEFAULT_CLOCK_SETTINGS : ClockConfig :=
  {| enabled := false;
     position := JsString "top-right";
     size := JsString "medium";
     format := JsString "12h";
     showSeconds := true;
     showDate := false;
     opacity := 80;
     color := JsString "#FFFFFF";
     backgroundColor := JsString "#000000";
     fontFamily := JsString "digital";
     offsetX := 20;
     offsetY := 20 |}.

Definition getValidClockSettings (settings : JsValue) : option ClockConfig :=
  match settings with
  | JsObject _ =>
      let validSettings :=
        {| enabled := isTrue (get settings "enabled");
           position := orElse (get settings "position") (position DEFAULT_CLOCK_SETTINGS);
           size := orElse (get settings "size") (size DEFAULT_CLOCK_SETTINGS);
           format := orElse (get settings "format") (format DEFAULT_CLOCK_SETTINGS);
           showSeconds := negb (isFalse (get settings "showSeconds"));
           showDate := isTrue (get settings "showDate");
           opacity := numberOr (get settings "opacity") (opacity DEFAULT_CLOCK_SETTINGS);
           color := orElse (get settings "color") (color DEFAULT_CLOCK_SETTINGS);
           backgroundColor := orElse (get settings "backgroundColor")
                                     (backgroundColor DEFAULT_CLOCK_SETTINGS);
           fontFamily := orElse (get settings "fontFamily")
                                (fontFamily DEFAULT_CLOCK_SETTINGS);
           offsetX := numberOr (get settings "offsetX") (offsetX DEFAULT_CLOCK_SETTINGS);
           offsetY := numberOr (get settings "offsetY") (offsetY DEFAULT_CLOCK_SETTINGS) |} in
      if enabled validSettings then Some validSettings else None
  | _ => None
  end.

(** A configuration as the object the page would be handed again. *)
Definition asSettings (c : ClockConfig) : JsValue :=
  JsObject [("enabled"%string, JsBool (enabled c));
            ("position"%string, position c);
            ("size"%string, size c);
            ("format"%string, format c);
            ("showSeconds"%string, JsBool (showSeconds c));
            ("showDate"%string, JsBool (showDate c));
            ("opacity"%string, JsNumber (opacity c));
            ("color"%string, color c);
            ("backgroundColor"%string, backgroundColor c);
            ("fontFamily"%string, fontFamily c);
            ("offsetX"%string, JsNumber (offsetX c));
            ("offsetY"%string, JsNumber (offsetY c))].

End Clock.

(** ** The image cache of the image renderer (lines 16-54) *)

Module ImageCache.

(** The keys of the two module-level maps, and the images the browser is
    still loading. *)
Record Store : Type := {
  imageCache : list string;
  loadingPromises : list string;
  inFlight : list string
}.

Definition has (m : list string) (url : string) : bool := existsb (String.eqb url) m.

(** [Map.set]: a map has each key once. *)
Definition set (m : list string) (url : string) : list string :=
  if has m url then m else m ++ [url].

(** [Map.delete] *)
Definition delete (m : list string) (url : string) : list string :=
  filter (fun k => negb (k =? url)%string) m.

(** How [preloadImage] answers. *)
Inductive Answer : Type :=
| FromCache          (* Promise.resolve of the cached image *)
| Joined             (* the promise of the load under way *)
| Started.           (* a new image element and a new promise *)

Definition preloadImage (url : string) (st : Store) : Answer * Store :=
  if has (imageCache st) url then (FromCache, st)
  else if has (loadingPromises st) url then (Joined, st)
  else (Started,
        {| imageCache := imageCache st;
           loadingPromises := set (loadingPromises st) url;
           inFlight := url :: inFlight st |}).

Fixpoint removeOne (url : string) (l : list string) : list string :=
  match l with
  | [] => []
  | k :: rest => if (k =? url)%string then rest else k :: removeOne url rest
  end.

(** [img.onload] of a load of [url]. *)
Definition onload (url : string) (st : Store) : Store :=
  {| imageCache := set (imageCache st) url;
     loadingPromises := delete (loadingPromises st) url;
     inFlight := removeOne url (inFlight st) |}.

(** [img.onerror] of a load of [url]. *)
Definition onerror (url : string) (st : Store) : Store :=
  {| imageCache := imageCache st;
     loadingPromises := delete (loadingPromises st) url;
     inFlight := removeOne url (inFlight st) |}.

Inductive Event : Type :=
| Preload (url : string)
| Loaded (url : string)
| Errored (url : string).

(** The browser only reports an image it is loading. *)
Definition step (ev : Event) (st : Store) : option Store :=
  match ev with
  | Preload url => Some (snd (preloadImage url st))
  | Loaded url => if has (inFlight st) url then Some (onload url st) else None
  | Errored url => if has (inFlight st) url then Some (onerror url st) else None
  end.

Fixpoint run (evs : list Event) (st : Store) : option Store :=
  match evs with
  | [] => Some st
  | ev :: rest =>
      match step ev st with
      | Some st' => run rest st'
      | None => None
      end
  end.

Definition empty : Store := {| imageCache := []; loadingPromises := []; inFlight := [] |}.

(** Loads of [url] started, and loads of [url] that failed, in a trace. *)
Fixpoint started (url : string) (evs : list Event) (st : Store) : nat :=
  match evs with
  | [] => 0
  | ev :: rest =>
      match step ev st with
      | Some st' =>
          (match ev with
           | Preload u =>
               if (u =? url)%string
               then match fst (preloadImage u st) with Started => 1 | _ => 0 end
               else 0
           | _ => 0
           end + started url rest st')%nat
      | None => 0
      end
  end.

Fixpoint failures (url : string) (evs : list Event) : nat :=
  match evs with
  | [] => 0
  | Errored u :: rest => ((if (u =? url)%string then 1 else 0) + failures url rest)%nat
  | _ :: rest => failures url rest
  end.

(** What the two maps and the browser agree on: no URL is loading twice,
    the URLs that are loading are those with a stored promise, and no
    cached URL is loading. *)
Definition Tidy (st : Store) : Prop :=
  NoDup (inFlight st)
  /\ (forall url, In url (inFlight st) <-> In url (loadingPromises st))
  /\ (forall url, In url (imageCache st) -> ~ In url (inFlight st)).

(** One when [url] is cached or loading, zero otherwise. *)
Definition settled (url : string) (st : Store) : nat :=
  if has (imageCache st) url || has (inFlight st) url then 1%nat else 0%nat.

End ImageCache.

(** ** Vocabulary of the further properties *)

(** A timeout made by a render that had a current item, with the dwell
    time of that item in milliseconds. *)
Definition WellArmed (tm : Timer) : Prop :=
  exists item, currentItem (closure tm) = Some item
               /\ delay tm = duration item * 1000.

(** The position after [i] and the position before [i] among [n] positions,
    going round. *)
Definition following (i n : Z) : Z := if i + 1 =? n then 0 else i + 1.

Definition preceding (i n : Z) : Z := if i =? 0 then n - 1 else i - 1.

(** The view after [moveToNextItem] over the item list [l], for a view at
    the integer index [i]: untouched for at most one item, else one
    position further, going round at the end, with the item after the new
    one as the next item. *)
Definition advanced (l : list PlaylistItem) (i : Z) (v : View) : View :=
  if len l <=? 1 then v
  else
    {| playlist := playlist v; currentIndex := Int (following i (len l));
       isPlaying := isPlaying v;
       currentItem := itemAt l (following i (len l));
       nextItem := itemAt l (following (following i (len l)) (len l));
       connectionStatus := connectionStatus v |}.

(** The view after the [previous] branch, for a view at the integer index
    [i]: one position back, going round at the start; the next item is left
    as it was. *)
Definition retreated (l : list PlaylistItem) (i : Z) (v : View) : View :=
  {| playlist := playlist v; currentIndex := Int (preceding i (len l));
     isPlaying := isPlaying v;
     currentItem := itemAt l (preceding i (len l)); nextItem := nextItem v;
     connectionStatus := connectionStatus v |}.

(** The view with another play state, index and current item. *)
Definition placedAt (l : list PlaylistItem) (i : Z) (playing : bool) (v : View) : View :=
  {| playlist := playlist v; currentIndex := Int i; isPlaying := playing;
     currentItem := itemAt l i; nextItem := nextItem v;
     connectionStatus := connectionStatus v |}.

(** The remote command [action] for display [displayId]. *)
Definition remote (displayId action : string) (value : option Number) : Event :=
  SocketMessage (Some (display_control displayId action value)).

(** The control message behind it. *)
Definition control (displayId action : string) (value : option Number) : option Message :=
  Some (display_control displayId action value).

(** One half, and the position halfway between the second and the third
    item. *)
Definition half : Fraction := {| numerator := 1; denominator := 2; proper := eq_refl |}.

Definition oneAndAHalf : Number := Frac 1 half.

(** The player of [lobby] after a seek to that position. *)
Definition betweenPlayer : Player :=
  orBlank (step "d1" 2000 (remote "d1" "seek" (Some oneAndAHalf)) lobbyPlayer).

(** A playlist without items, and its player just after the mount. *)
Definition vacant : Playlist := {| playlist_id := "vacant"; items := Some [] |}.

Definition vacantPlayer : Player := orBlank (mount 1000 vacant connecting None).

(** * Properties *)

(** ** The reconciler decides on structure *)

Lemma itemDiffers_false (a b : PlaylistItem) :
  itemDiffers a b = false <-> itemKey a = itemKey b.
Proof.
  unfold itemDiffers, itemKey. split.
  - intros H.
    repeat (apply orb_false_elim in H; destruct H as [H ?]).
    repeat match goal with
           | E : negb _ = false |- _ => apply negb_false_iff in E
           end.
    repeat match goal with
           | E : (_ =? _)%string = true |- _ => apply String.eqb_eq in E
           | E : (_ =? _)%Z = true |- _ => apply Z.eqb_eq in E
           end.
    congruence.
  - intros H. injection H as -> -> -> -> -> ->.
    now rewrite !String.eqb_refl, !Z.eqb_refl.
Qed.

Lemma itemDiffers_true (a b : PlaylistItem) :
  itemDiffers a b = true <-> itemKey a <> itemKey b.
Proof.
  rewrite <- itemDiffers_false. destruct (itemDiffers a b); split; congruence.
Qed.

Lemma itemsLoop_true (la lb : list PlaylistItem) :
  length la = length lb ->
  (itemsLoop la lb = true <-> map itemKey la = map itemKey lb).
Proof.
  revert lb. induction la as [|a la IH]; destruct lb as [|b lb]; simpl;
    try discriminate; intros Hlen.
  - tauto.
  - injection Hlen as Hlen. specialize (IH lb Hlen).
    destruct (itemDiffers a b) eqn:D.
    + apply itemDiffers_true in D. split; [discriminate | congruence].
    + apply itemDiffers_false in D. rewrite IH. split; congruence.
Qed.

Lemma itemsLoop_false (la lb : list PlaylistItem) :
  itemsLoop la lb = false <->
  exists i x y, nth_error la i = Some x /\ nth_error lb i = Some y
                /\ itemKey x <> itemKey y.
Proof.
  revert lb. induction la as [|a la IH]; intros lb.
  - simpl. split; [discriminate|]. intros (i & x & y & H & _).
    destruct i; discriminate.
  - destruct lb as [|b lb]; simpl.
    + split; [discriminate|]. intros (i & x & y & _ & H & _).
      destruct i; discriminate.
    + destruct (itemDiffers a b) eqn:D.
      * apply itemDiffers_true in D. split; [|reflexivity].
        intros _. exists 0%nat, a, b. auto.
      * apply itemDiffers_false in D. rewrite IH. split.
        -- intros (i & x & y & H). exists (S i), x, y. exact H.
        -- intros (i & x & y & Ha & Hb & Hk). destruct i as [|i].
           ++ simpl in Ha, Hb. congruence.
           ++ exists i, x, y. auto.
Qed.

Lemma playlistsEqual_true (a b : Playlist) :
  playlistsEqual (Some a) (Some b) = true <-> playlistKey a = playlistKey b.
Proof.
  unfold playlistsEqual, playlistKey.
  destruct (String.eqb_spec (playlist_id a) (playlist_id b)) as [E|E]; simpl.
  - destruct (Nat.eqb_spec (length (itemsOrEmpty a)) (length (itemsOrEmpty b)))
      as [L|L]; simpl.
    + rewrite (itemsLoop_true _ _ L). split; congruence.
    + split; [discriminate|]. intros H. exfalso. apply L.
      injection H as _ H. apply (f_equal (@length _)) in H.
      now rewrite !length_map in H.
  - split; [discriminate | congruence].
Qed.

Lemma playlistsEqual_false (a b : Playlist) :
  playlistsEqual (Some a) (Some b) = false <-> StructurallyDifferent a b.
Proof.
  unfold playlistsEqual, StructurallyDifferent.
  destruct (String.eqb_spec (playlist_id a) (playlist_id b)) as [E|E]; simpl.
  - destruct (Nat.eqb_spec (length (itemsOrEmpty a)) (length (itemsOrEmpty b)))
      as [L|L]; simpl.
    + rewrite itemsLoop_false. split; [auto|].
      intros [H|[H|H]]; [contradiction | contradiction | exact H].
    + split; auto.
  - split; auto.
Qed.

Lemma StructurallyDifferent_key (a b : Playlist) :
  StructurallyDifferent a b <-> playlistKey a <> playlistKey b.
Proof.
  rewrite <- playlistsEqual_false, <- playlistsEqual_true.
  destruct (playlistsEqual (Some a) (Some b)); split; congruence.
Qed.

Lemma itemsOrEmpty_normalize (c : Playlist) :
  itemsOrEmpty (normalize c) = itemsOrEmpty c.
Proof. reflexivity. Qed.

Lemma playlistKey_normalize (c : Playlist) : playlistKey (normalize c) = playlistKey c.
Proof. reflexivity. Qed.

Lemma normalize_present (c : Playlist) (l : list PlaylistItem) :
  items c = Some l -> normalize c = c.
Proof.
  destruct c as [i its]. unfold normalize, itemsOrEmpty. simpl.
  intros ->. reflexivity.
Qed.

Lemma unchanged_true (force : bool) (v : View) (e : Env) (c : Playlist) :
  unchanged force v e (normalize c) = true <->
  force = false /\ hasInitialized e = true /\ playlistKey c = playlistKey (playlist v).
Proof.
  unfold unchanged. rewrite !andb_true_iff, negb_true_iff, playlistsEqual_true,
    playlistKey_normalize. tauto.
Qed.

Lemma unchanged_false (force : bool) (v : View) (e : Env) (c : Playlist) :
  unchanged force v e (normalize c) = false <->
  force = true \/ hasInitialized e = false \/ StructurallyDifferent c (playlist v).
Proof.
  rewrite StructurallyDifferent_key.
  pose proof (unchanged_true force v e c) as H.
  destruct (unchanged force v e (normalize c)).
  - split; [discriminate|]. destruct H as [H _]. specialize (H eq_refl).
    destruct H as (-> & -> & K). intros [?|[?|?]]; congruence.
  - split; [intros _|reflexivity].
    destruct force; [now left|]. destruct (hasInitialized e); [|now right; left].
    right; right. intros K. destruct H as [_ H]. discriminate H. auto.
Qed.

Lemma commit_same (prop : Playlist) (v : View) (e : Env) (l : list PlaylistItem) :
  items (playlist v) = Some l ->
  commit prop v {| next := v; env := e |}
  = Ok {| initialPlaylist := prop; view := v; world := e |}.
Proof.
  intros Hl. unfold commit, heldItems. cbn [next env]. rewrite Hl. cbn [bind].
  destruct (Deps_eq_dec (timerDeps v) (timerDeps v)) as [_|N];
    [reflexivity | now destruct N].
Qed.

Lemma player_eta (p : Player) :
  {| initialPlaylist := initialPlaylist p; view := view p; world := world p |} = p.
Proof. now destruct p. Qed.

(** C1, as the code has it: a null (or undefined) candidate is dropped by
    the guard at the head of [applyPlaylist]; the run is returned as it was,
    whatever the force flag, also when the candidate arrives in a
    [playlist_update] message. *)
Theorem null_candidate_is_ignored (displayId : string) (now : Z) (v : View)
    (force : bool) (ids : list string) (r : Run) :
  applyPlaylist now v None force r = r
  /\ messageEffect displayId now v (Some (playlist_update ids None)) r = Ok r.
Proof.
  split; [reflexivity|]. simpl. now destruct (includes ids displayId).
Qed.

(** C1 fails as stated: the mounted player of [lobby] still holds the three
    items of [lobby] after a null candidate, forced or not, and a
    [playlist_update] without playlist leaves the whole player as it was. *)
Lemma null_candidate_keeps_lobby :
  applyPlaylist 2000 (view lobbyPlayer) None true (runOf lobbyPlayer) = runOf lobbyPlayer
  /\ playlist (next (applyPlaylist 2000 (view lobbyPlayer) None true (runOf lobbyPlayer)))
     = lobby
  /\ length (itemsOrEmpty lobby) = 3%nat
  /\ step "d1" 2000 (SocketMessage (Some (playlist_update ["d1"%string] None))) lobbyPlayer
     = Ok lobbyPlayer.
Proof. repeat split; reflexivity. Qed.

(** C2: a candidate without item list is normalised to the empty list, and
    the normalised candidate is installed exactly when the call is forced,
    the player was never initialised, or the candidate differs from the held
    playlist in id, item count or the key of some item at one position;
    otherwise the run is returned untouched.  Only the compared fields
    count: any candidate with the key of the held playlist is dropped. *)
Theorem applyPlaylist_decides_on_structure (now : Z) (v : View) (c : Playlist)
    (force : bool) (r : Run) :
  items (normalize c) = Some (match items c with Some l => l | None => [] end)
  /\ playlist_id (normalize c) = playlist_id c
  /\ (force = true \/ hasInitialized (env r) = false
      \/ StructurallyDifferent c (playlist v)
      -> applyPlaylist now v (Some c) force r = install now (normalize c) r)
  /\ (~ (force = true \/ hasInitialized (env r) = false
         \/ StructurallyDifferent c (playlist v))
      -> applyPlaylist now v (Some c) force r = r)
  /\ playlist (next (install now (normalize c) r)) = normalize c
  /\ (forall c' : Playlist,
        playlistKey c' = playlistKey (playlist v) ->
        hasInitialized (env r) = true ->
        applyPlaylist now v (Some c') false r = r).
Proof.
  split; [reflexivity|]. split; [reflexivity|].
  split; [|split; [|split]].
  - intros H. apply unchanged_false in H. unfold applyPlaylist. now rewrite H.
  - intros H. unfold applyPlaylist.
    destruct (unchanged force v (env r) (normalize c)) eqn:U; [reflexivity|].
    apply unchanged_false in U. contradiction.
  - unfold install.
    destruct (Nat.ltb 0 (length (applyPreloadUrls (itemsOrEmpty (normalize c)))));
      reflexivity.
  - intros c' K I. unfold applyPlaylist.
    assert (U : unchanged false v (env r) (normalize c') = true)
      by (apply unchanged_true; auto).
    now rewrite U.
Qed.

(** The refreshed [lobby] is another value than [lobby] and still equal to
    it for the reconciler. *)
Example refreshed_lobby_is_equal :
  lobbyRefreshed <> lobby
  /\ playlistsEqual (Some lobbyRefreshed) (Some lobby) = true
  /\ playlistsEqual (Some {| playlist_id := "lobby";
                             items := Some [sampleItem "a" 0 9; sampleItem "b" 1 5;
                                            sampleItem "c" 2 5] |})
                    (Some lobby) = false.
Proof. split; [discriminate|]. split; reflexivity. Qed.

Lemma applyPlaylist_twice (now now' : Z) (c : Playlist) (force : bool) (r : Run) :
  applyPlaylist now' (next (applyPlaylist now (next r) (Some c) force r)) (Some c) false
                (applyPlaylist now (next r) (Some c) force r)
  = applyPlaylist now (next r) (Some c) force r.
Proof.
  unfold applyPlaylist at 2 3 4.
  destruct (unchanged force (next r) (env r) (normalize c)) eqn:U.
  - unfold applyPlaylist.
    apply unchanged_true in U. destruct U as (_ & I & K).
    assert (U' : unchanged false (next r) (env r) (normalize c) = true)
      by (apply unchanged_true; auto).
    now rewrite U'.
  - unfold applyPlaylist.
    assert (U' : unchanged false (next (install now (normalize c) r))
                           (env (install now (normalize c) r)) (normalize c) = true).
    { apply unchanged_true. unfold install.
      destruct (Nat.ltb 0 (length (applyPreloadUrls (itemsOrEmpty (normalize c)))));
        simpl; auto. }
    now rewrite U'.
Qed.

(** C3: on an initialised player, a candidate with the structure of the held
    playlist changes nothing, whether it comes as an unforced
    [applyPlaylist], in a [playlist_update] message or as the playlist
    prop: the view (index, items, play state), the timer reference, the
    pending timeouts, the view start time and the log are those of before,
    and the timer effect does not run. *)
Theorem reapplying_held_playlist_changes_nothing (displayId : string) (now : Z)
    (p : Player) (c : Playlist) (ids : list string) (l : list PlaylistItem) :
  hasInitialized (world p) = true ->
  items (playlist (view p)) = Some l ->
  playlistKey c = playlistKey (playlist (view p)) ->
  applyPlaylist now (view p) (Some c) false (runOf p) = runOf p
  /\ step displayId now (SocketMessage (Some (playlist_update ids (Some c)))) p = Ok p
  /\ step displayId now (PlaylistProp c) p
     = Ok {| initialPlaylist := c; view := view p; world := world p |}.
Proof.
  intros I Hl K.
  assert (A : applyPlaylist now (view p) (Some c) false (runOf p) = runOf p).
  { unfold applyPlaylist.
    assert (U : unchanged false (view p) (env (runOf p)) (normalize c) = true)
      by (apply unchanged_true; auto).
    now rewrite U. }
  split; [exact A|]. split.
  - unfold step, messageEffect. fold (runOf p).
    destruct (includes ids displayId); cbn [bind]; rewrite ?A;
      unfold runOf; rewrite (commit_same _ _ _ _ Hl); now rewrite player_eta.
  - unfold step, initialPlaylistEffect. fold (runOf p). cbn [env runOf].
    rewrite I. cbn [negb].
    apply playlistsEqual_true in K. rewrite K. cbn [negb].
    unfold runOf. now rewrite (commit_same _ _ _ _ Hl).
Qed.

Lemma reapplying_held_playlist_witness :
  step "d1" 2000 (PlaylistProp lobbyRefreshed) lobbyPlayer
  = Ok {| initialPlaylist := lobbyRefreshed; view := view lobbyPlayer;
          world := world lobbyPlayer |}.
Proof.
  apply (reapplying_held_playlist_changes_nothing "d1" 2000 lobbyPlayer
           lobbyRefreshed [] (itemsOrEmpty lobby)); reflexivity.
Defined.

(** ** Remote commands *)

Lemma includes_In (ids : list string) (x : string) :
  includes ids x = true <-> In x ids.
Proof.
  unfold includes. rewrite existsb_exists. split.
  - intros (y & Hy & E). apply String.eqb_eq in E. now subst.
  - intros H. exists x. split; [exact H | apply String.eqb_refl].
Qed.

Lemma timerRef_clearTimer (e : Env) : timerRef (clearTimer e) = None.
Proof. unfold clearTimer. destruct (timerRef e) eqn:E; [reflexivity | exact E]. Qed.

Lemma log_clearTimer (e : Env) : log (clearTimer e) = log e.
Proof. unfold clearTimer. now destruct (timerRef e). Qed.

Lemma playbackTimerEffect_total (v : View) (e : Env) (l : list PlaylistItem) :
  items (playlist v) = Some l ->
  exists e', playbackTimerEffect v e = Ok e' /\ log e' = log e.
Proof.
  intros Hl. unfold playbackTimerEffect, heldItems. rewrite Hl.
  destruct (isPlaying v), (currentItem v); cbn [bind];
    try destruct (len l <=? 1); eexists; split; try reflexivity;
    cbn [armTimer log]; apply log_clearTimer.
Qed.

Lemma commit_total (prop : Playlist) (v : View) (r : Run) (l : list PlaylistItem) :
  items (playlist (next r)) = Some l ->
  exists e, commit prop v r = Ok {| initialPlaylist := prop; view := next r; world := e |}
            /\ log e = log (env r)
            /\ (timerDeps v = timerDeps (next r) -> e = env r)
            /\ (timerDeps v <> timerDeps (next r) ->
                playbackTimerEffect (next r) (env r) = Ok e).
Proof.
  intros Hl. unfold commit, heldItems. rewrite Hl. cbn [bind].
  destruct (Deps_eq_dec (timerDeps v) (timerDeps (next r))) as [E|N]; cbn [bind].
  - exists (env r). repeat split; auto. intros N. contradiction.
  - destruct (playbackTimerEffect_total (next r) (env r) l Hl) as (e & He & Hlog).
    rewrite He. cbn [bind]. exists e. repeat split; auto.
    intros E. contradiction.
Qed.

(** C7: an emergency stop addressed to every display, or to a list that
    names this display, leaves the player paused whatever it was doing; the
    index, the current item and the playlist are untouched, a [paused]
    status with the unchanged index is sent, and a player that was playing
    has its timer reference cleared by the same step. *)
Theorem emergency_stop_forces_pause (displayId : string) (now : Z) (p : Player)
    (target : StopTarget) (l : list PlaylistItem) :
  items (playlist (view p)) = Some l ->
  (target = AllDisplays \/ exists ids, target = DisplayIds ids /\ In displayId ids) ->
  exists p',
    step displayId now (SocketMessage (Some (emergency_stop target))) p = Ok p'
    /\ isPlaying (view p') = false
    /\ currentIndex (view p') = currentIndex (view p)
    /\ currentItem (view p') = currentItem (view p)
    /\ playlist (view p') = playlist (view p)
    /\ log (world p') = log (world p) ++ [StatusUpdate paused (currentIndex (view p))]
    /\ (isPlaying (view p) = true -> timerRef (world p') = None).
Proof.
  intros Hl Ht.
  assert (M : match target with
              | AllDisplays => true
              | DisplayIds ids => includes ids displayId
              end = true).
  { destruct Ht as [->|(ids & -> & Hin)]; [reflexivity | now apply includes_In]. }
  unfold step, messageEffect. rewrite M. cbn [bind].
  set (r := sendStatusUpdate paused (currentIndex (view p))
              (setIsPlaying false {| next := view p; env := world p |})).
  destruct (commit_total (initialPlaylist p) (view p) r l Hl)
    as (e & -> & Hlog & _ & Hn).
  eexists. split; [reflexivity|]. cbn.
  repeat split; try reflexivity; try exact Hlog.
  intros Hp.
  assert (N : timerDeps (view p) <> timerDeps (next r)).
  { unfold timerDeps. cbn. rewrite Hp. congruence. }
  specialize (Hn N). unfold playbackTimerEffect in Hn. cbn in Hn.
  injection Hn as <-. apply timerRef_clearTimer.
Qed.

Lemma emergency_stop_witness :
  exists p',
    step "d1" 2000 (SocketMessage (Some (emergency_stop AllDisplays))) lobbyPlayer = Ok p'
    /\ isPlaying (view p') = false
    /\ currentIndex (view p') = currentIndex (view lobbyPlayer)
    /\ currentItem (view p') = currentItem (view lobbyPlayer)
    /\ playlist (view p') = playlist (view lobbyPlayer)
    /\ log (world p')
       = log (world lobbyPlayer) ++ [StatusUpdate paused (currentIndex (view lobbyPlayer))]
    /\ (isPlaying (view lobbyPlayer) = true -> timerRef (world p') = None).
Proof.
  apply (emergency_stop_forces_pause "d1" 2000 lobbyPlayer AllDisplays
           (itemsOrEmpty lobby)).
  - reflexivity.
  - left. reflexivity.
Defined.

(** Playing at index 1, stopped: paused at index 1, no timeout pending. *)
Example emergency_stop_at_index_1 :
  match run "d1" [(2000, SocketMessage (Some (display_control "d1" "next" None)));
                  (3000, SocketMessage (Some (emergency_stop (DisplayIds ["d7"; "d1"]%string))))]
            lobbyPlayer with
  | Ok q => (currentIndex (view q), isPlaying (view q), timers (world q))
  | TypeError => (Int 0, true, [])
  end = (Int 1, false, []).
Proof. reflexivity. Qed.

Lemma itemAt_nth (l : list PlaylistItem) (i : Z) :
  0 <= i -> itemAt l i = nth_error l (Z.to_nat i).
Proof.
  intros H. unfold itemAt. destruct (Z.ltb_spec i 0); [lia | reflexivity].
Qed.

Lemma itemAt_Some (l : list PlaylistItem) (i : Z) :
  0 <= i < len l -> exists item, itemAt l i = Some item.
Proof.
  intros H. rewrite itemAt_nth by lia.
  destruct (nth_error l (Z.to_nat i)) eqn:E; [eauto|].
  apply nth_error_None in E. unfold len in H. lia.
Qed.

Lemma itemOf_Int (l : list PlaylistItem) (z : Z) :
  0 <= z -> itemOf l (Int z) = nth_error l (Z.to_nat z).
Proof. intros H. cbn [itemOf]. now apply itemAt_nth. Qed.

Lemma seek_in_range (displayId : string) (now : Z) (v : View) (i : Number) (r : Run)
    (l : list PlaylistItem) :
  items (playlist v) = Some l -> 0 <= whole i < len l ->
  handleRemoteControl displayId now v "seek" (Some i) r
  = Ok (sendStatusUpdate (playState (isPlaying v)) i
          (setCurrentItem (itemOf l i) (setCurrentIndex i r))).
Proof.
  intros Hl Hi. unfold handleRemoteControl, heldItems. cbn. rewrite Hl. cbn.
  destruct (Z.ltb_spec (whole i) 0); [lia|].
  destruct (Z.ltb_spec (whole i) (len l)); [reflexivity | lia].
Qed.

Lemma seek_ignored (displayId : string) (now : Z) (v : View) (value : option Number)
    (r : Run) (l : list PlaylistItem) :
  items (playlist v) = Some l ->
  (forall i, value = Some i -> ~ 0 <= whole i < len l) ->
  handleRemoteControl displayId now v "seek" value r = Ok r.
Proof.
  intros Hl Hv. unfold handleRemoteControl, heldItems. cbn. rewrite Hl.
  destruct value as [i|]; [|reflexivity].
  specialize (Hv i eq_refl). cbn.
  destruct (Z.ltb_spec (whole i) 0); [reflexivity|].
  destruct (Z.ltb_spec (whole i) (len l)); [lia | reflexivity].
Qed.

(** C8: a [seek] whose value is a number from 0 up to the item count (for a
    number [z + f] that is [0 <= z < count]) moves the index there, makes
    the item at that position the current item (none when the value is no
    integer) and touches nothing else of the view; with any other value (no
    number, negative, or at or beyond the item count) the handler returns
    normally with the run unchanged, and the whole player is as before the
    message. *)
Theorem seek_moves_in_range_and_ignores_the_rest (displayId : string) (now : Z)
    (p : Player) (value : option Number) (l : list PlaylistItem) :
  items (playlist (view p)) = Some l ->
  (forall i, value = Some i -> 0 <= whole i < len l ->
     exists p',
       step displayId now
            (SocketMessage (Some (display_control displayId "seek" value))) p = Ok p'
       /\ currentIndex (view p') = i
       /\ currentItem (view p') = itemOf l i
       /\ (forall z, i = Int z -> currentItem (view p') = nth_error l (Z.to_nat z))
       /\ isPlaying (view p') = isPlaying (view p)
       /\ playlist (view p') = playlist (view p)
       /\ nextItem (view p') = nextItem (view p))
  /\ ((forall i, value = Some i -> ~ 0 <= whole i < len l) ->
      handleRemoteControl displayId now (view p) "seek" value (runOf p) = Ok (runOf p)
      /\ step displayId now
              (SocketMessage (Some (display_control displayId "seek" value))) p = Ok p).
Proof.
  intros Hl. split.
  - intros i -> Hi. unfold step, messageEffect. rewrite String.eqb_refl.
    rewrite (seek_in_range _ _ _ _ _ _ Hl Hi). cbn [bind].
    match goal with |- context [commit _ _ ?r] => set (r' := r) end.
    destruct (commit_total (initialPlaylist p) (view p) r' l Hl) as (e & -> & _).
    eexists. split; [reflexivity|]. cbn.
    repeat split; try reflexivity. intros z ->. apply itemOf_Int. cbn in Hi. lia.
  - intros Hv. split; [now apply (seek_ignored _ _ _ _ _ _ Hl)|].
    unfold step, messageEffect. rewrite String.eqb_refl.
    rewrite (seek_ignored _ _ _ _ _ _ Hl Hv). cbn [bind].
    rewrite (commit_same _ _ _ l Hl). now rewrite player_eta.
Qed.

Lemma seek_witness :
  exists p',
    step "d1" 2000 (SocketMessage (Some (display_control "d1" "seek" (Some (Int 2)))))
         lobbyPlayer = Ok p'
    /\ currentIndex (view p') = Int 2
    /\ currentItem (view p') = itemOf (itemsOrEmpty lobby) (Int 2)
    /\ (forall z, Int 2 = Int z ->
        currentItem (view p') = nth_error (itemsOrEmpty lobby) (Z.to_nat z))
    /\ isPlaying (view p') = isPlaying (view lobbyPlayer)
    /\ playlist (view p') = playlist (view lobbyPlayer)
    /\ nextItem (view p') = nextItem (view lobbyPlayer).
Proof.
  apply (proj1 (seek_moves_in_range_and_ignores_the_rest "d1" 2000 lobbyPlayer
                  (Some (Int 2)) (itemsOrEmpty lobby) eq_refl) (Int 2) eq_refl).
  vm_compute. split; [discriminate | reflexivity].
Defined.

Example seek_examples :
  option_map (fun q => currentIndex (view q))
    (match step "d1" 2000 (SocketMessage (Some (display_control "d1" "seek" (Some (Int 2)))))
                 lobbyPlayer with Ok q => Some q | TypeError => None end) = Some (Int 2)
  /\ step "d1" 2000 (SocketMessage (Some (display_control "d1" "seek" (Some (Int 3)))))
          lobbyPlayer = Ok lobbyPlayer
  /\ step "d1" 2000 (SocketMessage (Some (display_control "d1" "seek" (Some (Int (-1))))))
          lobbyPlayer = Ok lobbyPlayer
  /\ step "d1" 2000 (SocketMessage (Some (display_control "d1" "seek" (Some (Frac 2 half)))))
          lobbyPlayer = Ok
            {| initialPlaylist := lobby;
               view := {| playlist := lobby; currentIndex := Frac 2 half;
                          isPlaying := true; currentItem := None;
                          nextItem := Some (sampleItem "b" 1 5);
                          connectionStatus := connecting |};
               world := {| timerRef := None; viewStartTime := 1000;
                           hasInitialized := true; cache := Some lobby;
                           timers := []; nextTimerId := 2;
                           log := log (world lobbyPlayer)
                                  ++ [StatusUpdate playing (Frac 2 half)] |} |}
  /\ step "d1" 2000 (SocketMessage (Some (display_control "d1" "seek" (Some (Frac 3 half)))))
          lobbyPlayer = Ok lobbyPlayer
  /\ step "d1" 2000 (SocketMessage (Some (display_control "d1" "seek" None)))
          lobbyPlayer = Ok lobbyPlayer.
Proof. repeat split; reflexivity. Qed.

(** ** The invariant of the machine *)

Lemma EnvKept_refl (e : Env) : EnvKept e e.
Proof. repeat split. Qed.

Lemma EnvKept_trans (e1 e2 e3 : Env) : EnvKept e1 e2 -> EnvKept e2 e3 -> EnvKept e1 e3.
Proof.
  unfold EnvKept. intros (A1 & A2 & A3 & A4 & A5) (B1 & B2 & B3 & B4 & B5).
  repeat split; congruence.
Qed.

Lemma EnvKept_emit (o : Output) (e : Env) : EnvKept e (emit o e).
Proof. repeat split. Qed.

Lemma EnvKept_setViewStartTime (now : Z) (e : Env) : EnvKept e (setViewStartTime now e).
Proof. repeat split. Qed.

Lemma trackView_frame (displayId : string) (now : Z) (v : View) (c s : bool) (r : Run) :
  next (trackView displayId now v c s r) = next r
  /\ EnvKept (env r) (env (trackView displayId now v c s r)).
Proof.
  unfold trackView. destruct (currentItem v); split;
    try reflexivity; try apply EnvKept_refl. apply EnvKept_emit.
Qed.

Lemma Moved_refl (l : list PlaylistItem) (r : Run) : Moved l r r.
Proof. split; [apply EnvKept_refl|]. split; [reflexivity|]. left. auto. Qed.

Lemma cancel_sole (tm : Timer) : cancel (timerId tm) [tm] = [].
Proof. unfold cancel. simpl. now rewrite Nat.eqb_refl. Qed.

Lemma clearTimer_Sole (e : Env) :
  Sole e ->
  timerRef (clearTimer e) = None /\ timers (clearTimer e) = []
  /\ nextTimerId (clearTimer e) = nextTimerId e
  /\ hasInitialized (clearTimer e) = hasInitialized e
  /\ cache (clearTimer e) = cache e.
Proof.
  unfold Sole, clearTimer. destruct (timerRef e) as [t|] eqn:E.
  - intros (_ & [T|(tm & T & <-)]); cbn; rewrite T; repeat split.
    apply cancel_sole.
  - intros T. rewrite E. repeat split. exact T.
Qed.

Lemma TimerInv_Sole (v : View) (l : list PlaylistItem) (e : Env) :
  TimerInv v l e -> Sole e.
Proof.
  unfold TimerInv, Sole. destruct (timerRef e).
  - intros (H & _ & _ & _ & tm & T & I & _). split; [exact H|]. right. eauto.
  - tauto.
Qed.

Lemma TimerInv_deps (v v' : View) (l : list PlaylistItem) (e : Env) :
  timerDeps v = timerDeps v' -> TimerInv v l e -> TimerInv v' l e.
Proof.
  intros D. unfold TimerInv. assert (P : isPlaying v = isPlaying v').
  { unfold timerDeps in D. congruence. }
  assert (C : currentItem v = currentItem v').
  { unfold timerDeps in D. congruence. }
  rewrite <- D, P, C. tauto.
Qed.

Lemma Sole_kept (e e' : Env) : EnvKept e e' -> Sole e -> Sole e'.
Proof.
  unfold EnvKept, Sole. intros (A & B & C & _). now rewrite A, B, C.
Qed.

Lemma TimerInv_kept (v : View) (l : list PlaylistItem) (e e' : Env) :
  EnvKept e e' -> TimerInv v l e -> TimerInv v l e'.
Proof.
  unfold EnvKept, TimerInv. intros (A & B & C & _). now rewrite A, B, C.
Qed.

Lemma Grows_refl (e : Env) : Grows e e.
Proof. split; auto. Qed.

Lemma Grows_kept (e e' e'' : Env) : EnvKept e e' -> Grows e' e'' -> Grows e e''.
Proof.
  unfold EnvKept, Grows. intros (_ & B & C & _). now rewrite B, C.
Qed.

Lemma commit_Inv (prop : Playlist) (v : View) (r : Run) (l : list PlaylistItem) :
  items (playlist (next r)) = Some l ->
  currentItem (next r) = itemOf l (currentIndex (next r)) ->
  InRange l (currentIndex (next r)) ->
  hasInitialized (env r) = true ->
  (cache (env r) = None \/ cache (env r) = Some (playlist (next r))) ->
  Sole (env r) ->
  (timerDeps v = timerDeps (next r) -> TimerInv (next r) l (env r)) ->
  exists p', commit prop v r = Ok p' /\ Inv p' /\ view p' = next r
             /\ log (world p') = log (env r) /\ initialPlaylist p' = prop
             /\ Grows (env r) (world p').
Proof.
  intros Hl Hc Hr Hi Hk Hs Ht. unfold commit, heldItems. rewrite Hl. cbn [bind].
  destruct (Deps_eq_dec (timerDeps v) (timerDeps (next r))) as [E|N]; cbn [bind].
  - eexists. split; [reflexivity|]. split; [|cbn; auto using Grows_refl].
    exists l. cbn [view world]. auto 10.
  - destruct (clearTimer_Sole _ Hs) as (C1 & C2 & C3 & C4 & C5).
    assert (Base : forall e', timerRef e' = None -> timers e' = [] ->
                hasInitialized e' = true ->
                cache e' = cache (env r) ->
                isPlaying (next r) = false \/ currentItem (next r) = None
                \/ len l <= 1 ->
                Inv {| initialPlaylist := prop; view := next r; world := e' |}).
    { intros e' T1 T2 T3 T4 T5. exists l. cbn [view world]. rewrite T4.
      do 5 (split; [auto|]). unfold TimerInv. rewrite T1. auto. }
    assert (Tail : forall e', log e' = log (env r) ->
                Grows (env r) e' ->
                view {| initialPlaylist := prop; view := next r; world := e' |} = next r
                /\ log (world {| initialPlaylist := prop; view := next r; world := e' |})
                   = log (env r)
                /\ initialPlaylist {| initialPlaylist := prop; view := next r; world := e' |}
                   = prop
                /\ Grows (env r)
                         (world {| initialPlaylist := prop; view := next r;
                                   world := e' |}))
      by (intros; cbn; auto).
    assert (TailC : log (clearTimer (env r)) = log (env r)
                    /\ Grows (env r) (clearTimer (env r))).
    { split; [apply log_clearTimer|]. split; [lia|]. rewrite C2. intros tm []. }
    destruct TailC as [TC1 TC2].
    unfold playbackTimerEffect, heldItems. rewrite Hl.
    destruct (isPlaying (next r)) eqn:P.
    + destruct (currentItem (next r)) as [item|] eqn:CI; cbn [bind].
      * destruct (Z.leb_spec (len l) 1) as [L|L].
        -- eexists. split; [reflexivity|]. split; [|apply Tail; auto].
           apply Base; auto; congruence.
        -- eexists. split; [reflexivity|].
           split; [|apply Tail; [cbn [armTimer log]; auto|]].
           2:{ split; cbn [armTimer nextTimerId timers]; [lia|].
               rewrite C2. intros tm [<-|[]]. right. cbn. lia. }
           exists l. cbn [view world armTimer hasInitialized cache].
           rewrite C4, C5, CI. do 5 (split; [auto|]).
           unfold TimerInv. cbn [armTimer timerRef nextTimerId timers].
           split; [reflexivity|]. split; [auto|]. split; [congruence|].
           split; [lia|].
           eexists. rewrite C2. cbn. repeat split.
      * eexists. split; [reflexivity|]. split; [|apply Tail; auto].
        apply Base; auto; congruence.
    + destruct (currentItem (next r)); eexists; (split; [reflexivity|]);
        (split; [|apply Tail; auto]); apply Base; auto; congruence.
Qed.

(** *** Arithmetic of the index *)

(** With two or more items [(n + 1) % count] is never [n]. *)
Lemma next_index_moves (n : Number) (m : Z) :
  1 < m -> (forall z, n = Int z -> 0 <= z < m) ->
  remainder (plus n 1) m <> n.
Proof.
  intros Hm Hr. destruct n as [z|z f]; cbn.
  - specialize (Hr z eq_refl). intros E. injection E as E.
    destruct (Z.eq_dec (z + 1) m) as [E'|E'].
    + rewrite E', Z.rem_same in E by lia. lia.
    + rewrite Z.rem_small in E by lia. lia.
  - destruct (Z.leb_spec 0 (z + 1)) as [P|P]; intros E; injection E as E.
    + pose proof (Z.rem_bound_pos (z + 1) m ltac:(lia) ltac:(lia)) as B.
      destruct (Z.lt_ge_cases (z + 1) m) as [S|S].
      * rewrite Z.rem_small in E by lia. lia.
      * assert (z + 1 = m) by lia. subst m. rewrite Z.rem_same in E by lia. lia.
    + pose proof (Z.rem_bound_pos (- (z + 1) - 1) m ltac:(lia) ltac:(lia)) as B.
      assert (Z.rem (- (z + 1) - 1) m <= - (z + 1) - 1)
        by (apply Z.rem_le; lia).
      lia.
Qed.

Lemma rem_next (i n : Z) :
  0 <= i < n -> 1 < n -> 0 <= Z.rem (i + 1) n < n /\ Z.rem (i + 1) n <> i.
Proof.
  intros Hi Hn. destruct (Z.eq_dec (i + 1) n) as [E|E].
  - rewrite E, Z.rem_same by lia. lia.
  - rewrite Z.rem_small by lia. lia.
Qed.

Ltac kept :=
  unfold EnvKept, sendStatusUpdate, withEnv, emit, setViewStartTime;
  cbn [env next timerRef timers nextTimerId hasInitialized cache];
  repeat split.

Lemma next_index_InRange (l : list PlaylistItem) (n : Number) :
  1 < len l -> InRange l n -> InRange l (remainder (plus n 1) (len l)).
Proof.
  intros Hn Hr w E Hne. destruct n as [z|z f].
  - cbn in E. injection E as <-. apply rem_next; [|exact Hn]. now apply Hr.
  - exfalso. revert E. cbn. destruct (0 <=? z + 1); discriminate.
Qed.

Lemma previous_index_InRange (l : list PlaylistItem) (n : Number) :
  InRange l n ->
  InRange l (if isZero n then Int (len l - 1) else plus n (-1)).
Proof.
  intros Hr w E Hne. destruct n as [z|z f]; cbn in E.
  - specialize (Hr z eq_refl Hne).
    destruct (Z.eqb_spec z 0); injection E as <-; lia.
  - discriminate.
Qed.

Lemma Int_InRange (l : list PlaylistItem) (z : Z) :
  (l <> [] -> 0 <= z < len l) -> InRange l (Int z).
Proof. intros H w E Hne. injection E as <-. auto. Qed.

Lemma InRange_whole (l : list PlaylistItem) (n : Number) :
  0 <= whole n < len l -> InRange l n.
Proof. intros H w -> _. exact H. Qed.

Lemma moveToNextItem_Moved (displayId : string) (now : Z) (v : View) (r : Run)
    (l : list PlaylistItem) :
  items (playlist v) = Some l ->
  InRange l (currentIndex v) ->
  exists r', moveToNextItem displayId now v r = Ok r' /\ Moved l r r'
             /\ (1 < len l -> currentIndex (next r') <> currentIndex v).
Proof.
  intros Hl Hr. unfold moveToNextItem, heldItems. rewrite Hl. cbn [bind].
  destruct (Z.eqb_spec (len l) 0) as [L0|L0].
  - exists r. split; [reflexivity|]. split; [apply Moved_refl | lia].
  - destruct (Z.eqb_spec (len l) 1) as [L1|L1].
    + eexists. split; [reflexivity|]. split; [|lia].
      split; [kept|]. split; [reflexivity|]. left. split; reflexivity.
    + assert (Hne : l <> []) by (intros ->; apply L0; reflexivity).
      assert (Hn : 1 < len l) by (unfold len in *; lia).
      eexists. split; [reflexivity|].
      destruct (trackView_frame displayId now v true false r) as [F1 F2].
      split.
      2:{ intros _. cbn. apply next_index_moves; [exact Hn|].
          intros z E. now apply Hr. }
      split; [|split].
      * eapply EnvKept_trans; [exact F2|]. kept.
      * cbn. now rewrite F1.
      * right. cbn. split; [reflexivity | now apply next_index_InRange].
Qed.

Lemma moveToPreviousItem_Moved (displayId : string) (now : Z) (v : View) (r : Run)
    (l : list PlaylistItem) :
  items (playlist v) = Some l ->
  InRange l (currentIndex v) ->
  exists r', moveToPreviousItem displayId now v r = Ok r' /\ Moved l r r'.
Proof.
  intros Hl Hr. unfold moveToPreviousItem, heldItems. rewrite Hl. cbn [bind].
  eexists. split; [reflexivity|].
  destruct (trackView_frame displayId now v false true r) as [F1 F2].
  split; [|split].
  - eapply EnvKept_trans; [exact F2|]. kept.
  - cbn. now rewrite F1.
  - right. cbn. split; [reflexivity|]. now apply previous_index_InRange.
Qed.

Lemma itemAt_zero_range (l : list PlaylistItem) : l <> [] -> 0 <= 0 < len l.
Proof. destruct l; [congruence|]. intros _. unfold len. cbn [length]. lia. Qed.

Lemma handleRemoteControl_Moved (displayId : string) (now : Z) (v : View)
    (action : string) (value : option Number) (r : Run) (l : list PlaylistItem) :
  items (playlist v) = Some l ->
  InRange l (currentIndex v) ->
  exists r', handleRemoteControl displayId now v action value r = Ok r' /\ Moved l r r'.
Proof.
  intros Hl Hr. unfold handleRemoteControl, heldItems. rewrite Hl. cbn [bind].
  destruct (action =? "play")%string.
  { eexists. split; [reflexivity|]. split; [kept|]. split; [reflexivity|]. now left. }
  destruct (action =? "pause")%string.
  { eexists. split; [reflexivity|]. split; [kept|]. split; [reflexivity|]. now left. }
  destruct (action =? "stop")%string.
  { eexists. split; [reflexivity|]. split; [kept|]. split; [reflexivity|].
    right. cbn. split; [reflexivity | apply Int_InRange, itemAt_zero_range]. }
  destruct (action =? "restart")%string.
  { eexists. split; [reflexivity|]. split; [kept|]. split; [reflexivity|].
    right. cbn. split; [reflexivity | apply Int_InRange, itemAt_zero_range]. }
  destruct (action =? "next")%string.
  { destruct (moveToNextItem_Moved displayId now v
                (trackView displayId now v false true r) l Hl Hr)
      as (r' & E & (K & Pl & Mv) & _).
    destruct (trackView_frame displayId now v false true r) as [F1 F2].
    exists r'. split; [exact E|]. split; [eapply EnvKept_trans; eauto|].
    rewrite F1 in Pl, Mv. auto. }
  destruct (action =? "previous")%string.
  { apply moveToPreviousItem_Moved; auto. }
  destruct (action =? "seek")%string; [|exists r; split; [reflexivity | apply Moved_refl]].
  destruct value as [i|]; [|exists r; split; [reflexivity | apply Moved_refl]].
  destruct (Z.ltb_spec (whole i) 0); [exists r; split; [reflexivity | apply Moved_refl]|].
  cbn [bind].
  destruct (Z.ltb_spec (whole i) (len l));
    [|exists r; split; [reflexivity | apply Moved_refl]].
  eexists. split; [reflexivity|]. split; [kept|]. split; [reflexivity|].
  right. cbn. split; [reflexivity | apply InRange_whole; lia].
Qed.

Lemma handleKeyPress_Moved (displayId : string) (now : Z) (v : View)
    (key : string) (r : Run) (l : list PlaylistItem) :
  items (playlist v) = Some l ->
  InRange l (currentIndex v) ->
  exists r', handleKeyPress displayId now v key r = Ok r' /\ Moved l r r'.
Proof.
  intros Hl Hr. unfold handleKeyPress.
  destruct (key =? " ")%string.
  { eexists. split; [reflexivity|]. split; [kept|]. split; [reflexivity|]. now left. }
  destruct (key =? "ArrowRight")%string.
  { destruct (moveToNextItem_Moved displayId now v
                (trackView displayId now v false true r) l Hl Hr)
      as (r' & E & (K & Pl & Mv) & _).
    destruct (trackView_frame displayId now v false true r) as [F1 F2].
    exists r'. split; [exact E|]. split; [eapply EnvKept_trans; eauto|].
    rewrite F1 in Pl, Mv. auto. }
  destruct (key =? "ArrowLeft")%string.
  { apply moveToPreviousItem_Moved; auto. }
  exists r. split; [reflexivity | apply Moved_refl].
Qed.

Lemma install_post (now : Z) (c : Playlist) (r : Run) :
  Sole (env r) ->
  playlist (next (install now (normalize c) r)) = normalize c
  /\ currentIndex (next (install now (normalize c) r)) = Int 0
  /\ currentItem (next (install now (normalize c) r)) = itemAt (itemsOrEmpty c) 0
  /\ isPlaying (next (install now (normalize c) r)) = isPlaying (next r)
  /\ hasInitialized (env (install now (normalize c) r)) = true
  /\ cache (env (install now (normalize c) r)) = Some (normalize c)
  /\ timerRef (env (install now (normalize c) r)) = None
  /\ timers (env (install now (normalize c) r)) = []
  /\ nextTimerId (env (install now (normalize c) r)) = nextTimerId (env r).
Proof.
  intros Hs. destruct (clearTimer_Sole _ Hs) as (C1 & C2 & C3 & _).
  unfold install.
  destruct (Nat.ltb 0 (length (applyPreloadUrls (itemsOrEmpty (normalize c)))));
    cbn; rewrite C1, C2, C3; repeat split.
Qed.

Lemma applyPlaylist_cases (now : Z) (v : View) (c : Playlist) (r : Run) :
  hasInitialized (env r) = true ->
  (applyPlaylist now v (Some c) false r = r
   /\ playlistKey c = playlistKey (playlist v))
  \/ (applyPlaylist now v (Some c) false r = install now (normalize c) r
      /\ playlistKey c <> playlistKey (playlist v)).
Proof.
  intros I. unfold applyPlaylist.
  destruct (unchanged false v (env r) (normalize c)) eqn:U.
  - left. apply unchanged_true in U. tauto.
  - right. split; [reflexivity|]. apply StructurallyDifferent_key.
    apply unchanged_false in U. destruct U as [U|[U|U]]; congruence.
Qed.

Lemma initialPlaylistEffect_cases (now : Z) (v : View) (q : Playlist) (r : Run) :
  hasInitialized (env r) = true ->
  (initialPlaylistEffect now v q r = r
   /\ playlistKey q = playlistKey (playlist v))
  \/ (initialPlaylistEffect now v q r = install now (normalize q) r
      /\ playlistKey q <> playlistKey (playlist v)).
Proof.
  intros I. unfold initialPlaylistEffect. rewrite I. cbn [negb].
  destruct (playlistsEqual (Some q) (Some (playlist v))) eqn:E; cbn [negb].
  - left. split; [reflexivity|]. now apply playlistsEqual_true.
  - destruct (applyPlaylist_cases now v q r I) as [[_ K]|[A K]].
    + apply playlistsEqual_true in K. congruence.
    + right. auto.
Qed.

Lemma deps_differ (v v' : View) (c : Playlist) :
  playlistKey c <> playlistKey (playlist v) ->
  playlist v' = normalize c ->
  timerDeps v <> timerDeps v'.
Proof.
  intros K P D. apply K. unfold timerDeps in D. rewrite P in D.
  injection D as _ _ _ Hitems Hid. unfold playlistKey, itemsOrEmpty.
  rewrite Hitems, Hid. reflexivity.
Qed.

Lemma Inv_Sole (p : Player) : Inv p -> Sole (world p).
Proof. intros (l & _ & _ & _ & _ & _ & T). eapply TimerInv_Sole; eauto. Qed.

(** The render after a reconciliation: the run is the old one or the
    installed candidate. *)
Lemma reconciled_Inv (prop : Playlist) (now : Z) (p : Player) (c : Playlist) (r' : Run) :
  Inv p ->
  (r' = runOf p /\ playlistKey c = playlistKey (playlist (view p)))
  \/ (r' = install now (normalize c) (runOf p)
      /\ playlistKey c <> playlistKey (playlist (view p))) ->
  exists p', commit prop (view p) r' = Ok p' /\ Inv p'
             /\ Grows (world p) (world p').
Proof.
  intros HI [[-> _]|[-> K]].
  - destruct HI as (l & Hl & Hc & Hr & Hi & Hk & Ht).
    assert (H6 : Sole (env (runOf p))) by (eapply TimerInv_Sole; eauto).
    destruct (commit_Inv prop (view p) (runOf p) l Hl Hc Hr Hi Hk H6 (fun _ => Ht))
      as (p' & E & I' & _ & _ & _ & M).
    eauto.
  - pose proof (Inv_Sole p HI) as Hs.
    destruct (install_post now c (runOf p) Hs)
      as (P1 & P2 & P3 & P4 & P5 & P6 & P7 & P8 & P9).
    destruct (commit_Inv prop (view p) (install now (normalize c) (runOf p))
                (itemsOrEmpty c)) as (p' & E & I' & _ & _ & _ & M).
    + now rewrite P1.
    + now rewrite P2.
    + rewrite P2. apply Int_InRange, itemAt_zero_range.
    + exact P5.
    + right. now rewrite P6, P1.
    + unfold Sole. now rewrite P7.
    + intros D. exfalso. eapply deps_differ; eauto.
    + exists p'. split; [exact E|]. split; [exact I'|].
      destruct M as [M1 M2]. rewrite P9 in M1. split; [exact M1|].
      intros tm Hin. right. destruct (M2 tm Hin) as [F|F].
      * rewrite P8 in F. contradiction.
      * now rewrite P9 in F.
Qed.

(** The render after a playback handler. *)
Lemma moved_Inv (prop : Playlist) (p : Player) (r' : Run) (l : list PlaylistItem) :
  Inv p -> items (playlist (view p)) = Some l -> Moved l (runOf p) r' ->
  exists p', commit prop (view p) r' = Ok p' /\ Inv p'
             /\ Grows (world p) (world p').
Proof.
  intros (l0 & Hl & Hc & Hr & Hi & Hk & Ht) Hl' (K & Pl & Mv).
  assert (l0 = l) by congruence. subst l0. cbn [runOf next env] in *.
  pose proof K as (_ & _ & K3 & K4 & K5).
  assert (H1 : items (playlist (next r')) = Some l) by congruence.
  assert (H2 : currentItem (next r') = itemOf l (currentIndex (next r')))
    by (destruct Mv as [[Ei Ec]|[Ec _]]; congruence).
  assert (H3 : InRange l (currentIndex (next r')))
    by (destruct Mv as [[Ei Ec]|[_ Er]]; [rewrite Ei|]; auto).
  assert (H4 : hasInitialized (env r') = true) by congruence.
  assert (H5 : cache (env r') = None \/ cache (env r') = Some (playlist (next r')))
    by (rewrite K5, Pl; exact Hk).
  assert (H6 : Sole (env r'))
    by (eapply Sole_kept; eauto; eapply TimerInv_Sole; eauto).
  assert (H7 : timerDeps (view p) = timerDeps (next r') -> TimerInv (next r') l (env r'))
    by (intros D; eapply TimerInv_deps; eauto; eapply TimerInv_kept; eauto).
  destruct (commit_Inv prop (view p) r' l H1 H2 H3 H4 H5 H6 H7)
    as (p' & E & I' & _ & _ & _ & M).
  exists p'. split; [exact E|]. split; [exact I'|]. eapply Grows_kept; eauto.
Qed.

Lemma connectionEffect_no_substitution (v : View) (ws : ConnectionStatus) (r : Run) :
  cache (env r) = None \/ cache (env r) = Some (playlist v) ->
  connectionEffect v ws r
  = withEnv (emit (ConnectionStatusChange ws)) (setConnectionStatus ws r).
Proof.
  intros Hk. unfold connectionEffect, getCachedPlaylist.
  cbn [withEnv env emit cache setConnectionStatus].
  destruct ws; try reflexivity;
    destruct Hk as [->| ->]; try reflexivity; now rewrite String.eqb_refl.
Qed.

Lemma messageEffect_Inv (displayId : string) (now : Z) (p : Player)
    (m : option Message) :
  Inv p ->
  exists r' p', messageEffect displayId now (view p) m (runOf p) = Ok r'
                /\ commit (initialPlaylist p) (view p) r' = Ok p' /\ Inv p'
                /\ Grows (world p) (world p').
Proof.
  intros HI. pose proof HI as (l & Hl & Hc & Hr & Hi & Hk & Ht).
  assert (Same : exists r' p', Ok (runOf p) = Ok r'
                   /\ commit (initialPlaylist p) (view p) r' = Ok p' /\ Inv p'
                   /\ Grows (world p) (world p')).
  { destruct (moved_Inv (initialPlaylist p) p (runOf p) l HI Hl (Moved_refl _ _))
      as (p' & C & I' & M).
    exists (runOf p), p'. auto. }
  destruct m as [[ids np|target action value|target|]|]; cbn [messageEffect];
    try exact Same.
  - destruct (includes ids displayId); [|exact Same].
    destruct np as [c|]; [|exact Same].
    destruct (reconciled_Inv (initialPlaylist p) now p c
                (applyPlaylist now (view p) (Some c) false (runOf p)) HI)
      as (p' & C & I' & M).
    { apply applyPlaylist_cases. exact Hi. }
    eauto 10.
  - destruct (target =? displayId)%string; [|exact Same].
    destruct (handleRemoteControl_Moved displayId now (view p) action value (runOf p) l
                Hl Hr) as (r' & E & Mv).
    exists r'.
    destruct (moved_Inv (initialPlaylist p) p r' l HI Hl Mv) as (p' & C & I' & M).
    eauto 10.
  - destruct (match target with
              | AllDisplays => true
              | DisplayIds ids => includes ids displayId
              end); [|exact Same].
    eexists.
    match goal with |- exists p', Ok ?r = _ /\ _ =>
      destruct (moved_Inv (initialPlaylist p) p r l HI Hl) as (p' & C & I' & M)
    end.
    { split; [kept|]. split; [reflexivity|]. now left. }
    eauto 10.
Qed.

Lemma pending_found (t : nat) (e : Env) (tm : Timer) :
  pending t e = Some tm -> In tm (timers e) /\ timerId tm = t.
Proof.
  unfold pending. intros H. apply find_some in H. destruct H as [H E].
  apply Nat.eqb_eq in E. auto.
Qed.

Theorem step_Inv (displayId : string) (now : Z) (ev : Event) (p : Player) :
  Inv p ->
  exists p', step displayId now ev p = Ok p' /\ Inv p'
             /\ Grows (world p) (world p').
Proof.
  intros HI. pose proof HI as (l & Hl & Hc & Hr & Hi & Hk & Ht).
  destruct ev as [q| |ws|m|t|key| |]; cbn [step]; fold (runOf p).
  - apply (reconciled_Inv _ now p q); auto. apply initialPlaylistEffect_cases. exact Hi.
  - apply (reconciled_Inv _ now p (initialPlaylist p)); auto.
    apply initialPlaylistEffect_cases. exact Hi.
  - rewrite connectionEffect_no_substitution by exact Hk.
    apply (moved_Inv _ p _ l HI Hl).
    split; [kept|]. split; [reflexivity|]. now left.
  - destruct (messageEffect_Inv displayId now p m HI) as (r' & p' & E & C & I' & M).
    rewrite E. cbn [bind]. eauto 10.
  - destruct (pending t (world p)) as [tm|] eqn:Pn;
      [|exists p; auto using Grows_refl].
    destruct (pending_found _ _ _ Pn) as [Hin Hid].
    unfold TimerInv in Ht. destruct (timerRef (world p)) as [t0|] eqn:Tr;
      [|destruct Ht as [T _]; rewrite T in Hin; contradiction].
    destruct Ht as (Hlt & Hp & Hci & Hn & tm0 & T & Hid0 & D).
    rewrite T in Hin. destruct Hin as [<-|[]]. subst t0.
    assert (Hlc : items (playlist (closure tm0)) = Some l)
      by (unfold timerDeps in D; congruence).
    assert (Hic : currentIndex (closure tm0) = currentIndex (view p))
      by (unfold timerDeps in D; congruence).
    assert (Hrc : InRange l (currentIndex (closure tm0)))
      by (rewrite Hic; exact Hr).
    destruct (moveToNextItem_Moved displayId now (closure tm0)
                (withEnv (deliver t) (runOf p)) l Hlc Hrc)
      as (r' & E & (K & Pl & Mv) & Hne).
    rewrite E. cbn [bind]. specialize (Hne Hn).
    cbn [withEnv next env runOf] in K, Pl, Mv.
    destruct K as (K1 & K2 & K3 & K4 & K5).
    cbn [deliver timerRef timers nextTimerId hasInitialized cache] in K1, K2, K3, K4, K5.
    assert (H1 : items (playlist (next r')) = Some l) by congruence.
    assert (H2 : currentItem (next r') = itemOf l (currentIndex (next r')))
      by (destruct Mv as [[Ei Ec]|[Ec _]]; [congruence | exact Ec]).
    assert (H3 : InRange l (currentIndex (next r')))
      by (destruct Mv as [[Ei _]|[_ Er]]; [congruence | exact Er]).
    assert (H4 : hasInitialized (env r') = true) by congruence.
    assert (H5 : cache (env r') = None \/ cache (env r') = Some (playlist (next r')))
      by (rewrite K5, Pl; exact Hk).
    assert (H6 : Sole (env r')).
    { unfold Sole. rewrite K1, K2, K3, Tr, T, <- Hid. rewrite cancel_sole. auto. }
    assert (H7 : timerDeps (view p) = timerDeps (next r') -> TimerInv (next r') l (env r')).
    { intros D'. exfalso. apply Hne. unfold timerDeps in D'. congruence. }
    destruct (commit_Inv (initialPlaylist p) (view p) r' l H1 H2 H3 H4 H5 H6 H7)
      as (p' & C & I' & _ & _ & _ & M).
    exists p'. split; [exact C|]. split; [exact I'|].
    destruct M as [M1 M2]. rewrite K3 in M1. split; [exact M1|].
    intros tm Hin. destruct (M2 tm Hin) as [F|F];
      [left; rewrite K2 in F; unfold cancel in F; apply filter_In in F; tauto
      |right; now rewrite K3 in F].
  - destruct (handleKeyPress_Moved displayId now (view p) key (runOf p) l Hl Hr)
      as (r' & E & Mv).
    rewrite E. cbn [bind]. apply (moved_Inv _ p r' l HI Hl Mv).
  - destruct (moveToNextItem_Moved displayId now (view p) (runOf p) l Hl Hr)
      as (r' & E & Mv & _).
    rewrite E. cbn [bind]. apply (moved_Inv _ p r' l HI Hl Mv).
  - eexists. split; [reflexivity|]. split; [|split; cbn; auto].
    exists l. cbn. auto 10.
Qed.

Lemma playbackTimerEffect_fresh (v : View) (e : Env) (l : list PlaylistItem) :
  timerRef e = None -> timers e = [] ->
  items (playlist v) = Some l ->
  exists e', playbackTimerEffect v e = Ok e' /\ TimerInv v l e'
             /\ hasInitialized e' = hasInitialized e /\ cache e' = cache e
             /\ log e' = log e.
Proof.
  intros Tr T Hl. unfold playbackTimerEffect, heldItems, clearTimer.
  rewrite Tr, Hl.
  assert (Idle : isPlaying v = false \/ currentItem v = None \/ len l <= 1 ->
                 TimerInv v l e)
    by (intros H; unfold TimerInv; rewrite Tr; auto).
  destruct (isPlaying v) eqn:P.
  - destruct (currentItem v) as [item|] eqn:CI; cbn [bind].
    + destruct (Z.leb_spec (len l) 1) as [L|L].
      * exists e. auto 10.
      * eexists. split; [reflexivity|]. split; [|cbn; auto].
        unfold TimerInv. cbn. rewrite T, P, CI. repeat split; auto; try congruence.
        eexists. repeat split.
    + exists e. auto 10.
  - destruct (currentItem v); exists e; auto 10.
Qed.

Theorem mount_Inv (now : Z) (prop : Playlist) (ws : ConnectionStatus)
    (stored : option Playlist) (p : Player) :
  mount now prop ws stored = Ok p -> Inv p.
Proof.
  unfold mount, heldItems. cbn [playlist bind].
  destruct (items prop) as [l|] eqn:Hl; [cbn [bind]|discriminate].
  set (v0 := {| playlist := prop; currentIndex := Int 0; isPlaying := true;
                currentItem := nth_error (itemsOrEmpty prop) 0;
                nextItem := nth_error (itemsOrEmpty prop) 1;
                connectionStatus := connecting |}).
  set (e0 := {| timerRef := None; viewStartTime := now; hasInitialized := false;
                cache := stored; timers := []; nextTimerId := 1; log := [] |}).
  assert (Hoe : itemsOrEmpty prop = l) by (unfold itemsOrEmpty; now rewrite Hl).
  assert (Hn : normalize prop = prop) by (eapply normalize_present; eauto).
  assert (E1 : initialPlaylistEffect now v0 prop {| next := v0; env := e0 |}
               = install now (normalize prop) {| next := v0; env := e0 |}) by reflexivity.
  rewrite E1.
  destruct (install_post now prop {| next := v0; env := e0 |} eq_refl)
    as (P1 & P2 & P3 & P4 & P5 & P6 & P7 & P8 & P9).
  remember (install now (normalize prop) {| next := v0; env := e0 |}) as r1 eqn:Hr1.
  clear Hr1 E1.
  rewrite connectionEffect_no_substitution
    by (right; rewrite P6, Hn; reflexivity).
  set (r2 := withEnv (emit (ConnectionStatusChange ws)) (setConnectionStatus ws r1)).
  assert (D : timerDeps v0 = timerDeps (next r2)).
  { unfold timerDeps. cbn. rewrite P1, P2, P3, P4, Hn, Hoe. reflexivity. }
  destruct (playbackTimerEffect_fresh v0 (env r2) l) as (e & Ee & Ti & Ei & Ek & _);
    try (cbn; auto; fail).
  rewrite Ee. cbn [bind]. cbn in Ei, Ek.
  intros C.
  destruct (commit_Inv prop v0 {| next := next r2; env := e |} l) as (p' & C' & I' & _).
  - cbn. rewrite P1, Hn. exact Hl.
  - cbn. rewrite P3, P2, Hoe. reflexivity.
  - cbn. rewrite P2. apply Int_InRange, itemAt_zero_range.
  - cbn. congruence.
  - right. cbn. rewrite Ek, P6, P1. reflexivity.
  - eapply TimerInv_Sole; eauto.
  - intros _. eapply TimerInv_deps; eauto.
  - congruence.
Qed.

Theorem reachable_Inv (displayId : string) (p : Player) :
  reachable displayId p -> Inv p.
Proof.
  induction 1 as [now prop ws stored p M | now ev p p' _ IH S].
  - eapply mount_Inv; eauto.
  - destruct (step_Inv displayId now ev p IH) as (q & E & I & _). congruence.
Qed.

(** ** The dwell timer *)

Lemma Inv_items (p : Player) :
  Inv p -> items (playlist (view p)) = Some (itemsOrEmpty (playlist (view p))).
Proof.
  intros (l & Hl & _). unfold itemsOrEmpty. now rewrite Hl.
Qed.




Example lobby_has_timer :
  timerRef (world lobbyPlayer) = Some 1%nat
  /\ map (fun tm => (timerId tm, delay tm)) (timers (world lobbyPlayer)) = [(1%nat, 5000)].
Proof. split; reflexivity. Qed.

(** ** The [next] command *)

Lemma next_log (displayId : string) (now : Z) (v : View) (value : option Number)
    (r : Run) (l : list PlaylistItem) (item : PlaylistItem) :
  items (playlist v) = Some l -> 1 < len l -> currentItem v = Some item ->
  exists r' urls,
    handleRemoteControl displayId now v "next" value r = Ok r'
    /\ log (env r')
       = log (env r)
         ++ [TrackView displayId (playlist_id (playlist v)) (contentId item)
                       ((now - viewStartTime (env r) + 500) / 1000) (duration item)
                       false true;
             TrackView displayId (playlist_id (playlist v)) (contentId item)
                       ((now - viewStartTime (env r) + 500) / 1000) (duration item)
                       true false;
             CleanupMemory;
             PreloadContent urls;
             StatusUpdate (playState (isPlaying v))
                          (remainder (plus (currentIndex v) 1) (len l))].
Proof.
  intros Hl Hn Hc. unfold handleRemoteControl. cbn [String.eqb Ascii.eqb Bool.eqb].
  unfold moveToNextItem, heldItems, trackView. rewrite Hl, Hc. cbn [bind].
  destruct (Z.eqb_spec (len l) 0); [lia|].
  destruct (Z.eqb_spec (len l) 1); [lia|].
  eexists. eexists. split; [reflexivity|].
  cbn. rewrite <- !app_assoc. reflexivity.
Qed.

(** C10, as the code has it: each run of the handler of the remote [next]
    command on a render that holds two or more items and has a current item
    logs two view records for that item, first the skipped one of the
    command handler, then the completed one of [moveToNextItem], both with
    the same measured duration, followed by the memory cleanup, the preload
    and the status update with the index after the current one. *)
Theorem remote_next_tracks_twice (displayId : string) (now : Z) (value : option Number)
    (v : View) (r : Run) (l : list PlaylistItem) (item : PlaylistItem) :
  items (playlist v) = Some l ->
  (2 <= length l)%nat ->
  currentItem v = Some item ->
  exists r' urls,
    messageEffect displayId now v (control displayId "next" value) r = Ok r'
    /\ log (env r')
       = log (env r)
         ++ [TrackView displayId (playlist_id (playlist v)) (contentId item)
                       ((now - viewStartTime (env r) + 500) / 1000) (duration item)
                       false true;
             TrackView displayId (playlist_id (playlist v)) (contentId item)
                       ((now - viewStartTime (env r) + 500) / 1000) (duration item)
                       true false;
             CleanupMemory;
             PreloadContent urls;
             StatusUpdate (playState (isPlaying v))
                          (remainder (plus (currentIndex v) 1) (len l))].
Proof.
  intros Hl L2 Hc.
  assert (Hn : 1 < len l) by (unfold len; lia).
  destruct (next_log displayId now v value r l item Hl Hn Hc) as (r' & urls & E & Hlog).
  exists r', urls. split; [|exact Hlog].
  unfold control. cbn [messageEffect]. now rewrite String.eqb_refl.
Qed.

Lemma remote_next_witness :
  exists r' urls,
    messageEffect "d1" 2000 (view lobbyPlayer) (control "d1" "next" None)
                  (runOf lobbyPlayer) = Ok r'
    /\ log (env r')
       = log (env (runOf lobbyPlayer))
         ++ [TrackView "d1" (playlist_id (playlist (view lobbyPlayer)))
                       (contentId (sampleItem "a" 0 5))
                       ((2000 - viewStartTime (env (runOf lobbyPlayer)) + 500) / 1000)
                       (duration (sampleItem "a" 0 5)) false true;
             TrackView "d1" (playlist_id (playlist (view lobbyPlayer)))
                       (contentId (sampleItem "a" 0 5))
                       ((2000 - viewStartTime (env (runOf lobbyPlayer)) + 500) / 1000)
                       (duration (sampleItem "a" 0 5)) true false;
             CleanupMemory;
             PreloadContent urls;
             StatusUpdate (playState (isPlaying (view lobbyPlayer)))
                          (remainder (plus (currentIndex (view lobbyPlayer)) 1)
                                     (len (itemsOrEmpty lobby)))].
Proof.
  apply (remote_next_tracks_twice "d1" 2000 None (view lobbyPlayer) (runOf lobbyPlayer)
           (itemsOrEmpty lobby) (sampleItem "a" 0 5)).
  - reflexivity.
  - cbn. lia.
  - reflexivity.
Defined.

(** C10 fails as stated: after a seek to the position between its second
    and third item the player of [lobby] holds three items and no current
    item; the [next] command then finds nothing to record at the guard of
    [trackView] and logs neither a skipped nor a completed view. *)
Lemma next_without_item_tracks_nothing :
  length (itemsOrEmpty (playlist (view betweenPlayer))) = 3%nat
  /\ currentItem (view betweenPlayer) = None
  /\ exists r',
       messageEffect "d1" 3000 (view betweenPlayer) (control "d1" "next" None)
                     (runOf betweenPlayer) = Ok r'
       /\ log (env r')
          = log (world betweenPlayer)
            ++ [CleanupMemory;
                PreloadContent [];
                StatusUpdate playing (Frac 2 half)].
Proof.
  split; [reflexivity|]. split; [reflexivity|].
  eexists. split; reflexivity.
Qed.

(** ** Retiring the timer of the render that is left *)

Lemma Retired_Grows (t : nat) (e e' : Env) : Retired t e -> Grows e e' -> Retired t e'.
Proof.
  intros [R1 R2] [G1 G2]. split; [lia|]. apply Forall_forall. intros tm Hin.
  destruct (G2 tm Hin) as [F|F]; [|lia].
  rewrite Forall_forall in R2. now apply R2.
Qed.

Lemma Retired_pending (t : nat) (e : Env) : Retired t e -> pending t e = None.
Proof.
  intros [_ R]. unfold pending. induction R as [|tm l H _ IH]; [reflexivity|].
  cbn. destruct (Nat.eqb_spec (timerId tm) t); [lia | exact IH].
Qed.

Lemma run_Retired (displayId : string) (t : nat) (evs : list (Z * Event)) :
  forall p p'', Inv p -> Retired t (world p) -> run displayId evs p = Ok p'' ->
                Inv p'' /\ Retired t (world p'').
Proof.
  induction evs as [|[now ev] evs IH]; intros p p'' HI HR; cbn [run].
  - intros E. injection E as <-. auto.
  - destruct (step_Inv displayId now ev p HI) as (p' & E & I' & G).
    rewrite E. cbn [bind]. apply IH; [exact I'|]. eapply Retired_Grows; eauto.
Qed.

Lemma pending_cancel (t : nat) (l : list Timer) :
  find (fun tm => Nat.eqb (timerId tm) t) (cancel t l) = None.
Proof.
  unfold cancel. induction l as [|tm l IH]; [reflexivity|].
  cbn. destruct (Nat.eqb (timerId tm) t) eqn:E; cbn; [exact IH|].
  now rewrite E.
Qed.

Lemma find_last (f : Timer -> bool) (l : list Timer) (tm : Timer) :
  find f l = None -> f tm = false -> find f (l ++ [tm]) = None.
Proof.
  intros H F. induction l as [|x l IH]; cbn in *; [now rewrite F|].
  destruct (f x); [discriminate | now apply IH].
Qed.

Lemma clearTimer_pending (e : Env) (t : nat) :
  timerRef e = Some t ->
  timerRef (clearTimer e) = None /\ pending t (clearTimer e) = None
  /\ nextTimerId (clearTimer e) = nextTimerId e.
Proof.
  intros Tr. unfold clearTimer, pending. rewrite Tr. cbn.
  split; [reflexivity|]. split; [apply pending_cancel | reflexivity].
Qed.

Lemma install_timers (now : Z) (c : Playlist) (r : Run) :
  timerRef (env (install now c r)) = None
  /\ timers (env (install now c r)) = timers (clearTimer (env r)).
Proof.
  unfold install.
  destruct (Nat.ltb 0 (length (applyPreloadUrls (itemsOrEmpty c))));
    cbn; split; try reflexivity; apply timerRef_clearTimer.
Qed.

Lemma moveToNextItem_kept (displayId : string) (now : Z) (v : View) (r r' : Run) :
  moveToNextItem displayId now v r = Ok r' -> EnvKept (env r) (env r').
Proof.
  unfold moveToNextItem, heldItems. destruct (items (playlist v)) as [l|];
    [cbn [bind]|discriminate].
  destruct (len l =? 0); [intros E; injection E as <-; apply EnvKept_refl|].
  destruct (len l =? 1); [intros E; injection E as <-; kept|].
  intros E. injection E as <-.
  destruct (trackView_frame displayId now v true false r) as [_ F].
  eapply EnvKept_trans; [exact F|]. kept.
Qed.

Lemma handleRemoteControl_kept (displayId : string) (now : Z) (v : View)
    (action : string) (value : option Number) (r r' : Run) :
  handleRemoteControl displayId now v action value r = Ok r' ->
  EnvKept (env r) (env r').
Proof.
  unfold handleRemoteControl, moveToPreviousItem, heldItems.
  destruct (action =? "play")%string; [intros E; injection E as <-; kept|].
  destruct (action =? "pause")%string; [intros E; injection E as <-; kept|].
  destruct (action =? "stop")%string.
  { destruct (items (playlist v)); [cbn [bind]|discriminate].
    intros E. injection E as <-. kept. }
  destruct (action =? "restart")%string.
  { destruct (items (playlist v)); [cbn [bind]|discriminate].
    intros E. injection E as <-. kept. }
  destruct (action =? "next")%string.
  { intros E. apply moveToNextItem_kept in E.
    destruct (trackView_frame displayId now v false true r) as [_ F].
    eapply EnvKept_trans; eauto. }
  destruct (action =? "previous")%string.
  { destruct (items (playlist v)); [cbn [bind]|discriminate].
    intros E. injection E as <-.
    destruct (trackView_frame displayId now v false true r) as [_ F].
    eapply EnvKept_trans; [exact F|]. kept. }
  destruct (action =? "seek")%string; [|intros E; injection E as <-; apply EnvKept_refl].
  destruct value as [i|]; [|intros E; injection E as <-; apply EnvKept_refl].
  destruct (whole i <? 0); [intros E; injection E as <-; apply EnvKept_refl|].
  destruct (items (playlist v)) as [l|]; [cbn [bind]|discriminate].
  destruct (whole i <? len l); intros E; injection E as <-;
    [kept | apply EnvKept_refl].
Qed.

Lemma playbackTimerEffect_cancels (v : View) (e e' : Env) (t : nat) :
  playbackTimerEffect v e = Ok e' ->
  timerRef e = Some t -> (t < nextTimerId e)%nat ->
  pending t e' = None.
Proof.
  intros E Tr Lt. destruct (clearTimer_pending e t Tr) as (_ & P & Nx).
  unfold playbackTimerEffect, heldItems in E.
  assert (Arm : forall ms, pending t (armTimer ms v (clearTimer e)) = None).
  { intros ms. unfold pending in *. cbn [armTimer timers].
    apply find_last; [exact P|]. cbn. rewrite Nx.
    destruct (Nat.eqb_spec (nextTimerId e) t); [lia | reflexivity]. }
  destruct (isPlaying v); [|injection E as <-; exact P].
  destruct (currentItem v) as [item|]; [|injection E as <-; exact P].
  destruct (items (playlist v)) as [l|]; [cbn [bind] in E|discriminate].
  destruct (len l <=? 1); injection E as <-; [exact P | apply Arm].
Qed.

Lemma still_pending_is_Retired (p : Player) (t : nat) :
  Inv p -> (t < nextTimerId (world p))%nat -> pending t (world p) = None ->
  Retired t (world p).
Proof.
  intros (l & _ & _ & _ & _ & _ & Ht) Lt Pn. split; [exact Lt|].
  unfold TimerInv in Ht. destruct (timerRef (world p)) as [t0|].
  - destruct Ht as (Hn & _ & _ & _ & tm & T & Hid & _). rewrite T.
    constructor; [|constructor].
    unfold pending in Pn. rewrite T in Pn. cbn in Pn.
    destruct (Nat.eqb_spec (timerId tm) t); [discriminate | lia].
  - destruct Ht as [T _]. rewrite T. constructor.
Qed.

(** C4, as the code has it.
    - [applyPlaylist] drops the candidate or installs it, and installing
      cancels the timeout the reference names within the same call, before
      the playlist it sets is rendered.
    - The playback effect, which React runs after a render that changed one
      of its dependencies, cancels the timeout the reference names before it
      arms another.
    - A timeout that is not pending in a reachable state is pending in no
      later state, so the runtime never delivers it.
    - The handler of a remote command cancels nothing: the reference and the
      pending timeouts are after it what they were before it.
    - A [seek] to a number from 0 up to the item count other than the
      current index makes that number the next index and changes the
      dependencies of the playback effect, so that effect runs after the
      render that follows. *)
Theorem timer_cancelled_by_apply_and_effect (displayId : string) :
  (forall now v c force r t,
     timerRef (env r) = Some t ->
     applyPlaylist now v (Some c) force r = r
     \/ (applyPlaylist now v (Some c) force r = install now (normalize c) r
         /\ timerRef (env (install now (normalize c) r)) = None
         /\ pending t (env (install now (normalize c) r)) = None))
  /\ (forall v e e' t,
        playbackTimerEffect v e = Ok e' ->
        timerRef e = Some t -> (t < nextTimerId e)%nat ->
        pending t e' = None)
  /\ (forall p t evs p'',
        reachable displayId p ->
        (t < nextTimerId (world p))%nat -> pending t (world p) = None ->
        run displayId evs p = Ok p'' ->
        pending t (world p'') = None
        /\ forall now, step displayId now (TimerFired t) p'' = Ok p'')
  /\ (forall now v action value r r',
        handleRemoteControl displayId now v action value r = Ok r' ->
        timerRef (env r') = timerRef (env r) /\ timers (env r') = timers (env r))
  /\ (forall now v i r l,
        items (playlist v) = Some l ->
        0 <= whole i < len l -> i <> currentIndex v ->
        exists r',
          handleRemoteControl displayId now v "seek" (Some i) r = Ok r'
          /\ currentIndex (next r') = i
          /\ timerDeps (next r') <> timerDeps v).
Proof.
  split; [|split; [|split; [|split]]].
  - intros now v c force r t Tr. unfold applyPlaylist.
    destruct (unchanged force v (env r) (normalize c)); [now left|]. right.
    split; [reflexivity|].
    destruct (install_timers now (normalize c) r) as [T1 T2].
    split; [exact T1|]. unfold pending. rewrite T2.
    now apply clearTimer_pending.
  - intros v e e' t. apply playbackTimerEffect_cancels.
  - intros p t evs p'' R Lt Pn Rn. apply reachable_Inv in R.
    pose proof (still_pending_is_Retired p t R Lt Pn) as Rt.
    destruct (run_Retired displayId t evs p p'' R Rt Rn) as [_ Rt''].
    pose proof (Retired_pending _ _ Rt'') as Pn''. split; [exact Pn''|].
    intros now. cbn [step]. now rewrite Pn''.
  - intros now v action value r r' E.
    apply handleRemoteControl_kept in E. destruct E as (E1 & E2 & _). auto.
  - intros now v i r l Hl Hi Hne. eexists.
    split; [apply (seek_in_range _ _ _ _ _ _ Hl Hi)|].
    split; [reflexivity|]. unfold timerDeps. cbn. congruence.
Qed.

(** C4 fails as stated: a [seek] to the index the player is already at
    changes no state, so no effect runs; timer 1, armed at the mount, stays
    pending and its delivery advances the player from index 0 to index 1. *)
Lemma seek_to_current_index_keeps_timer :
  timerRef (world lobbyPlayer) = Some 1%nat
  /\ currentIndex (view lobbyPlayer) = Int 0
  /\ exists p1 p2,
       step "d1" 2000 (SocketMessage (Some (display_control "d1" "seek" (Some (Int 0)))))
            lobbyPlayer = Ok p1
       /\ currentIndex (view p1) = Int 0
       /\ option_map timerId (pending 1 (world p1)) = Some 1%nat
       /\ step "d1" 6000 (TimerFired 1) p1 = Ok p2
       /\ currentIndex (view p2) = Int 1.
Proof.
  split; [reflexivity|]. split; [reflexivity|].
  eexists. eexists. split; [vm_compute; reflexivity|].
  split; [reflexivity|]. split; [reflexivity|].
  split; [vm_compute; reflexivity | reflexivity].
Qed.

(** Between the handler of a [seek] and the effect of the render that
    follows, the timeout of the old render is pending; delivered then, it
    runs [moveToNextItem] of the old render and the next index is 1, not
    the 2 of the seek. *)
Example timeout_between_handler_and_effect :
  exists r1 tm r2,
    handleRemoteControl "d1" 2000 (view lobbyPlayer) "seek" (Some (Int 2))
                        (runOf lobbyPlayer) = Ok r1
    /\ currentIndex (next r1) = Int 2
    /\ pending 1 (env r1) = Some tm
    /\ moveToNextItem "d1" 2001 (closure tm) (withEnv (deliver 1) r1) = Ok r2
    /\ currentIndex (next r2) = Int 1.
Proof.
  eexists. eexists. eexists. split; [reflexivity|]. split; [reflexivity|].
  split; [reflexivity|]. split; reflexivity.
Qed.

(** ** The polling page *)

Lemma option_nat_eqb_eq (a b : option nat) : Page.option_nat_eqb a b = true <-> a = b.
Proof.
  destruct a as [x|], b as [y|]; cbn; try (split; congruence).
  rewrite Nat.eqb_eq. split; congruence.
Qed.

Lemma count_drift_shows (held fetched : Playlist) :
  length (itemsOrEmpty held) <> length (itemsOrEmpty fetched) ->
  Page.itemsLength held <> Page.itemsLength fetched.
Proof.
  unfold Page.itemsLength, itemsOrEmpty.
  destruct (items held), (items fetched); cbn; congruence.
Qed.

Lemma fetchDisplay_reloads (s : Page.State)
    (data : Page.Display) (held fetched : Playlist) :
  Page.playlist s = Some held ->
  Page.assignedPlaylist data = Some fetched ->
  length (itemsOrEmpty held) <> length (itemsOrEmpty fetched) ->
  Page.fetchDisplay true (Page.Json data) s
  = (s, [Page.RemoveItem
           (Page.cacheKey (Page.display s));
         Page.Reload 100]).
Proof.
  intros Hh Hf L. unfold Page.fetchDisplay, Page.playlistChanged.
  rewrite Hh, Hf. cbn [andb]. apply count_drift_shows in L.
  destruct (Page.option_nat_eqb (Page.itemsLength held)
              (Page.itemsLength fetched)) eqn:E.
  - apply option_nat_eqb_eq in E. contradiction.
  - cbn [negb]. now rewrite orb_true_r.
Qed.

Lemma fetchDisplay_in_place (s : Page.State)
    (data : Page.Display) (held fetched : Playlist) :
  Page.playlist s = Some held ->
  Page.assignedPlaylist data = Some fetched ->
  playlist_id held = playlist_id fetched ->
  Page.itemsLength held = Page.itemsLength fetched ->
  Page.fetchDisplay true (Page.Json data) s
  = ({| Page.display := Some data;
        Page.playlist := Some fetched;
        Page.loading := false;
        Page.error := None |}, []).
Proof.
  intros Hh Hf Ei El. unfold Page.fetchDisplay, Page.playlistChanged.
  rewrite Hh, Hf. cbn [andb]. rewrite Ei, String.eqb_refl.
  apply option_nat_eqb_eq in El. rewrite El. reflexivity.
Qed.

(** C6: when the page holds a playlist and a poll response carries one, a
    different item count makes [Page.fetchDisplay] clear the stored playlist and
    schedule the page reload, leaving the page state as it was, whatever
    the items are; with the same playlist id and the same
    [items?.length], the response is taken in place and nothing is
    reloaded. *)
Theorem poll_count_drift_reloads (s : Page.State) (data : Page.Display)
    (held fetched : Playlist) :
  Page.playlist s = Some held ->
  Page.assignedPlaylist data = Some fetched ->
  (length (itemsOrEmpty held) <> length (itemsOrEmpty fetched) ->
     Page.fetchDisplay true (Page.Json data) s
     = (s, [Page.RemoveItem (Page.cacheKey (Page.display s)); Page.Reload 100]))
  /\ (playlist_id held = playlist_id fetched ->
      Page.itemsLength held = Page.itemsLength fetched ->
      Page.fetchDisplay true (Page.Json data) s
      = ({| Page.display := Some data; Page.playlist := Some fetched;
            Page.loading := false; Page.error := None |}, [])).
Proof.
  intros Hh Hf. split.
  - now apply fetchDisplay_reloads.
  - now apply fetchDisplay_in_place.
Qed.

Lemma poll_count_drift_witness :
  Page.fetchDisplay true
    (Page.Json {| Page.display_id := "d1"; Page.assignedPlaylist := Some lobbyShort |})
    lobbyPage
  = (lobbyPage, [Page.RemoveItem "isodisplay_playlist_d1"; Page.Reload 100]).
Proof.
  apply (proj1 (poll_count_drift_reloads lobbyPage
                  {| Page.display_id := "d1"; Page.assignedPlaylist := Some lobbyShort |}
                  lobby lobbyShort eq_refl eq_refl)).
  cbn. discriminate.
Defined.

Example poll_in_place :
  Page.fetchDisplay true
    (Page.Json {| Page.display_id := "d1"; Page.assignedPlaylist := Some lobbyRefreshed |})
    lobbyPage
  = ({| Page.display :=
          Some {| Page.display_id := "d1"; Page.assignedPlaylist := Some lobbyRefreshed |};
        Page.playlist := Some lobbyRefreshed;
        Page.loading := false; Page.error := None |}, []).
Proof. reflexivity. Qed.

(** ** Precedence of the poll *)




(** * Further properties of the player *)

Lemma commit_frame (prop : Playlist) (v : View) (r : Run) (p' : Player) :
  commit prop v r = Ok p' ->
  view p' = next r /\ initialPlaylist p' = prop
  /\ log (world p') = log (env r)
  /\ viewStartTime (world p') = viewStartTime (env r)
  /\ cache (world p') = cache (env r)
  /\ hasInitialized (world p') = hasInitialized (env r).
Proof.
  unfold commit, heldItems. destruct (items (playlist (next r))) as [l|] eqn:Hl;
    [cbn [bind]|discriminate].
  destruct (Deps_eq_dec (timerDeps v) (timerDeps (next r))) as [E|N]; cbn [bind].
  - intros H. injection H as <-. cbn. auto 10.
  - unfold playbackTimerEffect, heldItems. rewrite Hl.
    assert (C : forall e, viewStartTime (clearTimer e) = viewStartTime e
                          /\ cache (clearTimer e) = cache e
                          /\ hasInitialized (clearTimer e) = hasInitialized e)
      by (intros e; unfold clearTimer; destruct (timerRef e); cbn; auto).
    destruct (C (env r)) as (C1 & C2 & C3).
    destruct (isPlaying (next r)); [destruct (currentItem (next r))|]; cbn [bind];
      try destruct (len l <=? 1); cbn [bind];
      intros H; injection H as <-; cbn; rewrite ?log_clearTimer; auto 10.
Qed.

Lemma step_remote (displayId : string) (now : Z) (p : Player)
    (action : string) (value : option Number) :
  step displayId now (remote displayId action value) p
  = bind (handleRemoteControl displayId now (view p) action value (runOf p))
         (commit (initialPlaylist p) (view p)).
Proof.
  unfold remote. cbn [step messageEffect]. now rewrite String.eqb_refl.
Qed.

Lemma Inv_list (p : Player) (l : list PlaylistItem) :
  Inv p -> items (playlist (view p)) = Some l ->
  currentItem (view p) = itemOf l (currentIndex (view p))
  /\ InRange l (currentIndex (view p))
  /\ TimerInv (view p) l (world p).
Proof.
  intros (l0 & Hl & Hc & Hr & _ & _ & Ht) Hl'.
  assert (l0 = l) by congruence. subst l0. auto.
Qed.

Lemma Inv_armed (p : Player) (l : list PlaylistItem) :
  Inv p -> items (playlist (view p)) = Some l ->
  (isPlaying (view p) = true -> currentItem (view p) <> None -> 1 < len l ->
   exists tm, timers (world p) = [tm] /\ timerRef (world p) = Some (timerId tm)
              /\ timerDeps (closure tm) = timerDeps (view p))
  /\ (isPlaying (view p) = false \/ currentItem (view p) = None \/ len l <= 1 ->
      timers (world p) = [] /\ timerRef (world p) = None).
Proof.
  intros HI Hl. destruct (Inv_list p l HI Hl) as (_ & _ & Ht).
  unfold TimerInv in Ht. destruct (timerRef (world p)) as [t|].
  - destruct Ht as (_ & P & C & L & tm & T & <- & D). split.
    + intros _ _ _. exists tm. auto.
    + intros [F|[F|F]]; [congruence | contradiction | lia].
  - destruct Ht as [T H]. split; [|auto].
    intros P C L. destruct H as [H|[H|H]]; [congruence | contradiction | lia].
Qed.

Lemma itemOf_empty (n : Number) : itemOf [] n = None.
Proof.
  destruct n as [z|z f]; [|reflexivity]. cbn. unfold itemAt.
  destruct (z <? 0); [reflexivity | now destruct (Z.to_nat z)].
Qed.



(** X2: no event makes a handler, the render or the timer effect of a
    reachable player raise: every step from a reachable state returns a
    player, and so does every sequence of steps. *)
Theorem reachable_never_throws (displayId : string) (p : Player) :
  reachable displayId p ->
  (forall now ev, exists p', step displayId now ev p = Ok p')
  /\ (forall evs, exists p', run displayId evs p = Ok p' /\ reachable displayId p').
Proof.
  intros R. split.
  - intros now ev. apply reachable_Inv in R.
    destruct (step_Inv displayId now ev p R) as (p' & E & _). eauto.
  - intros evs. revert p R. induction evs as [|[now ev] evs IH]; intros p R.
    + exists p. split; [reflexivity | exact R].
    + destruct (step_Inv displayId now ev p (reachable_Inv _ _ R)) as (p1 & E & _).
      destruct (IH p1 (reach_step _ _ _ _ _ R E)) as (p' & Rn & R').
      exists p'. cbn [run]. rewrite E. cbn [bind]. auto.
Qed.

Lemma reachable_never_throws_witness :
  (forall now ev, exists p', step "d1" now ev lobbyPlayer = Ok p')
  /\ (forall evs, exists p', run "d1" evs lobbyPlayer = Ok p' /\ reachable "d1" p').
Proof.
  apply (reachable_never_throws "d1" lobbyPlayer).
  apply (reach_mount "d1" 1000 lobby connecting None). reflexivity.
Defined.

(** ** The delay of the dwell timer *)

Lemma clearTimer_incl (e : Env) (tm : Timer) :
  In tm (timers (clearTimer e)) -> In tm (timers e).
Proof.
  unfold clearTimer. destruct (timerRef e); cbn; [|auto].
  unfold cancel. intros H. apply filter_In in H. tauto.
Qed.

Lemma playbackTimerEffect_origin (v : View) (e e' : Env) (tm : Timer) :
  playbackTimerEffect v e = Ok e' -> In tm (timers e') ->
  In tm (timers e) \/ (WellArmed tm /\ closure tm = v).
Proof.
  unfold playbackTimerEffect, heldItems.
  destruct (isPlaying v); [destruct (currentItem v) as [item|] eqn:CI|];
    try (intros H; injection H as <-; intros Hin; left; now apply clearTimer_incl).
  destruct (items (playlist v)) as [l|]; [cbn [bind]|discriminate].
  destruct (len l <=? 1);
    intros H; injection H as <-; intros Hin;
    [left; now apply clearTimer_incl|].
  cbn [armTimer timers] in Hin. apply in_app_or in Hin. destruct Hin as [Hin|[<-|[]]].
  - left. now apply clearTimer_incl.
  - right. split; [|reflexivity]. exists item. cbn. auto.
Qed.

Lemma commit_origin (prop : Playlist) (v : View) (r : Run) (p' : Player) (tm : Timer) :
  commit prop v r = Ok p' -> In tm (timers (world p')) ->
  In tm (timers (env r)) \/ (WellArmed tm /\ closure tm = view p').
Proof.
  unfold commit. destruct (heldItems (next r)); [cbn [bind]|discriminate].
  destruct (Deps_eq_dec (timerDeps v) (timerDeps (next r))); cbn [bind].
  - intros H. injection H as <-. cbn. auto.
  - destruct (playbackTimerEffect (next r) (env r)) as [e|] eqn:E; [cbn [bind]|discriminate].
    intros H. injection H as <-. cbn [world view].
    now apply (playbackTimerEffect_origin _ _ _ _ E).
Qed.

Lemma step_origin (displayId : string) (now : Z) (ev : Event) (p p' : Player)
    (tm : Timer) :
  Inv p -> step displayId now ev p = Ok p' -> In tm (timers (world p')) ->
  In tm (timers (world p)) \/ (WellArmed tm /\ closure tm = view p').
Proof.
  intros HI. pose proof HI as (l & Hl & Hc & Hr & Hi & Hk & Ht).
  pose proof (Inv_Sole p HI) as Hs.
  assert (Reconciled : forall prop c,
             commit prop (view p) (initialPlaylistEffect now (view p) c (runOf p)) = Ok p' ->
             In tm (timers (world p')) ->
             In tm (timers (world p)) \/ (WellArmed tm /\ closure tm = view p')).
  { intros prop c C Hin.
    destruct (initialPlaylistEffect_cases now (view p) c (runOf p) Hi) as [[E _]|[E _]];
      rewrite E in C; destruct (commit_origin _ _ _ _ _ C Hin) as [F|F]; auto.
    destruct (install_post now c (runOf p) Hs) as (_ & _ & _ & _ & _ & _ & _ & P8 & _).
    rewrite P8 in F. contradiction. }
  assert (Kept : forall r', EnvKept (world p) (env r') ->
             commit (initialPlaylist p) (view p) r' = Ok p' ->
             In tm (timers (world p')) ->
             In tm (timers (world p)) \/ (WellArmed tm /\ closure tm = view p')).
  { intros r' (_ & K2 & _) C Hin.
    destruct (commit_origin _ _ _ _ _ C Hin) as [F|F]; auto. rewrite K2 in F. auto. }
  destruct ev as [q| |ws|m|t|key| |]; cbn [step]; fold (runOf p).
  - apply Reconciled.
  - apply Reconciled.
  - rewrite connectionEffect_no_substitution by exact Hk. apply Kept. kept.
  - destruct m as [[ids np|target action value|target|]|]; cbn [messageEffect bind];
      try (apply Kept; apply EnvKept_refl).
    + destruct (includes ids displayId); cbn [bind]; [|apply Kept; apply EnvKept_refl].
      destruct np as [c|]; [|apply Kept; apply EnvKept_refl].
      intros C Hin.
      destruct (applyPlaylist_cases now (view p) c (runOf p) Hi) as [[E _]|[E _]];
        rewrite E in C; destruct (commit_origin _ _ _ _ _ C Hin) as [F|F]; auto.
      destruct (install_post now c (runOf p) Hs) as (_ & _ & _ & _ & _ & _ & _ & P8 & _).
      rewrite P8 in F. contradiction.
    + destruct (target =? displayId)%string; cbn [bind]; [|apply Kept; apply EnvKept_refl].
      destruct (handleRemoteControl_Moved displayId now (view p) action value (runOf p) l
                  Hl Hr) as (r' & E & K & _).
      rewrite E. cbn [bind]. now apply Kept.
    + destruct (match target with
                | AllDisplays => true
                | DisplayIds ids => includes ids displayId
                end); cbn [bind]; [|apply Kept; apply EnvKept_refl].
      apply Kept. kept.
  - destruct (pending t (world p)) as [tm0|] eqn:Pn;
      [|intros H; injection H as <-; auto].
    destruct (pending_found _ _ _ Pn) as [Hin0 _].
    destruct (Inv_armed p l HI Hl) as [_ Idle].
    assert (D : timerDeps (closure tm0) = timerDeps (view p)).
    { unfold TimerInv in Ht. destruct (timerRef (world p)).
      - destruct Ht as (_ & _ & _ & _ & tm1 & T & _ & D). rewrite T in Hin0.
        destruct Hin0 as [<-|[]]. exact D.
      - destruct Ht as [T _]. rewrite T in Hin0. contradiction. }
    assert (Hlc : items (playlist (closure tm0)) = Some l)
      by (unfold timerDeps in D; congruence).
    assert (Hrc : InRange l (currentIndex (closure tm0))).
    { assert (Ei : currentIndex (closure tm0) = currentIndex (view p))
        by (unfold timerDeps in D; congruence).
      rewrite Ei. exact Hr. }
    destruct (moveToNextItem_Moved displayId now (closure tm0)
                (withEnv (deliver t) (runOf p)) l Hlc Hrc)
      as (r' & E & ((_ & K2 & _) & _) & _).
    rewrite E. cbn [bind]. intros C Hin.
    destruct (commit_origin _ _ _ _ _ C Hin) as [F|F]; auto.
    left. rewrite K2 in F. cbn in F. unfold cancel in F. apply filter_In in F. tauto.
  - destruct (handleKeyPress_Moved displayId now (view p) key (runOf p) l Hl Hr)
      as (r' & E & K & _).
    rewrite E. cbn [bind]. now apply Kept.
  - destruct (moveToNextItem_Moved displayId now (view p) (runOf p) l Hl Hr)
      as (r' & E & (K & _) & _).
    rewrite E. cbn [bind]. now apply Kept.
  - intros H. injection H as <-. cbn. auto.
Qed.

Lemma mount_WellArmed (now : Z) (prop : Playlist) (ws : ConnectionStatus)
    (stored : option Playlist) (p : Player) :
  mount now prop ws stored = Ok p -> Forall WellArmed (timers (world p)).
Proof.
  unfold mount. destruct (heldItems _); [cbn [bind]|discriminate].
  set (v0 := {| playlist := prop; currentIndex := Int 0; isPlaying := true;
                currentItem := nth_error (itemsOrEmpty prop) 0;
                nextItem := nth_error (itemsOrEmpty prop) 1;
                connectionStatus := connecting |}).
  set (r0 := {| next := v0;
                env := {| timerRef := None; viewStartTime := now;
                          hasInitialized := false; cache := stored; timers := [];
                          nextTimerId := 1; log := [] |} |}).
  assert (E1 : initialPlaylistEffect now v0 prop r0 = install now (normalize prop) r0)
    by reflexivity.
  rewrite E1.
  destruct (install_post now prop r0 eq_refl) as (_ & _ & _ & _ & _ & _ & P7 & P8 & _).
  remember (install now (normalize prop) r0) as r1 eqn:Hr1. clear Hr1 E1.
  assert (T2 : timers (env (connectionEffect v0 ws r1)) = []).
  { unfold connectionEffect, getCachedPlaylist.
    destruct ws; cbn; try exact P8;
      destruct (cache (env r1)); try exact P8;
      match goal with |- context [if ?c then _ else _] => destruct c end; exact P8. }
  destruct (playbackTimerEffect v0 (env (connectionEffect v0 ws r1))) as [e|] eqn:Ee;
    [cbn [bind]|discriminate].
  intros C. apply Forall_forall. intros tm Hin.
  destruct (commit_origin _ _ _ _ _ C Hin) as [F|[F _]]; [|exact F].
  cbn [env] in F.
  destruct (playbackTimerEffect_origin _ _ _ _ Ee F) as [G|[G _]]; [|exact G].
  rewrite T2 in G. contradiction.
Qed.

(** X3: in every reachable state a pending timeout was armed with the
    dwell time of the current item, in milliseconds, and it is the timeout
    the timer reference names. *)
Theorem timer_carries_current_duration (displayId : string) (p : Player) (tm : Timer) :
  reachable displayId p ->
  In tm (timers (world p)) ->
  timerRef (world p) = Some (timerId tm)
  /\ exists item, currentItem (view p) = Some item
                  /\ delay tm = duration item * 1000.
Proof.
  intros R Hin.
  assert (W : Forall WellArmed (timers (world p))).
  { clear Hin. induction R as [now prop ws stored p M | now ev p p' R IH S].
    - eapply mount_WellArmed; eauto.
    - apply Forall_forall. intros tm' Hin'.
      destruct (step_origin displayId now ev p p' tm' (reachable_Inv _ _ R) S Hin')
        as [F|[F _]]; [|exact F].
      rewrite Forall_forall in IH. auto. }
  rewrite Forall_forall in W. destruct (W tm Hin) as (item & Hc & Hd).
  apply reachable_Inv in R. destruct R as (l & _ & _ & _ & _ & _ & Ht).
  unfold TimerInv in Ht. destruct (timerRef (world p)).
  - destruct Ht as (_ & _ & _ & _ & tm0 & T & <- & D). rewrite T in Hin.
    destruct Hin as [<-|[]]. split; [reflexivity|]. exists item.
    unfold timerDeps in D. split; [congruence | exact Hd].
  - destruct Ht as [T _]. rewrite T in Hin. contradiction.
Qed.

Lemma timer_carries_current_duration_witness :
  timerRef (world lobbyPlayer)
  = Some (timerId {| timerId := 1; delay := 5000; closure := view lobbyPlayer |})
  /\ exists item, currentItem (view lobbyPlayer) = Some item
                  /\ delay {| timerId := 1; delay := 5000; closure := view lobbyPlayer |}
                     = duration item * 1000.
Proof.
  apply (timer_carries_current_duration "d1" lobbyPlayer).
  - apply (reach_mount "d1" 1000 lobby connecting None). reflexivity.
  - left. reflexivity.
Defined.

(** ** Mounting and reconciling *)

Lemma install_next (now : Z) (n : Playlist) (r : Run) :
  next (install now n r)
  = {| playlist := n; currentIndex := Int 0; isPlaying := isPlaying (next r);
       currentItem := nth_error (itemsOrEmpty n) 0;
       nextItem := nth_error (itemsOrEmpty n) 1;
       connectionStatus := connectionStatus (next r) |}.
Proof.
  unfold install. destruct (Nat.ltb 0 (length (applyPreloadUrls (itemsOrEmpty n))));
    reflexivity.
Qed.

Lemma install_env (now : Z) (n : Playlist) (r : Run) :
  viewStartTime (env (install now n r)) = now
  /\ cache (env (install now n r)) = Some n
  /\ hasInitialized (env (install now n r)) = true
  /\ log (env (install now n r))
     = log (env r)
       ++ (if Nat.ltb 0 (length (applyPreloadUrls (itemsOrEmpty n)))
           then [PreloadContent (applyPreloadUrls (itemsOrEmpty n))] else []).
Proof.
  unfold install. destruct (Nat.ltb 0 (length (applyPreloadUrls (itemsOrEmpty n))));
    cbn; rewrite log_clearTimer, ?app_nil_r; auto.
Qed.

(** X4: the first render raises a TypeError exactly when the playlist prop
    has no item list.  With an item list the player mounts playing at
    index 0 with the first two items as current and next item, overwrites
    whatever the cache slot held with the prop, and has a timeout pending
    exactly when there are two or more items, with the dwell time of the
    first item. *)
Theorem mount_needs_item_list (now : Z) (prop : Playlist) (ws : ConnectionStatus)
    (stored : option Playlist) :
  (items prop = None -> mount now prop ws stored = TypeError)
  /\ (forall l, items prop = Some l ->
      exists p,
        mount now prop ws stored = Ok p
        /\ view p = {| playlist := prop; currentIndex := Int 0; isPlaying := true;
                       currentItem := nth_error l 0; nextItem := nth_error l 1;
                       connectionStatus := ws |}
        /\ initialPlaylist p = prop
        /\ cache (world p) = Some prop
        /\ hasInitialized (world p) = true
        /\ viewStartTime (world p) = now
        /\ (1 < len l ->
            exists tm item, timers (world p) = [tm] /\ nth_error l 0 = Some item
                            /\ delay tm = duration item * 1000)
        /\ (len l <= 1 -> timers (world p) = [])).
Proof.
  split.
  - intros Hn. unfold mount, heldItems. cbn [playlist]. now rewrite Hn.
  - intros l Hl.
    assert (Hoe : itemsOrEmpty prop = l) by (unfold itemsOrEmpty; now rewrite Hl).
    assert (Hn : normalize prop = prop) by (eapply normalize_present; eauto).
    assert (Total : exists p, mount now prop ws stored = Ok p).
    { unfold mount, heldItems. cbn [playlist]. rewrite Hl. cbn [bind].
      match goal with
      | |- context [playbackTimerEffect ?v ?e] =>
          destruct (playbackTimerEffect_total v e l Hl) as (e' & Ee & _); rewrite Ee
      end.
      cbn [bind].
      match goal with
      | |- context [commit ?q ?v ?r] =>
          destruct (commit_total q v r l) as (e'' & C & _)
      end.
      - cbn [next]. unfold connectionEffect, getCachedPlaylist.
        assert (P : forall r, playlist (next r) = prop ->
                    playlist (next (setPlaylist prop r)) = prop) by reflexivity.
        match goal with
        | |- context [initialPlaylistEffect ?n ?v ?q ?r] =>
            change (initialPlaylistEffect n v q r) with (install n (normalize q) r)
        end.
        rewrite Hn.
        match goal with
        | |- context [install ?n ?q ?r] =>
            pose proof (install_next n q r) as Hnx;
            destruct (install_env n q r) as (_ & Hca & _);
            remember (install n q r) as r1 eqn:Hr1; clear Hr1
        end.
        cbn [withEnv env emit cache setConnectionStatus]. rewrite Hca.
        rewrite String.eqb_refl. cbn [negb].
        destruct ws; cbn; rewrite Hnx; cbn; exact Hl.
      - eauto. }
    destruct Total as (p & M). exists p. split; [exact M|].
    pose proof (mount_Inv _ _ _ _ _ M) as HI.
    pose proof (mount_WellArmed _ _ _ _ _ M) as W.
    unfold mount, heldItems in M. cbn [playlist] in M. rewrite Hl in M. cbn [bind] in M.
    change (initialPlaylistEffect now ?v prop ?r) with (install now (normalize prop) r) in M.
    rewrite Hn in M.
    match type of M with
    | context [install ?n ?q ?r] =>
        pose proof (install_next n q r) as Hnx;
        destruct (install_env n q r) as (Hvs & Hca & Hin & _);
        remember (install n q r) as r1 eqn:Hr1; clear Hr1
    end.
    rewrite connectionEffect_no_substitution in M by (right; now rewrite Hca).
    destruct (playbackTimerEffect _ _) as [e|] eqn:Ee in M; [cbn [bind] in M|discriminate].
    destruct (commit_frame _ _ _ _ M) as (F1 & F2 & _ & F4 & F5 & F6).
    assert (Hv : view p = {| playlist := prop; currentIndex := Int 0; isPlaying := true;
                             currentItem := nth_error l 0; nextItem := nth_error l 1;
                             connectionStatus := ws |}).
    { rewrite F1. cbn. rewrite Hnx. cbn. now rewrite Hoe. }
    assert (He : viewStartTime e = now /\ cache e = Some prop /\ hasInitialized e = true).
    { revert Ee. unfold playbackTimerEffect, clearTimer, heldItems.
      cbn [withEnv env emit setConnectionStatus timerRef].
      destruct (timerRef (env r1)); cbn [playlist isPlaying currentItem];
        destruct (nth_error (itemsOrEmpty prop) 0); rewrite ?Hl; cbn [bind];
        try destruct (len l <=? 1); intros H; injection H as <-; cbn; auto. }
    destruct He as (He1 & He2 & He3). cbn [env] in F4, F5, F6.
    split; [exact Hv|]. split; [exact F2|]. split; [congruence|].
    split; [congruence|]. split; [congruence|].
    assert (Hlv : items (playlist (view p)) = Some l) by (rewrite Hv; exact Hl).
    destruct (Inv_armed p l HI Hlv) as [Armed Idle]. split.
    + intros L.
      destruct Armed as (tm & T & _ & D); [rewrite Hv; reflexivity | | exact L|].
      { rewrite Hv. cbn [currentItem]. destruct l as [|x [|y l]]; cbn in L; try lia.
        discriminate. }
      rewrite T in W. apply Forall_inv in W. destruct W as (item & Hc & Hd).
      exists tm, item. split; [exact T|]. split; [|exact Hd].
      unfold timerDeps in D. rewrite Hv in D.
      cbn [currentItem] in D. congruence.
    + intros L. apply Idle. now right; right.
Qed.

Example mount_without_items :
  mount 1000 {| playlist_id := "lobby"; items := None |} connecting None = TypeError.
Proof. reflexivity. Qed.

Lemma includes_not_In (ids : list string) (x : string) :
  ~ In x ids -> includes ids x = false.
Proof.
  intros H. destruct (includes ids x) eqn:E; [|reflexivity].
  apply includes_In in E. contradiction.
Qed.

(** X5: a message that is not for this display changes nothing of a player
    that renders: a playlist update or an emergency stop whose id list does
    not name the display, a control message for another display, a message
    of another kind, no message at all, and a control message for this
    display whose action is none of the seven the player knows. *)
Theorem foreign_messages_are_ignored (displayId : string) (now : Z) (p : Player)
    (l : list PlaylistItem) :
  items (playlist (view p)) = Some l ->
  (forall ids np, ~ In displayId ids ->
     step displayId now (SocketMessage (Some (playlist_update ids np))) p = Ok p)
  /\ (forall target action value, target <> displayId ->
        step displayId now (SocketMessage (Some (display_control target action value))) p
        = Ok p)
  /\ (forall ids, ~ In displayId ids ->
        step displayId now (SocketMessage (Some (emergency_stop (DisplayIds ids)))) p
        = Ok p)
  /\ step displayId now (SocketMessage (Some other_message)) p = Ok p
  /\ step displayId now (SocketMessage None) p = Ok p
  /\ (forall action value,
        ~ In action ["play"; "pause"; "stop"; "restart"; "next"; "previous"; "seek"]%string ->
        step displayId now (remote displayId action value) p = Ok p).
Proof.
  intros Hl.
  assert (Same : commit (initialPlaylist p) (view p) {| next := view p; env := world p |}
                 = Ok p)
    by (rewrite (commit_same _ _ _ l Hl); now rewrite player_eta).
  repeat split.
  - intros ids np Hn. cbn [step messageEffect]. rewrite (includes_not_In _ _ Hn). exact Same.
  - intros target action value Hn. cbn [step messageEffect].
    apply String.eqb_neq in Hn. rewrite Hn. exact Same.
  - intros ids Hn. cbn [step messageEffect]. rewrite (includes_not_In _ _ Hn). exact Same.
  - exact Same.
  - exact Same.
  - intros action value Hn. rewrite step_remote. unfold handleRemoteControl.
    repeat match goal with
           | |- context [(action =? ?s)%string] =>
               destruct (String.eqb_spec action s) as [->|_];
               [exfalso; apply Hn; cbn; tauto|]
           end.
    exact Same.
Qed.

Lemma foreign_messages_witness :
  step "d1" 2000 (SocketMessage (Some (emergency_stop (DisplayIds ["d2"; "d3"]%string))))
       lobbyPlayer
  = Ok lobbyPlayer.
Proof.
  apply (proj1 (proj2 (proj2 (foreign_messages_are_ignored "d1" 2000 lobbyPlayer
                                (itemsOrEmpty lobby) eq_refl)))).
  cbn. intros [H|[H|[]]]; discriminate.
Defined.

(** X6: with the cache as one slot per display that only [applyPlaylist]
    fills, the slot of a reachable player is empty or holds the held
    playlist itself.  So a change of the channel status, also to
    [disconnected] or [error], never replaces the held playlist: the step
    only records the status and reports it. *)
Theorem status_change_keeps_playlist (displayId : string) (p : Player) :
  reachable displayId p ->
  (cache (world p) = None \/ cache (world p) = Some (playlist (view p)))
  /\ forall now ws,
       step displayId now (SocketStatus ws) p
       = Ok {| initialPlaylist := initialPlaylist p;
               view := {| playlist := playlist (view p);
                          currentIndex := currentIndex (view p);
                          isPlaying := isPlaying (view p);
                          currentItem := currentItem (view p);
                          nextItem := nextItem (view p);
                          connectionStatus := ws |};
               world := emit (ConnectionStatusChange ws) (world p) |}.
Proof.
  intros R. apply reachable_Inv in R. destruct R as (l & Hl & _ & _ & _ & Hk & _).
  split; [exact Hk|]. intros now ws. cbn [step].
  rewrite connectionEffect_no_substitution by exact Hk.
  unfold commit, heldItems. cbn. rewrite Hl. cbn [bind].
  destruct (Deps_eq_dec _ _) as [_|N]; [reflexivity|].
  exfalso. apply N. reflexivity.
Qed.

Lemma status_change_witness :
  (cache (world lobbyPlayer) = None
   \/ cache (world lobbyPlayer) = Some (playlist (view lobbyPlayer)))
  /\ forall now ws,
       step "d1" now (SocketStatus ws) lobbyPlayer
       = Ok {| initialPlaylist := initialPlaylist lobbyPlayer;
               view := {| playlist := playlist (view lobbyPlayer);
                          currentIndex := currentIndex (view lobbyPlayer);
                          isPlaying := isPlaying (view lobbyPlayer);
                          currentItem := currentItem (view lobbyPlayer);
                          nextItem := nextItem (view lobbyPlayer);
                          connectionStatus := ws |};
               world := emit (ConnectionStatusChange ws) (world lobbyPlayer) |}.
Proof.
  apply (status_change_keeps_playlist "d1" lobbyPlayer).
  apply (reach_mount "d1" 1000 lobby connecting None). reflexivity.
Defined.

(** ** A playlist update against the prop *)

(** X7: a playlist update over the socket lasts until the prop effect
    runs.  On an initialised player that holds the structure of its prop, a
    [playlist_update] for this display with a candidate of another
    structure installs the normalised candidate at index 0 and caches it;
    this changes [playlist], a dependency of the prop effect, and that
    effect, run on the render that shows the candidate, finds the prop
    different from the held playlist and installs the prop again. *)
Theorem prop_effect_undoes_socket_update (displayId : string) (now now' : Z)
    (v : View) (e : Env) (prop c : Playlist) (ids : list string) :
  hasInitialized e = true ->
  In displayId ids ->
  playlistKey prop = playlistKey (playlist v) ->
  playlistKey c <> playlistKey (playlist v) ->
  exists r1,
    messageEffect displayId now v (Some (playlist_update ids (Some c)))
                  {| next := v; env := e |} = Ok r1
    /\ next r1 = {| playlist := normalize c; currentIndex := Int 0;
                    isPlaying := isPlaying v;
                    currentItem := nth_error (itemsOrEmpty c) 0;
                    nextItem := nth_error (itemsOrEmpty c) 1;
                    connectionStatus := connectionStatus v |}
    /\ cache (env r1) = Some (normalize c)
    /\ playlist (next r1) <> playlist v
    /\ next (initialPlaylistEffect now' (next r1) prop r1)
       = {| playlist := normalize prop; currentIndex := Int 0;
            isPlaying := isPlaying v;
            currentItem := nth_error (itemsOrEmpty prop) 0;
            nextItem := nth_error (itemsOrEmpty prop) 1;
            connectionStatus := connectionStatus v |}
    /\ cache (env (initialPlaylistEffect now' (next r1) prop r1))
       = Some (normalize prop).
Proof.
  intros Hi Hin Kp Kc. set (r := {| next := v; env := e |}).
  exists (install now (normalize c) r).
  destruct (install_env now (normalize c) r) as (_ & E2 & E3 & _).
  pose proof (install_next now (normalize c) r) as Nx. cbn [r next] in Nx.
  assert (P1 : playlist (next (install now (normalize c) r)) = normalize c)
    by (now rewrite Nx).
  split.
  { cbn [messageEffect]. apply includes_In in Hin. rewrite Hin. f_equal.
    destruct (applyPlaylist_cases now v c r Hi) as [[_ K]|[A _]];
      [contradiction | exact A]. }
  split; [exact Nx|]. split; [exact E2|]. split.
  { rewrite P1. intros E. apply Kc. rewrite <- E. reflexivity. }
  set (r1 := install now (normalize c) r) in *.
  destruct (initialPlaylistEffect_cases now' (next r1) prop r1 E3) as [[_ K]|[A _]].
  { exfalso. apply Kc. rewrite <- Kp, K, P1. reflexivity. }
  rewrite A. destruct (install_env now' (normalize prop) r1) as (_ & F2 & _).
  split; [|exact F2]. rewrite install_next, Nx. reflexivity.
Qed.

Lemma prop_effect_witness :
  exists r1,
    messageEffect "d1" 2000 (view lobbyPlayer)
                  (Some (playlist_update ["d1"%string] (Some poster)))
                  {| next := view lobbyPlayer; env := world lobbyPlayer |} = Ok r1
    /\ next r1 = {| playlist := normalize poster; currentIndex := Int 0;
                    isPlaying := isPlaying (view lobbyPlayer);
                    currentItem := nth_error (itemsOrEmpty poster) 0;
                    nextItem := nth_error (itemsOrEmpty poster) 1;
                    connectionStatus := connectionStatus (view lobbyPlayer) |}
    /\ cache (env r1) = Some (normalize poster)
    /\ playlist (next r1) <> playlist (view lobbyPlayer)
    /\ next (initialPlaylistEffect 2001 (next r1) lobby r1)
       = {| playlist := normalize lobby; currentIndex := Int 0;
            isPlaying := isPlaying (view lobbyPlayer);
            currentItem := nth_error (itemsOrEmpty lobby) 0;
            nextItem := nth_error (itemsOrEmpty lobby) 1;
            connectionStatus := connectionStatus (view lobbyPlayer) |}
    /\ cache (env (initialPlaylistEffect 2001 (next r1) lobby r1))
       = Some (normalize lobby).
Proof.
  apply (prop_effect_undoes_socket_update "d1" 2000 2001 (view lobbyPlayer)
           (world lobbyPlayer) lobby poster ["d1"%string]).
  - reflexivity.
  - left. reflexivity.
  - reflexivity.
  - discriminate.
Defined.

(** ** Preloading *)

Lemma compact_In (l : list (option string)) (u : string) :
  In u (compact l) <-> u <> EmptyString /\ In (Some u) l.
Proof.
  induction l as [|[s|] l IH]; cbn [compact]; [cbn; tauto| |].
  - destruct s as [|a s]; cbn [truthy].
    + rewrite IH. cbn [In]. split; [tauto|]. intros (N & [E|H]); [congruence | tauto].
    + cbn [In]. rewrite IH. split.
      * intros [<-|H]; [split; [discriminate | auto] | tauto].
      * intros (N & [E|H]); [left; congruence | tauto].
  - rewrite IH. cbn [In]. split; [tauto|]. intros (N & [E|H]); [discriminate | tauto].
Qed.

Lemma compact_length (l : list (option string)) : (length (compact l) <= length l)%nat.
Proof.
  induction l as [|[s|] l IH]; cbn [compact]; [cbn; lia| |cbn; lia].
  destruct s; cbn [truthy length]; lia.
Qed.

(** X8: what [applyPlaylist] hands to the preloader are at most three
    URLs, and a URL is among them exactly when it is the non-empty file URL
    of one of the first three items whose content type is not "youtube". *)
Theorem apply_preloads_first_three_files (l : list PlaylistItem) (u : string) :
  (length (applyPreloadUrls l) <= 3)%nat
  /\ (In u (applyPreloadUrls l) <->
      u <> EmptyString
      /\ exists item, In item (firstn 3 l) /\ contentType item <> "youtube"%string
                      /\ fileUrl item = Some u).
Proof.
  unfold applyPreloadUrls. split.
  - etransitivity; [apply compact_length|]. rewrite length_map, length_firstn. lia.
  - rewrite compact_In, in_map_iff. split.
    + intros (N & item & E & Hin). split; [exact N|]. exists item. split; [exact Hin|].
      destruct (String.eqb_spec (contentType item) "youtube"); [discriminate|auto].
    + intros (N & item & Hin & Hy & E). split; [exact N|]. exists item.
      split; [|exact Hin]. apply String.eqb_neq in Hy. now rewrite Hy.
Qed.

(** ** Moving through the playlist

    What one run of a handler leaves for the next render, for a render at
    an integer index inside the item list. *)

Lemma rem_following (i n : Z) : 0 <= i < n -> Z.rem (i + 1) n = following i n.
Proof.
  intros H. unfold following. destruct (Z.eqb_spec (i + 1) n) as [E|E].
  - rewrite E. apply Z.rem_same. lia.
  - apply Z.rem_small. lia.
Qed.

Lemma following_range (i n : Z) : 0 <= i < n -> 0 <= following i n < n.
Proof. intros H. unfold following. destruct (Z.eqb_spec (i + 1) n); lia. Qed.

Lemma preceding_range (i n : Z) : 0 <= i < n -> 0 <= preceding i n < n.
Proof. intros H. unfold preceding. destruct (Z.eqb_spec i 0); lia. Qed.

Lemma preceding_following (i n : Z) :
  0 <= i < n -> 1 < n -> preceding (following i n) n = i.
Proof.
  intros H N. unfold preceding, following.
  destruct (Z.eqb_spec (i + 1) n); cbn; [lia|].
  destruct (Z.eqb_spec (i + 1) 0); lia.
Qed.

Lemma following_preceding (i n : Z) :
  0 <= i < n -> 1 < n -> following (preceding i n) n = i.
Proof.
  intros H N. unfold preceding, following.
  destruct (Z.eqb_spec i 0).
  - destruct (Z.eqb_spec (n - 1 + 1) n); lia.
  - destruct (Z.eqb_spec (i - 1 + 1) n); lia.
Qed.

Lemma control_runs (displayId : string) (now : Z) (v : View) (action : string)
    (value : option Number) (r : Run) :
  messageEffect displayId now v (control displayId action value) r
  = handleRemoteControl displayId now v action value r.
Proof. unfold control. cbn [messageEffect]. now rewrite String.eqb_refl. Qed.

Lemma moveToNextItem_view (displayId : string) (now : Z) (v : View) (r : Run)
    (l : list PlaylistItem) (i : Z) :
  items (playlist v) = Some l ->
  currentIndex v = Int i -> 0 <= i < len l ->
  exists r', moveToNextItem displayId now v r = Ok r'
             /\ next r' = advanced l i (next (trackView displayId now v true false r))
             /\ (len l <= 1 -> log (env r') = log (env r)).
Proof.
  intros Hl Hi Hr. unfold moveToNextItem, heldItems, advanced. rewrite Hl. cbn [bind].
  destruct (trackView_frame displayId now v true false r) as [F _].
  destruct (Z.eqb_spec (len l) 0) as [L0|L0]; [lia|].
  destruct (Z.eqb_spec (len l) 1) as [L1|L1].
  - eexists. split; [reflexivity|]. rewrite L1, F. cbn. auto.
  - destruct (Z.leb_spec (len l) 1); [lia|].
    eexists. split; [reflexivity|]. split; [|lia].
    cbn. rewrite Hi. cbn [plus remainder].
    rewrite (rem_following _ _ Hr).
    rewrite (rem_following _ _ (following_range _ _ Hr)). reflexivity.
Qed.

Lemma itemAt_in_range (l : list PlaylistItem) (i : Z) :
  0 <= i < len l ->
  exists item, itemAt l i = Some item /\ nth_error l (Z.to_nat i) = Some item.
Proof.
  intros H. destruct (itemAt_Some l i H) as (item & E). exists item.
  split; [exact E|]. rewrite <- E. symmetry. apply itemAt_nth. lia.
Qed.

(** X9: on a render at an integer index inside a list of items, one run of
    the remote [next] command, of the right arrow key and of
    [moveToNextItem] itself (the callback of the timeout and of the end of
    a video) leave the same next view: with two or more items the
    following position, from the last one back to position 0, with the
    item there as current item and the item after it, going round, as next
    item; with one item the view as it is. *)
Theorem advancing_goes_round (displayId : string) (now : Z) (v : View) (e : Env)
    (l : list PlaylistItem) (i : Z) (value : option Number) :
  items (playlist v) = Some l ->
  currentIndex v = Int i ->
  0 <= i < len l ->
  exists r1 r2 r3,
    messageEffect displayId now v (control displayId "next" value)
                  {| next := v; env := e |} = Ok r1
    /\ handleKeyPress displayId now v "ArrowRight" {| next := v; env := e |} = Ok r2
    /\ moveToNextItem displayId now v {| next := v; env := e |} = Ok r3
    /\ next r1 = advanced l i v /\ next r2 = advanced l i v /\ next r3 = advanced l i v
    /\ 0 <= following i (len l) < len l
    /\ (1 < len l ->
        exists item, currentItem (advanced l i v) = Some item
                     /\ nth_error l (Z.to_nat (following i (len l))) = Some item).
Proof.
  intros Hl Hi Hr. set (r := {| next := v; env := e |}).
  destruct (moveToNextItem_view displayId now v
              (trackView displayId now v false true r) l i Hl Hi Hr) as (r1 & E1 & V1 & _).
  destruct (moveToNextItem_view displayId now v r l i Hl Hi Hr) as (r3 & E3 & V3 & _).
  assert (T : forall c s r0, next (trackView displayId now v c s r0) = next r0).
  { intros c s r0. now destruct (trackView_frame displayId now v c s r0) as [-> _]. }
  exists r1, r1, r3. split.
  { rewrite control_runs. unfold handleRemoteControl.
    cbn [String.eqb Ascii.eqb Bool.eqb]. exact E1. }
  split.
  { unfold handleKeyPress. cbn [String.eqb Ascii.eqb Bool.eqb]. exact E1. }
  split; [exact E3|].
  rewrite V1, V3, !T. cbn [r next].
  do 3 (split; [reflexivity|]). split; [now apply following_range|].
  intros L. unfold advanced. destruct (Z.leb_spec (len l) 1); [lia|].
  cbn [currentItem]. apply itemAt_in_range. now apply following_range.
Qed.

Lemma advancing_witness :
  exists r1 r2 r3,
    messageEffect "d1" 2000 (view lobbyPlayer) (control "d1" "next" None)
                  {| next := view lobbyPlayer; env := world lobbyPlayer |} = Ok r1
    /\ handleKeyPress "d1" 2000 (view lobbyPlayer) "ArrowRight"
                      {| next := view lobbyPlayer; env := world lobbyPlayer |} = Ok r2
    /\ moveToNextItem "d1" 2000 (view lobbyPlayer)
                      {| next := view lobbyPlayer; env := world lobbyPlayer |} = Ok r3
    /\ next r1 = advanced (itemsOrEmpty lobby) 0 (view lobbyPlayer)
    /\ next r2 = advanced (itemsOrEmpty lobby) 0 (view lobbyPlayer)
    /\ next r3 = advanced (itemsOrEmpty lobby) 0 (view lobbyPlayer)
    /\ 0 <= following 0 (len (itemsOrEmpty lobby)) < len (itemsOrEmpty lobby)
    /\ (1 < len (itemsOrEmpty lobby) ->
        exists item,
          currentItem (advanced (itemsOrEmpty lobby) 0 (view lobbyPlayer)) = Some item
          /\ nth_error (itemsOrEmpty lobby)
                       (Z.to_nat (following 0 (len (itemsOrEmpty lobby)))) = Some item).
Proof.
  apply (advancing_goes_round "d1" 2000 (view lobbyPlayer) (world lobbyPlayer)
           (itemsOrEmpty lobby) 0 None).
  - reflexivity.
  - reflexivity.
  - vm_compute. split; [discriminate | reflexivity].
Defined.

Example advancing_from_the_last_item :
  match run "d1" [(2000, remote "d1" "seek" (Some (Int 2))); (3000, remote "d1" "next" None)]
            lobbyPlayer with
  | Ok q => (currentIndex (view q), option_map item_id (currentItem (view q)),
             option_map item_id (nextItem (view q)))
  | TypeError => (Int (-1), None, None)
  end = (Int 0, Some "a"%string, Some "b"%string).
Proof. reflexivity. Qed.

Lemma moveToPreviousItem_view (displayId : string) (now : Z) (v : View) (e : Env)
    (l : list PlaylistItem) (i : Z) :
  items (playlist v) = Some l ->
  currentIndex v = Int i ->
  exists r', moveToPreviousItem displayId now v {| next := v; env := e |} = Ok r'
             /\ next r' = retreated l i v
             /\ viewStartTime (env r') = now
             /\ log (env r')
                = log (env (trackView displayId now v false true {| next := v; env := e |}))
                  ++ [StatusUpdate (playState (isPlaying v)) (Int (preceding i (len l)))].
Proof.
  intros Hl Hi. unfold moveToPreviousItem, heldItems, retreated, preceding.
  rewrite Hl, Hi. cbn [bind isZero plus].
  eexists. split; [reflexivity|].
  destruct (trackView_frame displayId now v false true {| next := v; env := e |})
    as [F _].
  cbn. rewrite F. cbn.
  destruct (Z.eqb_spec i 0); cbn; replace (i + -1) with (i - 1) by lia; auto.
Qed.

(** X10: on a render at an integer index inside the item list that has a
    current item, one run of the remote [previous] command and one run of
    the left arrow key do the same: the next view is one position back,
    from position 0 at the last one, with the item there as current item;
    the next item and the play state stay; the view start time is reset; a
    skipped view record for the item that is left is sent, then the status
    with the new index. *)
Theorem retreating_goes_round (displayId : string) (now : Z) (v : View) (e : Env)
    (l : list PlaylistItem) (i : Z) (item : PlaylistItem) (value : option Number) :
  items (playlist v) = Some l ->
  currentIndex v = Int i ->
  0 <= i < len l ->
  currentItem v = Some item ->
  exists r',
    messageEffect displayId now v (control displayId "previous" value)
                  {| next := v; env := e |} = Ok r'
    /\ handleKeyPress displayId now v "ArrowLeft" {| next := v; env := e |} = Ok r'
    /\ next r' = retreated l i v
    /\ 0 <= preceding i (len l) < len l
    /\ (exists it, currentItem (next r') = Some it
                   /\ nth_error l (Z.to_nat (preceding i (len l))) = Some it)
    /\ viewStartTime (env r') = now
    /\ log (env r')
       = log e
         ++ [TrackView displayId (playlist_id (playlist v)) (contentId item)
                       ((now - viewStartTime e + 500) / 1000) (duration item)
                       false true;
             StatusUpdate (playState (isPlaying v)) (Int (preceding i (len l)))].
Proof.
  intros Hl Hi Hr Hc.
  destruct (moveToPreviousItem_view displayId now v e l i Hl Hi) as (r' & E & V & S & Lg).
  exists r'. split.
  { rewrite control_runs. unfold handleRemoteControl.
    cbn [String.eqb Ascii.eqb Bool.eqb]. exact E. }
  split.
  { unfold handleKeyPress. cbn [String.eqb Ascii.eqb Bool.eqb]. exact E. }
  split; [exact V|]. split; [now apply preceding_range|]. split.
  { rewrite V. cbn [retreated currentItem]. apply itemAt_in_range.
    now apply preceding_range. }
  split; [exact S|]. rewrite Lg. unfold trackView. rewrite Hc. cbn.
  now rewrite <- app_assoc.
Qed.

Lemma retreating_witness :
  exists r',
    messageEffect "d1" 2000 (view lobbyPlayer) (control "d1" "previous" None)
                  {| next := view lobbyPlayer; env := world lobbyPlayer |} = Ok r'
    /\ handleKeyPress "d1" 2000 (view lobbyPlayer) "ArrowLeft"
                      {| next := view lobbyPlayer; env := world lobbyPlayer |} = Ok r'
    /\ next r' = retreated (itemsOrEmpty lobby) 0 (view lobbyPlayer)
    /\ 0 <= preceding 0 (len (itemsOrEmpty lobby)) < len (itemsOrEmpty lobby)
    /\ (exists it, currentItem (next r') = Some it
                   /\ nth_error (itemsOrEmpty lobby)
                                (Z.to_nat (preceding 0 (len (itemsOrEmpty lobby))))
                      = Some it)
    /\ viewStartTime (env r') = 2000
    /\ log (env r')
       = log (world lobbyPlayer)
         ++ [TrackView "d1" (playlist_id (playlist (view lobbyPlayer)))
                       (contentId (sampleItem "a" 0 5))
                       ((2000 - viewStartTime (world lobbyPlayer) + 500) / 1000)
                       (duration (sampleItem "a" 0 5)) false true;
             StatusUpdate (playState (isPlaying (view lobbyPlayer)))
                          (Int (preceding 0 (len (itemsOrEmpty lobby))))].
Proof.
  apply (retreating_goes_round "d1" 2000 (view lobbyPlayer) (world lobbyPlayer)
           (itemsOrEmpty lobby) 0 (sampleItem "a" 0 5) None).
  - reflexivity.
  - reflexivity.
  - vm_compute. split; [discriminate | reflexivity].
  - reflexivity.
Defined.

Lemma advanced_frame (l : list PlaylistItem) (i : Z) (v : View) :
  currentIndex v = Int i ->
  playlist (advanced l i v) = playlist v
  /\ isPlaying (advanced l i v) = isPlaying v
  /\ currentIndex (advanced l i v)
     = Int (if len l <=? 1 then i else following i (len l)).
Proof.
  intros Hi. unfold advanced. destruct (len l <=? 1); cbn; auto.
Qed.

(** X11: on a render at an integer index inside the item list, a run of
    [next] and then, on the render it leaves, a run of [previous], and the
    same in the other order, lead back to the index the first render had
    and to the item of the list there, with the same playlist and play
    state. *)
Theorem next_and_previous_undo_each_other (displayId : string) (now now' : Z)
    (v : View) (e : Env) (l : list PlaylistItem) (i : Z) :
  items (playlist v) = Some l ->
  currentIndex v = Int i ->
  0 <= i < len l ->
  (exists r1 r2,
     messageEffect displayId now v (control displayId "next" None)
                   {| next := v; env := e |} = Ok r1
     /\ messageEffect displayId now' (next r1) (control displayId "previous" None)
                      {| next := next r1; env := env r1 |} = Ok r2
     /\ currentIndex (next r2) = Int i
     /\ currentItem (next r2) = itemAt l i
     /\ playlist (next r2) = playlist v
     /\ isPlaying (next r2) = isPlaying v)
  /\ (exists r1 r2,
        messageEffect displayId now v (control displayId "previous" None)
                      {| next := v; env := e |} = Ok r1
        /\ messageEffect displayId now' (next r1) (control displayId "next" None)
                         {| next := next r1; env := env r1 |} = Ok r2
        /\ currentIndex (next r2) = Int i
        /\ currentItem (next r2) = itemAt l i
        /\ playlist (next r2) = playlist v
        /\ isPlaying (next r2) = isPlaying v).
Proof.
  intros Hl Hi Hr.
  assert (T : forall now0 v0 c s r0,
             next (trackView displayId now0 v0 c s r0) = next r0).
  { intros. now destruct (trackView_frame displayId now0 v0 c s r0) as [-> _]. }
  split.
  - destruct (moveToNextItem_view displayId now v
                (trackView displayId now v false true {| next := v; env := e |})
                l i Hl Hi Hr) as (r1 & E1 & V1 & _).
    rewrite !T in V1. cbn [next] in V1.
    destruct (advanced_frame l i v Hi) as (A1 & A2 & A3).
    set (j := if len l <=? 1 then i else following i (len l)) in *.
    assert (Hj : 0 <= j < len l).
    { unfold j. destruct (len l <=? 1); [exact Hr | now apply following_range]. }
    assert (Hl1 : items (playlist (next r1)) = Some l) by (rewrite V1, A1; exact Hl).
    assert (Hi1 : currentIndex (next r1) = Int j) by (rewrite V1; exact A3).
    destruct (moveToPreviousItem_view displayId now' (next r1) (env r1) l j Hl1 Hi1)
      as (r2 & E2 & V2 & _).
    exists r1, r2. split.
    { rewrite control_runs. unfold handleRemoteControl.
      cbn [String.eqb Ascii.eqb Bool.eqb]. exact E1. }
    split.
    { rewrite control_runs. unfold handleRemoteControl.
      cbn [String.eqb Ascii.eqb Bool.eqb]. exact E2. }
    assert (Back : preceding j (len l) = i).
    { unfold j. destruct (Z.leb_spec (len l) 1).
      - unfold preceding. destruct (Z.eqb_spec i 0); lia.
      - now apply preceding_following. }
    rewrite V2. cbn [retreated currentIndex currentItem playlist isPlaying].
    rewrite Back, V1, A1, A2. auto.
  - destruct (moveToPreviousItem_view displayId now v e l i Hl Hi)
      as (r1 & E1 & V1 & _).
    set (j := preceding i (len l)) in *.
    assert (Hj : 0 <= j < len l) by (now apply preceding_range).
    assert (Hl1 : items (playlist (next r1)) = Some l) by (rewrite V1; exact Hl).
    assert (Hi1 : currentIndex (next r1) = Int j) by (rewrite V1; reflexivity).
    destruct (moveToNextItem_view displayId now' (next r1)
                (trackView displayId now' (next r1) false true
                           {| next := next r1; env := env r1 |})
                l j Hl1 Hi1 Hj) as (r2 & E2 & V2 & _).
    rewrite !T in V2. cbn [next] in V2.
    exists r1, r2. split.
    { rewrite control_runs. unfold handleRemoteControl.
      cbn [String.eqb Ascii.eqb Bool.eqb]. exact E1. }
    split.
    { rewrite control_runs. unfold handleRemoteControl.
      cbn [String.eqb Ascii.eqb Bool.eqb]. exact E2. }
    rewrite V2. unfold advanced. destruct (Z.leb_spec (len l) 1) as [L|L].
    + assert (j = i) by (unfold j, preceding; destruct (Z.eqb_spec i 0); lia).
      rewrite V1. cbn [retreated currentIndex currentItem playlist isPlaying].
      fold j. rewrite H. auto.
    + cbn [currentIndex currentItem playlist isPlaying].
      unfold j. rewrite following_preceding by lia.
      rewrite V1. cbn [retreated playlist isPlaying]. auto.
Qed.

Lemma next_and_previous_witness :
  exists r1 r2,
    messageEffect "d1" 2000 (view lobbyPlayer) (control "d1" "next" None)
                  {| next := view lobbyPlayer; env := world lobbyPlayer |} = Ok r1
    /\ messageEffect "d1" 3000 (next r1) (control "d1" "previous" None)
                     {| next := next r1; env := env r1 |} = Ok r2
    /\ currentIndex (next r2) = Int 0
    /\ currentItem (next r2) = itemAt (itemsOrEmpty lobby) 0
    /\ playlist (next r2) = playlist (view lobbyPlayer)
    /\ isPlaying (next r2) = isPlaying (view lobbyPlayer).
Proof.
  apply (proj1 (next_and_previous_undo_each_other "d1" 2000 3000 (view lobbyPlayer)
                  (world lobbyPlayer) (itemsOrEmpty lobby) 0 eq_refl eq_refl
                  ltac:(vm_compute; split; [discriminate | reflexivity]))).
Defined.

(** X12: on a render that holds an empty playlist and no current item, a
    run of [next] leaves everything as it is, while each run of [previous]
    takes the index one further below zero (from 0 to -1), sends no view
    record and reports that index in the status update.  The index it
    leaves is never the index it found. *)
Theorem empty_playlist_edge (displayId : string) (now : Z) (v : View) (e : Env)
    (value : option Number) :
  items (playlist v) = Some [] ->
  currentItem v = None ->
  messageEffect displayId now v (control displayId "next" value)
                {| next := v; env := e |} = Ok {| next := v; env := e |}
  /\ exists r',
       messageEffect displayId now v (control displayId "previous" value)
                     {| next := v; env := e |} = Ok r'
       /\ currentIndex (next r')
          = (if isZero (currentIndex v) then Int (-1) else plus (currentIndex v) (-1))
       /\ currentIndex (next r') <> currentIndex v
       /\ currentItem (next r') = None
       /\ log (env r')
          = log e ++ [StatusUpdate (playState (isPlaying v)) (currentIndex (next r'))].
Proof.
  intros Hl Hc. split.
  - rewrite control_runs. unfold handleRemoteControl, moveToNextItem, heldItems, trackView.
    cbn [String.eqb Ascii.eqb Bool.eqb]. rewrite Hl, Hc. reflexivity.
  - rewrite control_runs.
    unfold handleRemoteControl, moveToPreviousItem, heldItems, trackView.
    cbn [String.eqb Ascii.eqb Bool.eqb]. rewrite Hl, Hc. cbn [bind].
    eexists. split; [reflexivity|]. cbn.
    split; [reflexivity|]. split; [|split; [apply itemOf_empty | reflexivity]].
    destruct (currentIndex v) as [z|z f]; cbn.
    + destruct (Z.eqb_spec z 0); intros E; injection E as E; lia.
    + intros E. injection E as E. lia.
Qed.

Lemma empty_playlist_witness :
  messageEffect "d1" 2000 (view vacantPlayer) (control "d1" "next" None)
                {| next := view vacantPlayer; env := world vacantPlayer |}
  = Ok {| next := view vacantPlayer; env := world vacantPlayer |}
  /\ exists r',
       messageEffect "d1" 2000 (view vacantPlayer) (control "d1" "previous" None)
                     {| next := view vacantPlayer; env := world vacantPlayer |} = Ok r'
       /\ currentIndex (next r')
          = (if isZero (currentIndex (view vacantPlayer)) then Int (-1)
             else plus (currentIndex (view vacantPlayer)) (-1))
       /\ currentIndex (next r') <> currentIndex (view vacantPlayer)
       /\ currentItem (next r') = None
       /\ log (env r')
          = log (world vacantPlayer)
            ++ [StatusUpdate (playState (isPlaying (view vacantPlayer)))
                             (currentIndex (next r'))].
Proof.
  apply (empty_playlist_edge "d1" 2000 (view vacantPlayer) (world vacantPlayer) None);
    reflexivity.
Defined.

Example previous_on_empty_playlist :
  match run "d1" [(2000, remote "d1" "previous" None); (3000, remote "d1" "previous" None)]
            vacantPlayer with
  | Ok q => (currentIndex (view q), currentItem (view q), timers (world q))
  | TypeError => (Int 0, None, [])
  end = (Int (-2), None, []).
Proof. reflexivity. Qed.

Lemma reachable_WellArmed (displayId : string) (p : Player) :
  reachable displayId p -> Forall WellArmed (timers (world p)).
Proof.
  induction 1 as [now prop ws stored p M | now ev p p' R IH S].
  - eapply mount_WellArmed; eauto.
  - apply Forall_forall. intros tm Hin.
    destruct (step_origin displayId now ev p p' tm (reachable_Inv _ _ R) S Hin)
      as [F|[F _]]; [|exact F].
    rewrite Forall_forall in IH. auto.
Qed.

Lemma reachable_timer (displayId : string) (p : Player) (l : list PlaylistItem) :
  reachable displayId p -> items (playlist (view p)) = Some l ->
  (isPlaying (view p) = true -> 1 < len l ->
   forall item, currentItem (view p) = Some item ->
   exists tm, timers (world p) = [tm] /\ delay tm = duration item * 1000)
  /\ (isPlaying (view p) = false \/ currentItem (view p) = None \/ len l <= 1 ->
      timers (world p) = [] /\ timerRef (world p) = None).
Proof.
  intros R Hl. pose proof (reachable_WellArmed _ _ R) as W.
  destruct (Inv_armed p l (reachable_Inv _ _ R) Hl) as [Armed Idle]. split.
  - intros P L item Hitem. destruct (Armed P) as (tm & T & _ & D); [congruence|exact L|].
    rewrite T in W. apply Forall_inv in W. destruct W as (item' & Hc & Hd).
    exists tm. split; [exact T|].
    unfold timerDeps in D. assert (item' = item) by congruence. now subst.
  - intros H. now apply Idle.
Qed.

(** ** Stop, restart and seek *)

Lemma stop_run (displayId : string) (now : Z) (v : View) (value : option Number)
    (r : Run) (l : list PlaylistItem) :
  items (playlist v) = Some l ->
  handleRemoteControl displayId now v "stop" value r
  = Ok (sendStatusUpdate paused (Int 0)
          (setCurrentItem (itemAt l 0) (setCurrentIndex (Int 0) (setIsPlaying false r)))).
Proof.
  intros Hl. unfold handleRemoteControl, heldItems.
  cbn [String.eqb Ascii.eqb Bool.eqb]. now rewrite Hl.
Qed.

Lemma restart_run (displayId : string) (now : Z) (v : View) (value : option Number)
    (r : Run) (l : list PlaylistItem) :
  items (playlist v) = Some l ->
  handleRemoteControl displayId now v "restart" value r
  = Ok (sendStatusUpdate playing (Int 0)
          (setIsPlaying true (setCurrentItem (itemAt l 0) (setCurrentIndex (Int 0) r)))).
Proof.
  intros Hl. unfold handleRemoteControl, heldItems.
  cbn [String.eqb Ascii.eqb Bool.eqb]. now rewrite Hl.
Qed.

(** X13: one run of [stop] leaves for the next render a paused view at
    index 0 with the first item (none for an empty playlist), one run of
    [restart] a playing view at index 0 with the first item; both keep the
    next item, send one status update and no view record, leave the view
    start time and the pending timeout as they are, and, run again on the
    render they leave, leave that view once more and send the status
    again. *)
Theorem stop_and_restart_go_to_start (displayId : string) (now now' : Z) (v : View)
    (e : Env) (l : list PlaylistItem) (value : option Number) :
  items (playlist v) = Some l ->
  (exists r',
     messageEffect displayId now v (control displayId "stop" value)
                   {| next := v; env := e |} = Ok r'
     /\ next r' = placedAt l 0 false v
     /\ log (env r') = log e ++ [StatusUpdate paused (Int 0)]
     /\ viewStartTime (env r') = viewStartTime e
     /\ timers (env r') = timers e /\ timerRef (env r') = timerRef e
     /\ exists r'',
          messageEffect displayId now' (next r') (control displayId "stop" value)
                        {| next := next r'; env := env r' |} = Ok r''
          /\ next r'' = next r'
          /\ log (env r'') = log (env r') ++ [StatusUpdate paused (Int 0)])
  /\ (exists r',
        messageEffect displayId now v (control displayId "restart" value)
                      {| next := v; env := e |} = Ok r'
        /\ next r' = placedAt l 0 true v
        /\ log (env r') = log e ++ [StatusUpdate playing (Int 0)]
        /\ viewStartTime (env r') = viewStartTime e
        /\ timers (env r') = timers e /\ timerRef (env r') = timerRef e
        /\ exists r'',
             messageEffect displayId now' (next r') (control displayId "restart" value)
                           {| next := next r'; env := env r' |} = Ok r''
             /\ next r'' = next r'
             /\ log (env r'') = log (env r') ++ [StatusUpdate playing (Int 0)]).
Proof.
  intros Hl. split.
  - eexists. split; [rewrite control_runs; eapply stop_run; exact Hl|].
    do 5 (split; [reflexivity|]).
    eexists. split; [rewrite control_runs; eapply stop_run; exact Hl|].
    split; reflexivity.
  - eexists. split; [rewrite control_runs; eapply restart_run; exact Hl|].
    do 5 (split; [reflexivity|]).
    eexists. split; [rewrite control_runs; eapply restart_run; exact Hl|].
    split; reflexivity.
Qed.

Lemma stop_and_restart_witness :
  exists r',
    messageEffect "d1" 2000 (view lobbyPlayer) (control "d1" "stop" None)
                  {| next := view lobbyPlayer; env := world lobbyPlayer |} = Ok r'
    /\ next r' = placedAt (itemsOrEmpty lobby) 0 false (view lobbyPlayer)
    /\ log (env r') = log (world lobbyPlayer) ++ [StatusUpdate paused (Int 0)]
    /\ viewStartTime (env r') = viewStartTime (world lobbyPlayer)
    /\ timers (env r') = timers (world lobbyPlayer)
    /\ timerRef (env r') = timerRef (world lobbyPlayer)
    /\ exists r'',
         messageEffect "d1" 2001 (next r') (control "d1" "stop" None)
                       {| next := next r'; env := env r' |} = Ok r''
         /\ next r'' = next r'
         /\ log (env r'') = log (env r') ++ [StatusUpdate paused (Int 0)].
Proof.
  apply (proj1 (stop_and_restart_go_to_start "d1" 2000 2001 (view lobbyPlayer)
                  (world lobbyPlayer) (itemsOrEmpty lobby) None eq_refl)).
Defined.

(** X14: pausing a reachable player cancels its timeout and keeps the
    rest of the view; playing it again restores the view it had and, when
    it has a current item and two or more items, arms a timeout that is
    none of the earlier ones and carries the whole dwell time of the
    current item: the time already spent on the item is not deducted.
    Without a current item nothing is armed. *)
Theorem pause_then_play_rearms_in_full (displayId : string) (now now' : Z) (p : Player) :
  reachable displayId p ->
  isPlaying (view p) = true ->
  exists p1 p2,
    step displayId now (remote displayId "pause" None) p = Ok p1
    /\ view p1 = {| playlist := playlist (view p); currentIndex := currentIndex (view p);
                    isPlaying := false; currentItem := currentItem (view p);
                    nextItem := nextItem (view p);
                    connectionStatus := connectionStatus (view p) |}
    /\ timers (world p1) = [] /\ timerRef (world p1) = None
    /\ step displayId now' (remote displayId "play" None) p1 = Ok p2
    /\ view p2 = view p
    /\ (forall item,
          currentItem (view p) = Some item ->
          1 < len (itemsOrEmpty (playlist (view p))) ->
          exists tm,
            timers (world p2) = [tm]
            /\ delay tm = duration item * 1000
            /\ forall old, In old (timers (world p)) -> (timerId old < timerId tm)%nat)
    /\ (currentItem (view p) = None -> timers (world p2) = []).
Proof.
  intros R P. pose proof (reachable_Inv _ _ R) as HI. pose proof (Inv_items p HI) as Hl.
  set (l := itemsOrEmpty (playlist (view p))) in *.
  destruct (step_Inv displayId now (remote displayId "pause" None) p HI)
    as (p1 & S1 & I1 & G1 & _).
  pose proof (reach_step _ _ _ _ _ R S1) as R1.
  destruct (step_Inv displayId now' (remote displayId "play" None) p1 I1)
    as (p2 & S2 & I2 & G2 & G2').
  pose proof (reach_step _ _ _ _ _ R1 S2) as R2.
  exists p1, p2. split; [exact S1|].
  pose proof S1 as S1'. rewrite step_remote in S1'. unfold handleRemoteControl in S1'.
  cbn [String.eqb Ascii.eqb Bool.eqb bind] in S1'.
  destruct (commit_frame _ _ _ _ S1') as (V1 & _).
  cbn in V1. split; [exact V1|].
  assert (Hl1 : items (playlist (view p1)) = Some l) by (rewrite V1; exact Hl).
  destruct (Inv_armed p1 l I1 Hl1) as [_ Idle1].
  destruct Idle1 as [T1 Tr1]; [left; now rewrite V1|].
  do 2 (split; [assumption|]). split; [exact S2|].
  pose proof S2 as S2'. rewrite step_remote in S2'. unfold handleRemoteControl in S2'.
  cbn [String.eqb Ascii.eqb Bool.eqb bind] in S2'.
  destruct (commit_frame _ _ _ _ S2') as (V2 & _).
  assert (Hv : view p2 = view p).
  { rewrite V2. cbn. rewrite V1. cbn. rewrite <- P. now destruct (view p). }
  split; [exact Hv|].
  assert (Hl2 : items (playlist (view p2)) = Some l) by (rewrite Hv; exact Hl).
  destruct (reachable_timer _ _ l R2 Hl2) as [Armed Idle]. split.
  - intros item Hitem L.
    destruct (Armed ltac:(now rewrite Hv) L item ltac:(now rewrite Hv)) as (tm & T & Hd).
    exists tm. split; [exact T|]. split; [exact Hd|].
    intros old Hold.
    destruct (G2' tm) as [F|F]; [rewrite T; now left | rewrite T1 in F; contradiction|].
    destruct HI as (l0 & _ & _ & _ & _ & _ & Ht). unfold TimerInv in Ht.
    destruct (timerRef (world p)).
    + destruct Ht as (Hn & _ & _ & _ & tm0 & T0 & Hid & _). rewrite T0 in Hold.
      destruct Hold as [<-|[]]. lia.
    + destruct Ht as [T0 _]. rewrite T0 in Hold. contradiction.
  - intros N. apply Idle. right. left. now rewrite Hv.
Qed.

Lemma pause_then_play_witness :
  exists p1 p2,
    step "d1" 2000 (remote "d1" "pause" None) lobbyPlayer = Ok p1
    /\ view p1 = {| playlist := playlist (view lobbyPlayer);
                    currentIndex := currentIndex (view lobbyPlayer);
                    isPlaying := false; currentItem := currentItem (view lobbyPlayer);
                    nextItem := nextItem (view lobbyPlayer);
                    connectionStatus := connectionStatus (view lobbyPlayer) |}
    /\ timers (world p1) = [] /\ timerRef (world p1) = None
    /\ step "d1" 4000 (remote "d1" "play" None) p1 = Ok p2
    /\ view p2 = view lobbyPlayer
    /\ (forall item,
          currentItem (view lobbyPlayer) = Some item ->
          1 < len (itemsOrEmpty (playlist (view lobbyPlayer))) ->
          exists tm,
            timers (world p2) = [tm]
            /\ delay tm = duration item * 1000
            /\ forall old, In old (timers (world lobbyPlayer)) ->
                           (timerId old < timerId tm)%nat)
    /\ (currentItem (view lobbyPlayer) = None -> timers (world p2) = []).
Proof.
  apply (pause_then_play_rearms_in_full "d1" 2000 4000 lobbyPlayer).
  - apply (reach_mount "d1" 1000 lobby connecting None). reflexivity.
  - reflexivity.
Defined.

(** X15: one run of a [seek] to a number from 0 up to the item count sends
    one status update with that number and nothing else: no view record is
    written for the item that is left, and the view start time is not
    reset, so the next view record measures from before the seek.  Run
    again on the render it leaves, it leaves that view once more and sends
    the status again. *)
Theorem seek_sends_no_view_record (displayId : string) (now now' : Z) (v : View)
    (e : Env) (i : Number) (l : list PlaylistItem) :
  items (playlist v) = Some l ->
  0 <= whole i < len l ->
  exists r',
    messageEffect displayId now v (control displayId "seek" (Some i))
                  {| next := v; env := e |} = Ok r'
    /\ log (env r') = log e ++ [StatusUpdate (playState (isPlaying v)) i]
    /\ viewStartTime (env r') = viewStartTime e
    /\ exists r'',
         messageEffect displayId now' (next r') (control displayId "seek" (Some i))
                       {| next := next r'; env := env r' |} = Ok r''
         /\ next r'' = next r'
         /\ log (env r'') = log (env r') ++ [StatusUpdate (playState (isPlaying v)) i].
Proof.
  intros Hl Hi. eexists. split.
  { rewrite control_runs. apply (seek_in_range _ _ _ _ _ _ Hl Hi). }
  do 2 (split; [reflexivity|]).
  eexists. split.
  { rewrite control_runs. apply seek_in_range with (l := l); [exact Hl | exact Hi]. }
  split; reflexivity.
Qed.

Lemma seek_sends_no_view_record_witness :
  exists r',
    messageEffect "d1" 2000 (view lobbyPlayer) (control "d1" "seek" (Some oneAndAHalf))
                  {| next := view lobbyPlayer; env := world lobbyPlayer |} = Ok r'
    /\ log (env r')
       = log (world lobbyPlayer)
         ++ [StatusUpdate (playState (isPlaying (view lobbyPlayer))) oneAndAHalf]
    /\ viewStartTime (env r') = viewStartTime (world lobbyPlayer)
    /\ exists r'',
         messageEffect "d1" 2001 (next r') (control "d1" "seek" (Some oneAndAHalf))
                       {| next := next r'; env := env r' |} = Ok r''
         /\ next r'' = next r'
         /\ log (env r'')
            = log (env r')
              ++ [StatusUpdate (playState (isPlaying (view lobbyPlayer))) oneAndAHalf].
Proof.
  apply (seek_sends_no_view_record "d1" 2000 2001 (view lobbyPlayer) (world lobbyPlayer)
           oneAndAHalf (itemsOrEmpty lobby)).
  - reflexivity.
  - vm_compute. split; [discriminate | reflexivity].
Defined.

(** * Further properties of the page *)

(** X16: [fetchDisplay] schedules the reload exactly when it polls, the
    response is a display whose playlist and the held playlist both exist,
    and their ids or their [items?.length] differ; it then removes the
    stored playlist, leaves the page state as it is and does nothing else.
    A first fetch, a fetch for a refresh, or a change to or from no
    playlist never reloads. *)
Theorem reload_exactly_on_polled_drift (isPolling : bool) (response : Page.Response)
    (s : Page.State) :
  (snd (Page.fetchDisplay isPolling response s) <> [] <->
   isPolling = true
   /\ exists data held fetched,
        response = Page.Json data /\ Page.playlist s = Some held
        /\ Page.assignedPlaylist data = Some fetched
        /\ (playlist_id held <> playlist_id fetched
            \/ Page.itemsLength held <> Page.itemsLength fetched))
  /\ (snd (Page.fetchDisplay isPolling response s) <> [] ->
      Page.fetchDisplay isPolling response s
      = (s, [Page.RemoveItem (Page.cacheKey (Page.display s)); Page.Reload 100])).
Proof.
  unfold Page.fetchDisplay, Page.playlistChanged.
  assert (No : forall (st : Page.State) (P Q : Prop),
             (P -> False) ->
             (snd (st, @nil Page.Effect) <> [] <-> P)
             /\ (snd (st, @nil Page.Effect) <> [] -> Q)).
  { intros st P Q HP. cbn [snd]. split; [split|]; intros H;
      solve [now contradiction H | now apply HP in H]. }
  destruct response as [|data].
  { apply No. intros (_ & d & h & f & E & _). discriminate. }
  destruct isPolling; cbn [andb].
  2:{ apply No. intros (E & _). discriminate. }
  destruct (Page.assignedPlaylist data) as [fetched|] eqn:Hf.
  2:{ apply No. intros (_ & d & h & f & E & _ & Hf' & _). injection E as <-. congruence. }
  destruct (Page.playlist s) as [held|] eqn:Hh.
  2:{ apply No. intros (_ & d & h & f & _ & Hh' & _). discriminate. }
  destruct (String.eqb_spec (playlist_id held) (playlist_id fetched)) as [Ei|Ei];
    cbn [negb orb].
  - destruct (Page.option_nat_eqb (Page.itemsLength held) (Page.itemsLength fetched)) eqn:El;
      cbn [negb].
    + apply option_nat_eqb_eq in El. apply No.
      intros (_ & d & h & f & E & Hh' & Hf' & [N|N]);
        injection E as <-; rewrite Hf in Hf'; injection Hf' as <-;
        injection Hh' as <-; contradiction.
    + cbn [snd]. split; [|reflexivity]. split; [|discriminate]. intros _.
      split; [reflexivity|].
      exists data, held, fetched. repeat split; auto. right. intros E.
      apply option_nat_eqb_eq in E. congruence.
  - cbn [snd]. split; [|reflexivity]. split; [|discriminate]. intros _.
    split; [reflexivity|]. exists data, held, fetched. auto.
Qed.

(** X17: a fetch that fails keeps the display and the playlist the page
    holds, but the page then shows the network error screen instead of the
    player, whatever it held; a later fetch that succeeds without reload
    clears the error and shows the player for the fetched playlist, or the
    no-content screen when the display has no playlist. *)
Theorem failed_fetch_hides_player (isPolling : bool) (s : Page.State) :
  Page.playlist (fst (Page.fetchDisplay isPolling Page.Failed s)) = Page.playlist s
  /\ Page.display (fst (Page.fetchDisplay isPolling Page.Failed s)) = Page.display s
  /\ snd (Page.fetchDisplay isPolling Page.Failed s) = []
  /\ PageView.screen (fst (Page.fetchDisplay isPolling Page.Failed s))
     = PageView.NetworkError "Failed to load display"
  /\ forall again data,
       snd (Page.fetchDisplay again (Page.Json data)
              (fst (Page.fetchDisplay isPolling Page.Failed s))) = [] ->
       PageView.screen
         (fst (Page.fetchDisplay again (Page.Json data)
                 (fst (Page.fetchDisplay isPolling Page.Failed s))))
       = match Page.assignedPlaylist data with
         | Some fetched =>
             PageView.PlayerScreen
               (PageView.playerKey (Page.display_id data) (playlist_id fetched))
               data fetched
         | None => PageView.NoContent
         end.
Proof.
  repeat split. intros again data.
  remember (fst (Page.fetchDisplay isPolling Page.Failed s)) as s1 eqn:Hs1. clear Hs1.
  unfold Page.fetchDisplay.
  destruct (again && Page.playlistChanged (Page.playlist s1) data); cbn [snd fst].
  - discriminate.
  - intros _. unfold PageView.screen. cbn.
    now destruct (Page.assignedPlaylist data).
Qed.

(** X18: what the page shows after a socket callback.  A playlist update
    or an initial snapshot with an explicit [null] playlist ends loading
    and error and shows the no-content screen; with a playlist it shows the
    player as soon as a display is known.  A display update shows the
    player for its playlist, the no-content screen for a [null] playlist,
    the error "Display not found" when the display is missing, and with a
    display that lacks the playlist field it keeps an earlier error on
    screen. *)
Theorem socket_callbacks_choose_the_screen (s : Page.State) :
  (forall d, Page.display s = Some d ->
     PageView.screen (fst (PageView.onPlaylistUpdate PageView.Null s)) = PageView.NoContent
     /\ forall pl,
          PageView.screen (fst (PageView.onPlaylistUpdate (PageView.Given pl) s))
          = PageView.PlayerScreen
              (PageView.playerKey (Page.display_id d) (playlist_id pl)) d pl)
  /\ fst (PageView.onPlaylistUpdate PageView.Absent s) = s
  /\ (forall u,
        PageView.screen (fst (PageView.onDisplayUpdate (Some u) s))
        = match PageView.update_playlist u with
          | PageView.Given pl =>
              PageView.PlayerScreen
                (PageView.playerKey (PageView.update_id u) (playlist_id pl))
                (PageView.asDisplay u) pl
          | PageView.Null => PageView.NoContent
          | PageView.Absent =>
              match truthy (Page.error s) with
              | Some message => PageView.NetworkError message
              | None => PageView.NoContent
              end
          end)
  /\ PageView.screen (fst (PageView.onDisplayUpdate None s))
     = PageView.NetworkError "Display not found"
  /\ (forall u,
        PageView.screen (PageView.onInitialData (Some u) PageView.Null s)
        = PageView.NoContent
        /\ forall pl,
             PageView.screen (PageView.onInitialData (Some u) (PageView.Given pl) s)
             = PageView.PlayerScreen
                 (PageView.playerKey (PageView.update_id u) (playlist_id pl))
                 (PageView.asDisplay u) pl).
Proof.
  split; [|split; [|split; [|split]]].
  - intros d Hd. split; [|intros pl];
      unfold PageView.screen, PageView.onPlaylistUpdate; cbn; rewrite ?Hd; reflexivity.
  - reflexivity.
  - intros u. unfold PageView.screen, PageView.onDisplayUpdate. cbn.
    destruct (PageView.update_playlist u); cbn; reflexivity.
  - reflexivity.
  - intros u. split; [reflexivity | intros pl; reflexivity].
Qed.

Lemma append_cancel (a b c : string) : (a ++ b = a ++ c)%string -> b = c.
Proof.
  induction a as [|ch a IH]; cbn; [auto|]. intros H. injection H as H. auto.
Qed.

(** X19: for one display, two playlists with non-empty ids get the same
    player key exactly when their ids are equal. *)
Theorem player_key_follows_playlist_id (displayId a b : string) :
  a <> EmptyString -> b <> EmptyString ->
  (PageView.playerKey displayId a = PageView.playerKey displayId b <-> a = b).
Proof.
  intros Ha Hb. split; [|congruence]. unfold PageView.playerKey.
  destruct a; [congruence|]. destruct b; [congruence|]. cbn [PageView.nonEmpty].
  intros H. apply append_cancel in H. apply append_cancel in H.
  now apply append_cancel in H.
Qed.

Lemma player_key_witness :
  PageView.playerKey "d1" "lobby" = PageView.playerKey "d1" "poster" <-> "lobby"%string = "poster"%string.
Proof.
  apply (player_key_follows_playlist_id "d1" "lobby" "poster"); discriminate.
Defined.

(** Keys of different displays can coincide. *)
Example player_keys_collide :
  PageView.playerKey "a" "b-c" = PageView.playerKey "a-b" "c".
Proof. reflexivity. Qed.

(** * Clock settings *)

Lemma orElse_truthy (a d : Clock.JsValue) :
  Clock.truthyValue d = true -> Clock.truthyValue (Clock.orElse a d) = true.
Proof.
  intros H. unfold Clock.orElse. now destruct (Clock.truthyValue a) eqn:E.
Qed.

Lemma orElse_keeps_truthy (a d : Clock.JsValue) :
  Clock.truthyValue a = true -> Clock.orElse a d = a.
Proof. intros H. unfold Clock.orElse. now rewrite H. Qed.

Lemma orElse_settled (a d d' : Clock.JsValue) :
  Clock.truthyValue d = true ->
  Clock.orElse (Clock.orElse a d) d' = Clock.orElse a d.
Proof. intros H. now apply orElse_keeps_truthy, orElse_truthy. Qed.

(** X20: [getValidClockSettings] returns a configuration exactly for an
    object whose [enabled] is the boolean [true].  The configuration it
    returns is enabled, its position, size, format, colours and font are
    truthy values (the given one, or the default where the given one is
    missing, empty or otherwise falsy), and its opacity and offsets are the
    given numbers, zero included, or 80, 20 and 20 where no number is
    given. *)
Theorem clock_settings_need_enabled_true (settings : Clock.JsValue) :
  ((exists c, Clock.getValidClockSettings settings = Some c) <->
   exists fields, settings = Clock.JsObject fields
                  /\ Clock.lookup fields "enabled" = Clock.JsBool true)
  /\ forall c,
       Clock.getValidClockSettings settings = Some c ->
       Clock.enabled c = true
       /\ Clock.truthyValue (Clock.position c) = true
       /\ Clock.truthyValue (Clock.size c) = true
       /\ Clock.truthyValue (Clock.format c) = true
       /\ Clock.truthyValue (Clock.color c) = true
       /\ Clock.truthyValue (Clock.backgroundColor c) = true
       /\ Clock.truthyValue (Clock.fontFamily c) = true
       /\ Clock.opacity c = Clock.numberOr (Clock.get settings "opacity") 80
       /\ Clock.offsetX c = Clock.numberOr (Clock.get settings "offsetX") 20
       /\ Clock.offsetY c = Clock.numberOr (Clock.get settings "offsetY") 20.
Proof.
  split.
  - split.
    + intros (c & H). destruct settings as [| | | | |fields]; try discriminate.
      exists fields. split; [reflexivity|].
      unfold Clock.getValidClockSettings in H. cbn [Clock.enabled Clock.get] in H.
      destruct (Clock.lookup fields "enabled") as [| |[|]| | |]; try discriminate.
      reflexivity.
    + intros (fields & -> & E). unfold Clock.getValidClockSettings.
      cbn [Clock.enabled Clock.get]. rewrite E. cbn. eauto.
  - intros c H. destruct settings as [| | | | |fields]; try discriminate.
    unfold Clock.getValidClockSettings in H. cbn [Clock.enabled] in H.
    destruct (Clock.isTrue (Clock.get (Clock.JsObject fields) "enabled")) eqn:E;
      [|discriminate].
    injection H as <-. cbn [Clock.enabled Clock.position Clock.size Clock.format
                             Clock.color Clock.backgroundColor Clock.fontFamily
                             Clock.opacity Clock.offsetX Clock.offsetY].
    repeat split; try exact E; apply orElse_truthy; reflexivity.
Qed.

(** X21: validating is idempotent: a configuration that
    [getValidClockSettings] returned, handed to it again as an object, is
    returned unchanged. *)
Theorem clock_settings_validate_once (settings : Clock.JsValue) (c : Clock.ClockConfig) :
  Clock.getValidClockSettings settings = Some c ->
  Clock.getValidClockSettings (Clock.asSettings c) = Some c.
Proof.
  intros H. destruct settings as [| | | | |fields]; try discriminate.
  unfold Clock.getValidClockSettings in H. cbn [Clock.enabled] in H.
  destruct (Clock.isTrue (Clock.get (Clock.JsObject fields) "enabled")) eqn:E;
    [|discriminate].
  injection H as <-. unfold Clock.getValidClockSettings, Clock.asSettings.
  cbn [Clock.enabled Clock.position Clock.size Clock.format Clock.showSeconds
       Clock.showDate Clock.color Clock.backgroundColor Clock.fontFamily
       Clock.opacity Clock.offsetX Clock.offsetY
       Clock.get Clock.lookup String.eqb Ascii.eqb Bool.eqb Clock.isTrue Clock.numberOr].
  rewrite !orElse_settled by reflexivity.
  cbn [Clock.isFalse].
  destruct (Clock.isFalse (Clock.lookup fields "showSeconds"));
    destruct (Clock.isTrue (Clock.lookup fields "showDate")); reflexivity.
Qed.

Lemma clock_settings_witness :
  Clock.getValidClockSettings
    (Clock.asSettings
       {| Clock.enabled := true; Clock.position := Clock.JsString "top-right";
          Clock.size := Clock.JsString "large"; Clock.format := Clock.JsString "12h";
          Clock.showSeconds := true; Clock.showDate := false; Clock.opacity := 0;
          Clock.color := Clock.JsString "#FFFFFF";
          Clock.backgroundColor := Clock.JsString "#000000";
          Clock.fontFamily := Clock.JsString "digital";
          Clock.offsetX := 20; Clock.offsetY := 20 |})
  = Some {| Clock.enabled := true; Clock.position := Clock.JsString "top-right";
            Clock.size := Clock.JsString "large"; Clock.format := Clock.JsString "12h";
            Clock.showSeconds := true; Clock.showDate := false; Clock.opacity := 0;
            Clock.color := Clock.JsString "#FFFFFF";
            Clock.backgroundColor := Clock.JsString "#000000";
            Clock.fontFamily := Clock.JsString "digital";
            Clock.offsetX := 20; Clock.offsetY := 20 |}.
Proof.
  apply (clock_settings_validate_once
           (Clock.JsObject [("enabled"%string, Clock.JsBool true);
                            ("size"%string, Clock.JsString "large");
                            ("position"%string, Clock.JsString "");
                            ("opacity"%string, Clock.JsNumber 0)])).
  reflexivity.
Defined.

(** * The image cache *)

Lemma has_In (m : list string) (url : string) :
  ImageCache.has m url = true <-> In url m.
Proof.
  unfold ImageCache.has. rewrite existsb_exists. split.
  - intros (k & Hk & E). apply String.eqb_eq in E. now subst.
  - intros H. exists url. split; [exact H | apply String.eqb_refl].
Qed.

Lemma has_not_In (m : list string) (url : string) :
  ImageCache.has m url = false <-> ~ In url m.
Proof.
  rewrite <- has_In. destruct (ImageCache.has m url); split; congruence.
Qed.

Lemma In_set (m : list string) (k url : string) :
  In url (ImageCache.set m k) <-> In url m \/ url = k.
Proof.
  unfold ImageCache.set. destruct (ImageCache.has m k) eqn:E.
  - apply has_In in E. split; [tauto | intros [H | ->]; assumption].
  - rewrite in_app_iff. cbn. intuition congruence.
Qed.

Lemma In_delete (m : list string) (k url : string) :
  In url (ImageCache.delete m k) <-> In url m /\ url <> k.
Proof.
  unfold ImageCache.delete. rewrite filter_In.
  destruct (url =? k)%string eqn:E; cbn.
  - apply String.eqb_eq in E. split; [intros [_ H]; discriminate | tauto].
  - apply String.eqb_neq in E. tauto.
Qed.

Lemma In_removeOne (l : list string) (k url : string) :
  NoDup l -> (In url (ImageCache.removeOne k l) <-> In url l /\ url <> k).
Proof.
  induction 1 as [|a l Ha Hl IH]; cbn.
  - tauto.
  - destruct (a =? k)%string eqn:E.
    + apply String.eqb_eq in E. subst a. split.
      * intros H. split; [now right | intros ->; contradiction].
      * intros [[<- | H] N]; [congruence | exact H].
    + apply String.eqb_neq in E. cbn. rewrite IH. split.
      * intros [<- | [H N]]; [split; [now left | congruence] | split; [now right | exact N]].
      * intros [[<- | H] N]; [now left | right; now split].
Qed.

Lemma NoDup_removeOne (l : list string) (k : string) :
  NoDup l -> NoDup (ImageCache.removeOne k l).
Proof.
  induction 1 as [|a l Ha Hl IH]; cbn.
  - constructor.
  - destruct (a =? k)%string; [exact Hl|].
    constructor; [|exact IH].
    intros H. apply (In_removeOne l k a Hl) in H. now apply Ha.
Qed.

Lemma preloadImage_Tidy (url : string) (st : ImageCache.Store) :
  ImageCache.Tidy st -> ImageCache.Tidy (snd (ImageCache.preloadImage url st)).
Proof.
  intros T. unfold ImageCache.preloadImage.
  destruct (ImageCache.has (ImageCache.imageCache st) url) eqn:Hc; [exact T|].
  destruct (ImageCache.has (ImageCache.loadingPromises st) url) eqn:Hl; [exact T|].
  destruct T as (N & P & C).
  apply has_not_In in Hc, Hl. split; [|split]; cbn.
  - constructor; [now rewrite P | exact N].
  - intros u. rewrite In_set, <- P. intuition congruence.
  - intros u H [<- | F]; [contradiction | now apply (C u)].
Qed.

Lemma onload_Tidy (url : string) (st : ImageCache.Store) :
  ImageCache.Tidy st -> ImageCache.Tidy (ImageCache.onload url st).
Proof.
  intros (N & P & C). unfold ImageCache.onload. split; [|split]; cbn.
  - now apply NoDup_removeOne.
  - intros u. rewrite In_removeOne, In_delete by exact N. now rewrite P.
  - intros u. rewrite In_set, In_removeOne by exact N.
    intros [H | ->] [F D]; [now apply (C u) | congruence].
Qed.

Lemma onerror_Tidy (url : string) (st : ImageCache.Store) :
  ImageCache.Tidy st -> ImageCache.Tidy (ImageCache.onerror url st).
Proof.
  intros (N & P & C). unfold ImageCache.onerror. split; [|split]; cbn.
  - now apply NoDup_removeOne.
  - intros u. rewrite In_removeOne, In_delete by exact N. now rewrite P.
  - intros u. rewrite In_removeOne by exact N. intros H [F D]. now apply (C u).
Qed.

Lemma image_step_Tidy (ev : ImageCache.Event) (st st' : ImageCache.Store) :
  ImageCache.Tidy st -> ImageCache.step ev st = Some st' -> ImageCache.Tidy st'.
Proof.
  intros T H. destruct ev as [u|u|u]; cbn in H.
  - injection H as <-. now apply preloadImage_Tidy.
  - destruct (ImageCache.has _ u); [|discriminate]. injection H as <-.
    now apply onload_Tidy.
  - destruct (ImageCache.has _ u); [|discriminate]. injection H as <-.
    now apply onerror_Tidy.
Qed.

Lemma image_run_Tidy (evs : list ImageCache.Event) :
  forall st st', ImageCache.Tidy st -> ImageCache.run evs st = Some st' ->
                 ImageCache.Tidy st'.
Proof.
  induction evs as [|ev rest IH]; intros st st' T H; cbn in H.
  - now injection H as <-.
  - destruct (ImageCache.step ev st) as [st1|] eqn:E; [|discriminate].
    eapply IH; [|exact H]. eapply image_step_Tidy; eauto.
Qed.

Lemma empty_Tidy : ImageCache.Tidy ImageCache.empty.
Proof.
  split; [constructor | split; cbn; tauto].
Qed.

(** X22: whatever was preloaded, loaded or failed since the module was
    loaded, no URL is being loaded twice at the same time, the URLs being
    loaded are exactly those with an entry in [loadingPromises], and no
    cached URL is being loaded. *)
Theorem image_store_stays_tidy (evs : list ImageCache.Event) (st : ImageCache.Store) :
  ImageCache.run evs ImageCache.empty = Some st ->
  NoDup (ImageCache.inFlight st)
  /\ (forall url, In url (ImageCache.inFlight st)
                  <-> ImageCache.has (ImageCache.loadingPromises st) url = true)
  /\ (forall url, ImageCache.has (ImageCache.imageCache st) url = true ->
                  ~ In url (ImageCache.inFlight st)).
Proof.
  intros H. destruct (image_run_Tidy evs _ _ empty_Tidy H) as (N & P & C).
  split; [exact N|]. split.
  - intros url. now rewrite has_In.
  - intros url Hc. apply C. now apply has_In.
Qed.

Lemma image_store_stays_tidy_witness :
  NoDup ["b.png"%string]
  /\ (forall url, In url ["b.png"%string]
                  <-> ImageCache.has ["b.png"%string] url = true)
  /\ (forall url, ImageCache.has ["a.png"%string] url = true ->
                  ~ In url ["b.png"%string]).
Proof.
  apply (image_store_stays_tidy
           [ImageCache.Preload "a.png"; ImageCache.Preload "a.png";
            ImageCache.Errored "a.png"; ImageCache.Preload "b.png";
            ImageCache.Preload "a.png"; ImageCache.Loaded "a.png"]
           {| ImageCache.imageCache := ["a.png"%string];
              ImageCache.loadingPromises := ["b.png"%string];
              ImageCache.inFlight := ["b.png"%string] |}).
  reflexivity.
Defined.

Lemma has_cons (k url : string) (l : list string) :
  ImageCache.has (k :: l) url = ((url =? k)%string || ImageCache.has l url).
Proof. reflexivity. Qed.

Lemma has_set_same (m : list string) (url : string) :
  ImageCache.has (ImageCache.set m url) url = true.
Proof. apply has_In, In_set. now right. Qed.

Lemma has_set_other (m : list string) (k url : string) :
  k <> url -> ImageCache.has (ImageCache.set m k) url = ImageCache.has m url.
Proof.
  intros D. destruct (ImageCache.has m url) eqn:E.
  - apply has_In, In_set. left. now apply has_In.
  - apply has_not_In. rewrite In_set. apply has_not_In in E.
    intros [H | H]; [contradiction | congruence].
Qed.

Lemma has_removeOne_other (l : list string) (k url : string) :
  k <> url -> ImageCache.has (ImageCache.removeOne k l) url = ImageCache.has l url.
Proof.
  intros D. induction l as [|a l IH]; cbn [ImageCache.removeOne]; [reflexivity|].
  destruct (a =? k)%string eqn:E.
  - apply String.eqb_eq in E. subst a. rewrite has_cons.
    replace (url =? k)%string with false; [reflexivity|].
    symmetry. apply String.eqb_neq. congruence.
  - now rewrite !has_cons, IH.
Qed.

Lemma settled_le_1 (url : string) (st : ImageCache.Store) :
  (ImageCache.settled url st <= 1)%nat.
Proof. unfold ImageCache.settled. destruct (_ || _); lia. Qed.

Ltac settle :=
  repeat match goal with
         | H : context [if ?b then _ else _] |- _ => destruct b eqn:?
         | |- context [if ?b then _ else _] => destruct b eqn:?
         end;
  cbn in *; try discriminate; try lia.

Lemma started_bound (url : string) (evs : list ImageCache.Event) :
  forall st,
    ImageCache.Tidy st ->
    (ImageCache.started url evs st + ImageCache.settled url st
     <= ImageCache.failures url evs + 1)%nat.
Proof.
  induction evs as [|ev rest IH]; intros st T.
  - cbn. pose proof (settled_le_1 url st). lia.
  - cbn [ImageCache.started ImageCache.failures].
    pose proof (settled_le_1 url st) as B.
    destruct (ImageCache.step ev st) as [st'|] eqn:E;
      [|destruct ev as [u|u|u]; try destruct (u =? url)%string; lia].
    pose proof (image_step_Tidy _ _ _ T E) as T'.
    specialize (IH st' T').
    destruct ev as [u|u|u]; cbn [ImageCache.step] in E.
    + injection E as <-. unfold ImageCache.preloadImage in *.
      destruct (ImageCache.has (ImageCache.imageCache st) u) eqn:Hc;
        [cbn [fst snd] in *; destruct (u =? url)%string; lia|].
      destruct (ImageCache.has (ImageCache.loadingPromises st) u) eqn:Hl;
        [cbn [fst snd] in *; destruct (u =? url)%string; lia|].
      cbn [fst snd] in *. clear B T'.
      unfold ImageCache.settled in *.
      cbn [ImageCache.imageCache ImageCache.inFlight] in *.
      rewrite has_cons in IH.
      destruct (String.eqb_spec u url) as [-> | D].
      * assert (Hf : ImageCache.has (ImageCache.inFlight st) url = false).
        { apply has_not_In. destruct T as (_ & P & _). rewrite P.
          now apply has_not_In. }
        rewrite Hc, Hf. rewrite String.eqb_refl, orb_true_r in IH. cbn in *. lia.
      * replace (url =? u)%string with false in IH
          by (symmetry; apply String.eqb_neq; congruence).
        rewrite orb_false_l in IH. settle.
    + destruct (ImageCache.has (ImageCache.inFlight st) u) eqn:Hf; [|discriminate].
      injection E as <-. clear B T'. unfold ImageCache.settled in *.
      cbn [ImageCache.imageCache ImageCache.inFlight ImageCache.onload] in *.
      destruct (String.eqb_spec u url) as [-> | D].
      * rewrite Hf, orb_true_r. rewrite has_set_same in IH. cbn in *. lia.
      * rewrite has_set_other, has_removeOne_other in IH by exact D. settle.
    + destruct (ImageCache.has (ImageCache.inFlight st) u) eqn:Hf; [|discriminate].
      injection E as <-. clear T'.
      destruct (String.eqb_spec u url) as [-> | D].
      * pose proof (settled_le_1 url (ImageCache.onerror url st)). lia.
      * clear B. unfold ImageCache.settled in *.
        cbn [ImageCache.imageCache ImageCache.inFlight ImageCache.onerror] in *.
        rewrite has_removeOne_other in IH by exact D. settle.
Qed.

(** X23: [preloadImage] starts a load of a URL at most once more often than
    loads of that URL have failed: a URL that never fails is requested from
    the network at most once, however often it is preloaded. *)
Theorem one_load_per_url_and_failure (url : string) (evs : list ImageCache.Event) :
  (ImageCache.started url evs ImageCache.empty
   <= ImageCache.failures url evs + 1)%nat.
Proof.
  pose proof (started_bound url evs _ empty_Tidy). lia.
Qed.

Lemma image_step_keeps_cached (ev : ImageCache.Event) (st st' : ImageCache.Store)
      (url : string) :
  ImageCache.step ev st = Some st' ->
  In url (ImageCache.imageCache st) -> In url (ImageCache.imageCache st').
Proof.
  intros H Hc. destruct ev as [u|u|u]; cbn in H.
  - injection H as <-. unfold ImageCache.preloadImage.
    now repeat destruct (ImageCache.has _ u).
  - destruct (ImageCache.has _ u); [|discriminate]. injection H as <-.
    cbn. apply In_set. now left.
  - destruct (ImageCache.has _ u); [|discriminate]. now injection H as <-.
Qed.

Lemma image_run_keeps_cached (evs : list ImageCache.Event) (url : string) :
  forall st st',
    ImageCache.run evs st = Some st' ->
    In url (ImageCache.imageCache st) -> In url (ImageCache.imageCache st').
Proof.
  induction evs as [|ev rest IH]; intros st st' H Hc; cbn in H.
  - now injection H as <-.
  - destruct (ImageCache.step ev st) as [st1|] eqn:E; [|discriminate].
    eapply IH; [exact H|]. eapply image_step_keeps_cached; eauto.
Qed.

(** X24: the cache never evicts: an image that is cached is still cached
    after every further preload, load and failure, and [preloadImage]
    answers for it from the cache without changing either map or starting
    a load. *)
Theorem cached_image_stays_cached
  (url : string) (evs : list ImageCache.Event) (st st' : ImageCache.Store) :
  ImageCache.has (ImageCache.imageCache st) url = true ->
  ImageCache.run evs st = Some st' ->
  ImageCache.has (ImageCache.imageCache st') url = true
  /\ ImageCache.preloadImage url st' = (ImageCache.FromCache, st').
Proof.
  intros C H.
  assert (Hc : ImageCache.has (ImageCache.imageCache st') url = true).
  { apply has_In. eapply image_run_keeps_cached; [exact H|]. now apply has_In. }
  split; [exact Hc|]. unfold ImageCache.preloadImage. now rewrite Hc.
Qed.

Lemma cached_image_witness :
  ImageCache.has ["a.png"%string; "b.png"%string] "a.png" = true
  /\ ImageCache.preloadImage "a.png"
       {| ImageCache.imageCache := ["a.png"%string; "b.png"%string];
          ImageCache.loadingPromises := [];
          ImageCache.inFlight := [] |}
     = (ImageCache.FromCache,
        {| ImageCache.imageCache := ["a.png"%string; "b.png"%string];
           ImageCache.loadingPromises := [];
           ImageCache.inFlight := [] |}).
Proof.
  apply (cached_image_stays_cached "a.png"
           [ImageCache.Preload "b.png"; ImageCache.Preload "a.png";
            ImageCache.Loaded "b.png"]
           {| ImageCache.imageCache := ["a.png"%string];
              ImageCache.loadingPromises := [];
              ImageCache.inFlight := [] |}
           {| ImageCache.imageCache := ["a.png"%string; "b.png"%string];
              ImageCache.loadingPromises := [];
              ImageCache.inFlight := [] |}).
  - reflexivity.
  - reflexivity.
Defined.

(** * The keyboard *)

(** X25: for a reachable player the space key flips the play state and
    keeps the rest of the view, sends one status update with the new state
    and the current index, and leaves the view start time alone.  Pausing
    this way cancels the timeout; resuming with a current item and two or
    more items arms a timeout with the whole dwell time of that item, and
    resuming without current item arms none.  A key other than space and
    the two arrows changes nothing. *)
Theorem space_key_toggles_playback (displayId : string) (now : Z) (p : Player) :
  reachable displayId p ->
  (exists p',
     step displayId now (KeyDown " ") p = Ok p'
     /\ view p' = {| playlist := playlist (view p); currentIndex := currentIndex (view p);
                     isPlaying := negb (isPlaying (view p));
                     currentItem := currentItem (view p); nextItem := nextItem (view p);
                     connectionStatus := connectionStatus (view p) |}
     /\ log (world p')
        = log (world p)
          ++ [StatusUpdate (playState (negb (isPlaying (view p)))) (currentIndex (view p))]
     /\ viewStartTime (world p') = viewStartTime (world p)
     /\ (isPlaying (view p) = true -> timers (world p') = [])
     /\ (isPlaying (view p) = false -> 1 < len (itemsOrEmpty (playlist (view p))) ->
         forall item, currentItem (view p) = Some item ->
         exists tm, timers (world p') = [tm] /\ delay tm = duration item * 1000)
     /\ (currentItem (view p) = None -> timers (world p') = []))
  /\ (forall key, ~ In key [" "; "ArrowRight"; "ArrowLeft"]%string ->
        step displayId now (KeyDown key) p = Ok p).
Proof.
  intros R. pose proof (reachable_Inv _ _ R) as HI. pose proof (Inv_items p HI) as Hl.
  set (l := itemsOrEmpty (playlist (view p))) in *. split.
  - destruct (step_Inv displayId now (KeyDown " ") p HI) as (p' & S & _).
    exists p'. split; [exact S|].
    pose proof (reach_step _ _ _ _ _ R S) as R'.
    cbn [step] in S. unfold handleKeyPress in S.
    cbn [String.eqb Ascii.eqb Bool.eqb bind] in S.
    destruct (commit_frame _ _ _ _ S) as (V & _ & Lg & St & _).
    cbn in V, Lg, St. do 3 (split; [assumption|]).
    assert (Hl' : items (playlist (view p')) = Some l) by (rewrite V; exact Hl).
    destruct (reachable_timer _ _ l R' Hl') as [Armed Idle]. split; [|split].
    + intros P. apply Idle. left. rewrite V. cbn. now rewrite P.
    + intros P L item Hitem. apply Armed; [rewrite V; cbn; now rewrite P | exact L|].
      rewrite V. exact Hitem.
    + intros N. apply Idle. right. left. rewrite V. exact N.
  - intros key Hn. cbn [step]. unfold handleKeyPress.
    repeat match goal with
           | |- context [(key =? ?s)%string] =>
               destruct (String.eqb_spec key s) as [->|_];
               [exfalso; apply Hn; cbn; tauto|]
           end.
    cbn [bind]. rewrite (commit_same _ _ _ l Hl). now rewrite player_eta.
Qed.

Lemma space_key_witness :
  exists p',
    step "d1" 2000 (KeyDown " ") lobbyPlayer = Ok p'
    /\ view p' = {| playlist := playlist (view lobbyPlayer);
                    currentIndex := currentIndex (view lobbyPlayer);
                    isPlaying := negb (isPlaying (view lobbyPlayer));
                    currentItem := currentItem (view lobbyPlayer);
                    nextItem := nextItem (view lobbyPlayer);
                    connectionStatus := connectionStatus (view lobbyPlayer) |}
    /\ log (world p')
       = log (world lobbyPlayer)
         ++ [StatusUpdate (playState (negb (isPlaying (view lobbyPlayer))))
                          (currentIndex (view lobbyPlayer))]
    /\ viewStartTime (world p') = viewStartTime (world lobbyPlayer)
    /\ (isPlaying (view lobbyPlayer) = true -> timers (world p') = [])
    /\ (isPlaying (view lobbyPlayer) = false ->
        1 < len (itemsOrEmpty (playlist (view lobbyPlayer))) ->
        forall item, currentItem (view lobbyPlayer) = Some item ->
        exists tm, timers (world p') = [tm] /\ delay tm = duration item * 1000)
    /\ (currentItem (view lobbyPlayer) = None -> timers (world p') = []).
Proof.
  apply (proj1 (space_key_toggles_playback "d1" 2000 lobbyPlayer
                  (reach_mount "d1" 1000 lobby connecting None lobbyPlayer eq_refl))).
Defined.
